(** * DJAI automatic mixing engine: a shallow embedding and its properties

    The development follows the three source files of the engine:
    - [src/audio-analyzer.js]   (module [Analyzer]): key compatibility,
      transition search, per-track file analysis;
    - [src/upload-routes.js]    (module [Planner]): the "DJAI Mixer Module"
      with [analyzeTracks], [calculateMixOrder], [generateTransitionPoints];
    - the browser-side [AudioMixer] class (module [Mixer]).

    Further functions of the same files are in the modules [Streams]
    ([analyzeStream]), [Controls] (the player's buttons, sliders and
    events), [Display] ([formatDuration]) and [Generator] ([generateMix]).

    Numbers.  JavaScript numbers are modelled by exact rationals ([Q]) in
    the planner, where the code only adds, subtracts, compares, divides and
    floors them; [None] stands for [undefined]/[NaN] (both are falsy, both
    poison arithmetic and make every comparison false).  The Web-Audio part
    schedules [Math.cos]/[Math.sin] values, so the mixer uses [R]. *)

From Stdlib Require Import ZArith QArith Qround Qabs Qminmax Reals Lia Lra Lqa Bool Ascii
  String Sorted.
From stdpp Require Import base strings pretty list gmap.

Local Open Scope string_scope.
Local Open Scope Z_scope.

(** ** JavaScript conventions shared by all modules *)

Module Js.

(** The only exception the modelled code can raise on well-typed input. *)
Inductive error : Type :=
| TypeError_const_assignment   (* "Assignment to constant variable." *)
| TypeError_undefined_access   (* reading a property of [undefined] *)
| Error_message (msg : string). (* [throw new Error(msg)] or a library failure *)

(** A call either returns or throws. *)
Inductive outcome (A : Type) : Type :=
| Return (a : A)
| Throw (e : error).
Arguments Return {A} a.
Arguments Throw {A} e.

Definition bind {A B} (m : outcome A) (k : A -> outcome B) : outcome B :=
  match m with
  | Return a => k a
  | Throw e => Throw e
  end.

#[global] Instance error_eq_dec : EqDecision error.
Proof. solve_decision. Defined.

#[global] Instance outcome_eq_dec {A} `{EqDecision A} : EqDecision (outcome A).
Proof. solve_decision. Defined.

Definition returns {A} (m : outcome A) : bool :=
  match m with Return _ => true | Throw _ => false end.

(** [String.prototype.toLowerCase] on ASCII text. *)
Definition lower_ascii (c : ascii) : ascii :=
  let n := Ascii.nat_of_ascii c in
  if (65 <=? n)%nat && (n <=? 90)%nat then Ascii.ascii_of_nat (n + 32) else c.

Fixpoint toLowerCase (s : string) : string :=
  match s with
  | EmptyString => EmptyString
  | String c r => String (lower_ascii c) (toLowerCase r)
  end.

(** [s.substring(a, b)] and [s.substring(a)] for [a <= b <= s.length]. *)
Definition substring2 (a b : nat) (s : string) : string :=
  String.substring a (b - a) s.
Definition substring1 (a : nat) (s : string) : string :=
  String.substring a (String.length s - a) s.

(** [parseInt] on a string of decimal digits (radix 10, as ES5 and later
    read a leading zero); [None] is [NaN]. *)
Definition digit_of (c : ascii) : option Z :=
  let n := Ascii.nat_of_ascii c in
  if (48 <=? n)%nat && (n <=? 57)%nat then Some (Z.of_nat (n - 48)) else None.

Fixpoint parse_digits (acc : option Z) (s : string) : option Z :=
  match s with
  | EmptyString => acc
  | String c r =>
      match digit_of c with
      | Some d => parse_digits (Some (10 * default 0 acc + d)) r
      | None => acc
      end
  end.

Definition parseInt (s : string) : option Z := parse_digits None s.

(** [x < y] on numbers. *)
Definition Qltb (x y : Q) : bool := if Qlt_le_dec x y then true else false.

(** [Array.prototype.sort(compare)]: stable, and for a comparator that is a
    difference of numbers the result is the ascending order.  [compare a b]
    is the number the callback returns; [a] stays before [b] unless it is
    positive. *)
Fixpoint sort_insert {A} (compare : A -> A -> Q) (x : A) (l : list A) : list A :=
  match l with
  | [] => [x]
  | y :: l' =>
      if Qle_bool (compare x y) 0 then x :: y :: l'
      else y :: sort_insert compare x l'
  end.

Definition sort {A} (compare : A -> A -> Q) (l : list A) : list A :=
  foldr (sort_insert compare) [] l.

End Js.

Import Js.

(** ** audio-analyzer.js *)

Module Analyzer.

(** The five ratings [analyzeKeyCompatibility] and [findBestTransition]
    produce ('perfect', 'compatible', 'moderate', 'clash', 'unknown'). *)
Inductive compatibility : Type :=
| perfect | compatible | moderate | clash | unknown.

#[global] Instance compatibility_eq_dec : EqDecision compatibility.
Proof. solve_decision. Defined.

(** [camelotMap]: key name and scale to Camelot code.  Every key of the
    object contains a space, and so does every string looked up in it, so no
    inherited property of a JavaScript object can be hit. *)
Definition camelotMap : gmap string string :=
  list_to_map
    [ ("C major", "08B"); ("G major", "09B"); ("D major", "10B"); ("A major", "11B");
      ("E major", "12B"); ("B major", "01B"); ("F# major", "02B"); ("C# major", "03B");
      ("G# major", "04B"); ("D# major", "05B"); ("A# major", "06B"); ("F major", "07B");
      ("A minor", "08A"); ("E minor", "09A"); ("B minor", "10A"); ("F# minor", "11A");
      ("C# minor", "12A"); ("G# minor", "01A"); ("D# minor", "02A"); ("A# minor", "03A");
      ("F minor", "04A"); ("C minor", "05A"); ("G minor", "06A"); ("D minor", "07A");
      ("Db major", "03B"); ("Eb major", "05B"); ("Gb major", "02B"); ("Ab major", "04B");
      ("Bb major", "06B");
      ("Bb minor", "03A"); ("Eb minor", "02A"); ("Ab minor", "01A"); ("Db minor", "04A");
      ("Gb minor", "11A") ].

(** The 24 Camelot codes. *)
Definition camelotCodes : list string :=
  [ "01A"; "02A"; "03A"; "04A"; "05A"; "06A"; "07A"; "08A"; "09A"; "10A"; "11A"; "12A";
    "01B"; "02B"; "03B"; "04B"; "05B"; "06B"; "07B"; "08B"; "09B"; "10B"; "11B"; "12B" ].

(** [keyToCamelot(key, scale)]: [camelotMap[`${key} ${scale.toLowerCase()}`] || null]. *)
Definition keyToCamelot (key scale : string) : option string :=
  camelotMap !! (key +:+ " " +:+ toLowerCase scale).

(** The hour of a Camelot code, [parseInt(code.substring(0, 2))]; the codes
    of [camelotMap] always parse, [0] covers the [NaN] that cannot occur. *)
Definition hourOf (code : string) : Z := default 0 (parseInt (substring2 0 2 code)).
Definition modeOf (code : string) : string := substring1 2 code.

(** The body of [analyzeKeyCompatibility] once both codes are found.
    [relativeHour] is declared [const] in the source, so the statement
    [if (relativeHour === 0) relativeHour = 12] raises a TypeError whenever
    its condition holds. *)
Definition rateCamelot (sourceCamelot targetCamelot : string) : outcome compatibility :=
  let sourceHour := hourOf sourceCamelot in
  let sourceMode := modeOf sourceCamelot in
  let targetHour := hourOf targetCamelot in
  let targetMode := modeOf targetCamelot in
  if String.eqb sourceCamelot targetCamelot then Return perfect
  else if String.eqb sourceMode targetMode
          && ((sourceHour =? Z.rem targetHour 12 + 1)
              || (targetHour =? Z.rem sourceHour 12 + 1))
  then Return compatible
  else
    let afterRelative : outcome compatibility :=
      if String.eqb sourceMode targetMode
         && ((sourceHour =? Z.rem (targetHour + 7) 12)
             || (targetHour =? Z.rem (sourceHour + 7) 12))
      then Return compatible
      else if Z.abs (sourceHour - targetHour) =? 6 then Return clash
      else Return moderate in
    if (String.eqb sourceMode "A" && String.eqb targetMode "B")
       || (String.eqb sourceMode "B" && String.eqb targetMode "A")
    then
      let relativeHour :=
        if String.eqb sourceMode "A" then Z.rem (sourceHour + 3) 12
        else Z.rem (sourceHour - 3 + 12) 12 in
      if relativeHour =? 0 then Throw TypeError_const_assignment
      else if relativeHour =? targetHour then Return compatible
      else afterRelative
    else afterRelative.

(** [analyzeKeyCompatibility]: [if (!sourceCamelot || !targetCamelot) return 'unknown']
    and then the rating of the two codes. *)
Definition analyzeKeyCompatibility
    (sourceKey sourceScale targetKey targetScale : string) : outcome compatibility :=
  match keyToCamelot sourceKey sourceScale, keyToCamelot targetKey targetScale with
  | Some sourceCamelot, Some targetCamelot => rateCamelot sourceCamelot targetCamelot
  | _, _ => Return unknown
  end.

(** [determineTransitionType]: the tempo rating is 'good', 'moderate' or
    'challenging'. *)
Inductive tempo_rating : Type := good | tempo_moderate | challenging.

(** Every transition type a plan or the player names: the five of
    [determineTransitionType], 'simple' of [findBestTransition], and
    'fade', 'beatmatch', 'long_fade' of the planner's fallback path. *)
Inductive transition_type : Type :=
| beatmatch_blend | beatmatch_fade | harmonic_fade | tempo_adjust | cut_eq
| simple | fade | beatmatch | long_fade.

#[global] Instance transition_type_eq_dec : EqDecision transition_type.
Proof. solve_decision. Defined.

#[global] Instance tempo_rating_eq_dec : EqDecision tempo_rating.
Proof. solve_decision. Defined.

Definition determineTransitionType
    (bpmCompatibility : tempo_rating) (keyCompatibility : compatibility) : transition_type :=
  if bool_decide (bpmCompatibility = good) && bool_decide (keyCompatibility = perfect)
  then beatmatch_blend
  else if bool_decide (bpmCompatibility = good)
  then beatmatch_fade
  else if bool_decide (keyCompatibility = perfect) || bool_decide (keyCompatibility = compatible)
  then harmonic_fade
  else if bool_decide (bpmCompatibility = tempo_moderate)
          && negb (bool_decide (keyCompatibility = clash))
  then tempo_adjust
  else cut_eq.

(** *** Analysis objects

    The object [analyzeTrackFile] builds:
    [{format: {duration, sampleRate, channels}, metadata, rhythm, timestamp}].
    A property that may be missing is an [option]. *)

Record EnergyBand : Type := {
  eb_time : Q;
  lowEnergy : Q;
  midEnergy : Q;
  highEnergy : Q
}.

(** [rhythmAnalysis]: the empty object [{}] when Essentia is not loaded
    (every field [None]), otherwise every field present. *)
Record Rhythm : Type := {
  r_bpm : option Q;
  r_beats : option (list Q);
  r_confidence : option Q;
  r_key : option string;
  r_scale : option string;
  r_segments : option (list Q);
  r_energyBands : option (list EnergyBand)
}.

Definition emptyRhythm : Rhythm :=
  {| r_bpm := None; r_beats := None; r_confidence := None; r_key := None;
     r_scale := None; r_segments := None; r_energyBands := None |}.

Record Format : Type := {
  f_duration : option Q;
  f_sampleRate : option Q;
  f_channels : option Q
}.

Record Metadata : Type := {
  m_title : option string;
  m_artist : option string;
  m_album : option string;
  m_genre : option string
}.

(** [a_duration] is the top-level property [duration] that
    [findBestTransition] reads; [analyzeTrackFile] stores the duration under
    [format] and never sets it. *)
Record Analysis : Type := {
  a_duration : option Q;
  a_format : Format;
  a_metadata : Metadata;
  a_rhythm : option Rhythm;
  a_timestamp : Z
}.

(** [x || 120] on a number: [undefined], [NaN] and [0] are falsy. *)
Definition truthyQ (x : option Q) : bool :=
  match x with
  | Some q => negb (Qeq_bool q 0)
  | None => false
  end.

Definition orQ (x : option Q) (d : Q) : Q :=
  match x with
  | Some q => if Qeq_bool q 0 then d else q
  | None => d
  end.

(** [x || d] on a string: [undefined] and the empty string are falsy. *)
Definition orS (x : option string) (d : string) : string :=
  match x with
  | Some EmptyString | None => d
  | Some s => s
  end.

(** [Math.floor(x * 0.8)]; [None] is [NaN]. *)
Definition floor_08 (x : option Q) : option Q :=
  match x with
  | Some d => Some (inject_Z (Qfloor (d * (8 # 10))))
  | None => None
  end.

(** What [findBestTransition] returns.  [ti_duration] is the property
    [duration] that [generateTransitionPoints] reads afterwards:
    [findBestTransition] does not set it. *)
Record TransitionInfo : Type := {
  ti_transitionPoint : option Q;
  ti_sourceBpm : option Q;
  ti_targetBpm : option Q;
  ti_bpmDifference : option Q;
  ti_bpmCompatibility : option tempo_rating;
  ti_sourceKey : option string;
  ti_targetKey : option string;
  ti_keyCompatibility : option compatibility;
  ti_type : transition_type;
  ti_duration : option Q
}.

(** The [for] loop of [findBestTransition]: the first index [i] in
    [startSearchAt, beats.length) with [i % 16 === 0] selects [beats[i]];
    [n] counts the indices still to visit. *)
Fixpoint phraseBoundary (beats : list Q) (i n : nat) (dflt : option Q) : option Q :=
  match n with
  | O => dflt
  | S n' =>
      if (i mod 16 =? 0)%nat then
        match beats !! i with
        | Some b => Some b
        | None => None
        end
      else phraseBoundary beats (S i) n' dflt
  end.

Definition rateTempo (bpmDifference : option Q) : tempo_rating :=
  match bpmDifference with
  | Some d =>
      if Qltb (Qabs d) 10 then good
      else if Qltb (Qabs d) 20 then tempo_moderate
      else challenging
  | None => challenging
  end.

Definition subQ (a b : option Q) : option Q :=
  match a, b with
  | Some x, Some y => Some (x - y)%Q
  | _, _ => None
  end.

(** The key as it is spliced into the template string: a missing key prints
    as "undefined". *)
Definition keyText (k : option string) : string := default "undefined" k.

(** [analyzeKeyCompatibility] on properties that may be missing: calling
    [toLowerCase] on a missing scale is a TypeError. *)
Definition analyzeKeyCompatibility_opt
    (sourceKey sourceScale targetKey targetScale : option string) : outcome compatibility :=
  match sourceScale, targetScale with
  | Some ss, Some ts => analyzeKeyCompatibility (keyText sourceKey) ss (keyText targetKey) ts
  | _, _ => Throw TypeError_undefined_access
  end.

Definition findBestTransition (sourceTrack targetTrack : Analysis) : outcome TransitionInfo :=
  let defaultTransitionPoint := floor_08 (a_duration sourceTrack) in
  let simpleTransition : outcome TransitionInfo :=
    let sourceBpm := orQ (a_rhythm sourceTrack ≫= r_bpm) 120 in
    let targetBpm := orQ (a_rhythm targetTrack ≫= r_bpm) 120 in
    Return {| ti_transitionPoint := defaultTransitionPoint;
              ti_sourceBpm := Some sourceBpm;
              ti_targetBpm := Some targetBpm;
              ti_bpmDifference := Some (targetBpm - sourceBpm)%Q;
              ti_bpmCompatibility := None;
              ti_sourceKey := Some (orS (a_rhythm sourceTrack ≫= r_key) "C");
              ti_targetKey := Some (orS (a_rhythm targetTrack ≫= r_key) "C");
              ti_keyCompatibility := Some unknown;
              ti_type := simple;
              ti_duration := None |} in
  match a_rhythm sourceTrack, a_rhythm targetTrack with
  | Some srcR, Some tgtR =>
      match r_beats srcR, r_beats tgtR with
      | Some beats, Some _ =>
          let startSearchAt :=
            Z.to_nat (Qfloor (inject_Z (Z.of_nat (length beats)) * (66 # 100))) in
          let bestTransitionPoint :=
            phraseBoundary beats startSearchAt (length beats - startSearchAt)
                           defaultTransitionPoint in
          let bpmDifference := subQ (r_bpm tgtR) (r_bpm srcR) in
          let bpmCompatibility := rateTempo bpmDifference in
          bind (analyzeKeyCompatibility_opt (r_key srcR) (r_scale srcR)
                                            (r_key tgtR) (r_scale tgtR))
            (fun keyCompatibility =>
               Return {| ti_transitionPoint := bestTransitionPoint;
                         ti_sourceBpm := r_bpm srcR;
                         ti_targetBpm := r_bpm tgtR;
                         ti_bpmDifference := bpmDifference;
                         ti_bpmCompatibility := Some bpmCompatibility;
                         ti_sourceKey := r_key srcR;
                         ti_targetKey := r_key tgtR;
                         ti_keyCompatibility := Some keyCompatibility;
                         ti_type := determineTransitionType bpmCompatibility keyCompatibility;
                         ti_duration := None |})
      | _, _ => simpleTransition
      end
  | _, _ => simpleTransition
  end.

(** *** analyzeTrackFile

    What the file system and the libraries answer is the input of the
    model: each call either returns a value or throws. *)

Record DecodedAudio : Type := {
  channelLength : nat;      (* audioBuffer.getChannelData(0).length *)
  sampleRate : Q            (* audioContext.sampleRate *)
}.

Record BeatTracking : Type := {
  bt_bpm : Q;
  bt_ticks : list Q;
  bt_confidence : Q
}.

Record Essentia : Type := {
  BeatTrackerMultiFeature : outcome BeatTracking;
  KeyExtractor : outcome (string * string);      (* key, scale *)
  SBic : outcome (list Q);                       (* segments.segmentation *)
  EnergyBandOf : nat -> outcome (Q * Q * Q)      (* low, mid, high of the frame at offset i *)
}.

Record FileWorld : Type := {
  existsSync : bool;
  mtimeMs : string;                              (* fs.statSync(filePath).mtimeMs, printed *)
  readFileSync : outcome unit;
  parseBuffer : outcome (Format * Metadata);     (* music-metadata *)
  decodeAudioFile : outcome DecodedAudio;
  essentia : option Essentia;                    (* the module variable, unset before initialize *)
  now : Z                                        (* Date.now() *)
}.

Definition frameSize : nat := 2048.

(** The frame loop: [for (i = 0; i < len; i += frameSize) if (i + frameSize < len) ...];
    [n] bounds the number of iterations. *)
Fixpoint energyFrames (E : Essentia) (rate : Q) (len i n : nat) : outcome (list EnergyBand) :=
  match n with
  | O => Return []
  | S n' =>
      if (i <? len)%nat then
        if (i + frameSize <? len)%nat then
          bind (EnergyBandOf E i) (fun '(lo, mi, hi) =>
          bind (energyFrames E rate len (i + frameSize) n') (fun rest =>
          Return ({| eb_time := (inject_Z (Z.of_nat i) / rate)%Q;
                     lowEnergy := lo; midEnergy := mi; highEnergy := hi |} :: rest)))
        else energyFrames E rate len (i + frameSize) n'
      else Return []
  end.

Definition rhythmOf (w : FileWorld) (audio : DecodedAudio) : outcome Rhythm :=
  match essentia w with
  | None => Return emptyRhythm
  | Some E =>
      bind (BeatTrackerMultiFeature E) (fun beatTracking =>
      bind (KeyExtractor E) (fun '(key, scale) =>
      bind (SBic E) (fun segmentation =>
      bind (energyFrames E (sampleRate audio) (channelLength audio) 0 (S (channelLength audio)))
        (fun bands =>
      Return {| r_bpm := Some (bt_bpm beatTracking);
                r_beats := Some (bt_ticks beatTracking);
                r_confidence := Some (bt_confidence beatTracking);
                r_key := Some key;
                r_scale := Some scale;
                r_segments :=
                  Some (map (fun s => (s * inject_Z (Z.of_nat (channelLength audio)))%Q)
                            segmentation);
                r_energyBands := Some bands |}))))
  end.

(** The body of the [try] block. *)
Definition analyzeBody (w : FileWorld) : outcome Analysis :=
  bind (readFileSync w) (fun _ =>
  bind (parseBuffer w) (fun '(format, metadata) =>
  bind (decodeAudioFile w) (fun audioBuffer =>
  bind (rhythmOf w audioBuffer) (fun rhythmAnalysis =>
  Return {| a_duration := None;
            a_format := format;
            a_metadata := metadata;
            a_rhythm := Some rhythmAnalysis;
            a_timestamp := now w |})))).

(** [analyzeTrackFile(filePath)] with [analysisCache] passed explicitly.
    The [catch] clause logs and rethrows: [throw error]. *)
Definition analyzeTrackFile (filePath : string) (w : FileWorld)
    (analysisCache : gmap string Analysis) : outcome Analysis * gmap string Analysis :=
  if negb (existsSync w) then
    (Throw (Error_message ("File not found: " +:+ filePath)), analysisCache)
  else
    let cacheKey := filePath +:+ "-" +:+ mtimeMs w in
    match analysisCache !! cacheKey with
    | Some cached => (Return cached, analysisCache)
    | None =>
        match analyzeBody w with
        | Return analysis => (Return analysis, <[cacheKey := analysis]> analysisCache)
        | Throw error => (Throw error, analysisCache)
        end
    end.

End Analyzer.

Import Analyzer.

(** ** upload-routes.js: the DJAI Mixer Module *)

Module Planner.

(** A track id is a SoundCloud number or an upload's file name. *)
Inductive id : Type :=
| NumId (n : Z)
| StrId (s : string).

#[global] Instance id_eq_dec : EqDecision id.
Proof. solve_decision. Defined.

(** The property name under which an id indexes a plain object. *)
Definition idKey (i : id) : string :=
  match i with
  | NumId n => pretty n
  | StrId s => s
  end.

Definition idTruthy (i : id) : bool :=
  match i with
  | NumId n => negb (n =? 0)
  | StrId s => negb (String.eqb s "")
  end.

(** A track object.  [energy], [key] and [scale] exist only on the copies
    that [calculateMixOrder] makes. *)
Record Track : Type := {
  t_id : id;
  t_title : string;
  t_bpm : option Q;
  t_duration : option Q;
  t_uploaded : bool;
  t_filePath : option string;
  t_analyzed : bool;
  t_advancedAnalysis : option Analysis;
  t_energy : option Z;
  t_key : option string;
  t_scale : option string
}.

Definition rhythmKey (track : Track) : option string :=
  (t_advancedAnalysis track ≫= a_rhythm) ≫= r_key.
Definition rhythmScale (track : Track) : option string :=
  (t_advancedAnalysis track ≫= a_rhythm) ≫= r_scale.

(** *** estimateTrackEnergy *)

Definition bandMean (band : EnergyBand) : Q :=
  ((lowEnergy band + midEnergy band + highEnergy band) / 3)%Q.

Definition estimateTrackEnergy (track : Track) : Z :=
  match (t_advancedAnalysis track ≫= a_rhythm) ≫= r_energyBands with
  | Some (b :: bs) =>
      let bands := b :: bs in
      let avgEnergy :=
        (fold_left (fun sum band => sum + bandMean band) bands 0
         / inject_Z (Z.of_nat (length bands)))%Q in
      Z.max 1 (Z.min 10 (Qfloor (avgEnergy * 10)))
  | _ =>
      match t_bpm track with
      | Some bpm =>
          if Qeq_bool bpm 0 then 5
          else if Qltb bpm 80 then 2
          else if Qltb bpm 100 then 4
          else if Qltb bpm 120 then 6
          else if Qltb bpm 140 then 8
          else 10
      | None => 5
      end
  end.

(** The functions below run on the copies made by [calculateMixOrder], on
    which [energy] and [bpm] are always set. *)
Definition energyOf (t : Track) : Z := default 0 (t_energy t).

(** Reading [array[i]] and pushing it: every read below is guarded by a
    bounds test in the source (or is index 0 or the midpoint of an array of
    three or more elements), so the element exists. *)
Definition pushAt (result arr : list Track) (i : Z) : list Track :=
  result ++ option_list (arr !! Z.to_nat i).

(** *** createEnergyCurve *)

(** One iteration of the [while] loop. *)
Definition energyStep (total : nat) (sorted : list Track)
    (st : list Track * Z * Z * bool) : list Track * Z * Z * bool :=
  let '(result, upIndex, downIndex, goingUp) := st in
  let len := Z.of_nat (length sorted) in
  let '(result1, upIndex1, downIndex1) :=
    if goingUp && (upIndex <? len) then (pushAt result sorted upIndex, upIndex + 1, downIndex)
    else if 0 <=? downIndex then (pushAt result sorted downIndex, upIndex, downIndex - 1)
    else if upIndex <? len then (pushAt result sorted upIndex, upIndex + 1, downIndex)
    else (result, upIndex, downIndex) in
  let goingUp1 :=
    if goingUp && Qltb (inject_Z (Z.of_nat total) * (7 # 10))
                       (inject_Z (Z.of_nat (length result1)))
    then false else goingUp in
  (result1, upIndex1, downIndex1, goingUp1).

(** [while (result.length < tracks.length)]; [None] when the fuel runs out. *)
Fixpoint energyLoop (fuel total : nat) (sorted : list Track)
    (st : list Track * Z * Z * bool) : option (list Track) :=
  let '(result, _, _, _) := st in
  if (length result <? total)%nat then
    match fuel with
    | O => None
    | S fuel' => energyLoop fuel' total sorted (energyStep total sorted st)
    end
  else Some result.

Definition createEnergyCurve (tracks : list Track) : option (list Track) :=
  let sortedByEnergy :=
    Js.sort (fun a b => inject_Z (energyOf a - energyOf b)) tracks in
  let midpoint := Z.of_nat (length sortedByEnergy) / 2 in
  energyLoop (length tracks) (length tracks) sortedByEnergy
             (pushAt [] sortedByEnergy midpoint, midpoint + 1, midpoint - 1, true).

(** *** minimizeBpmJumps *)

(** [Math.abs(track.bpm - lastTrack.bpm)]; [None] is [NaN]. *)
Definition bpmDistance (track lastTrack : Track) : option Q :=
  Qabs <$> subQ (t_bpm track) (t_bpm lastTrack).

(** The [forEach] over [remaining]: [bestDiff] starts at [Infinity]
    ([None]) and a strictly smaller difference takes over. *)
Fixpoint closestBpm (lastTrack : Track) (remaining : list Track) (index : nat)
    (bestDiff : option Q) (bestMatch : nat) : nat :=
  match remaining with
  | [] => bestMatch
  | track :: rest =>
      match bpmDistance track lastTrack with
      | Some diff =>
          let smaller :=
            match bestDiff with
            | None => true
            | Some best => Qltb diff best
            end in
          if smaller then closestBpm lastTrack rest (S index) (Some diff) index
          else closestBpm lastTrack rest (S index) bestDiff bestMatch
      | None => closestBpm lastTrack rest (S index) bestDiff bestMatch
      end
  end.

(** [while (remaining.length > 0)] with its push and splice, the loop of
    [minimizeBpmJumps] and of [harmonicMixing]: [choose lastTrack remaining]
    is the [forEach] that selects [bestMatch]. *)
Fixpoint greedyLoop (choose : Track -> list Track -> nat) (fuel : nat)
    (result remaining : list Track) : option (list Track) :=
  match remaining with
  | [] => Some result
  | _ :: _ =>
      match fuel with
      | O => None
      | S fuel' =>
          match last result with
          | Some lastTrack =>
              let bestMatch := choose lastTrack remaining in
              greedyLoop choose fuel' (pushAt result remaining (Z.of_nat bestMatch))
                         (delete bestMatch remaining)
          | None => None
          end
      end
  end.

Definition minimizeBpmJumps (tracks : list Track) : option (list Track) :=
  let sortedByBpm :=
    Js.sort (fun a b => (default 0 (t_bpm a) - default 0 (t_bpm b))%Q) tracks in
  greedyLoop (fun lastTrack remaining => closestBpm lastTrack remaining 0 None 0)
             (length tracks) (pushAt [] sortedByBpm 0) (drop 1 sortedByBpm).

(** *** scoreKeyCompatibility and harmonicMixing *)

Definition camelotWheel : gmap string Z :=
  list_to_map
    [ ("C major", 8); ("G major", 9); ("D major", 10); ("A major", 11);
      ("E major", 12); ("B major", 1); ("F# major", 2); ("C# major", 3);
      ("G# major", 4); ("D# major", 5); ("A# major", 6); ("F major", 7);
      ("A minor", 8); ("E minor", 9); ("B minor", 10); ("F# minor", 11);
      ("C# minor", 12); ("G# minor", 1); ("D# minor", 2); ("A# minor", 3);
      ("F minor", 4); ("C minor", 5); ("G minor", 6); ("D minor", 7);
      ("Db major", 3); ("Eb major", 5); ("Gb major", 2); ("Ab major", 4); ("Bb major", 6);
      ("Bb minor", 3); ("Eb minor", 2); ("Ab minor", 1); ("Db minor", 4); ("Gb minor", 11) ].

Definition scoreKeyCompatibility (key1 scale1 key2 scale2 : string) : Z :=
  if String.eqb key1 key2 && String.eqb scale1 scale2 then 10
  else
    let mode1 := if String.eqb (toLowerCase scale1) "minor" then "minor" else "major" in
    let mode2 := if String.eqb (toLowerCase scale2) "minor" then "minor" else "major" in
    match camelotWheel !! (key1 +:+ " " +:+ mode1), camelotWheel !! (key2 +:+ " " +:+ mode2) with
    | Some key1Pos, Some key2Pos =>
        if (key1Pos =? 0) || (key2Pos =? 0) then 5
        else
          let distance0 := Z.abs (key1Pos - key2Pos) in
          let distance := if 6 <? distance0 then 12 - distance0 else distance0 in
          if distance =? 1 then 9
          else if (distance =? 3) && negb (String.eqb mode1 mode2) then 9
          else if distance =? 7 then 8
          else if String.eqb mode1 mode2 then 10 - distance
          else 6 - distance
    | _, _ => 5
    end.

(** [t.key && t.scale] *)
Definition hasKey (t : Track) : bool :=
  match t_key t, t_scale t with
  | Some k, Some sc => negb (String.eqb k "") && negb (String.eqb sc "")
  | _, _ => false
  end.

(** [keyMatch * 2 + bpmScore] with [bpmScore = 10 - Math.min(10, bpmDiff / 5)];
    [None] is [NaN]. *)
Definition harmonicScore (lastTrack track : Track) : option Q :=
  let keyMatch :=
    scoreKeyCompatibility (default "" (t_key lastTrack)) (default "" (t_scale lastTrack))
                          (default "" (t_key track)) (default "" (t_scale track)) in
  match bpmDistance track lastTrack with
  | Some bpmDiff =>
      let bpmScore := (10 - Qmin 10 (bpmDiff / 5))%Q in
      Some (inject_Z keyMatch * 2 + bpmScore)%Q
  | None => None
  end.

(** The [forEach] over [remaining]: [bestScore] starts at [-1]. *)
Fixpoint bestHarmonic (lastTrack : Track) (remaining : list Track) (index : nat)
    (bestScore : Q) (bestMatch : nat) : nat :=
  match remaining with
  | [] => bestMatch
  | track :: rest =>
      match harmonicScore lastTrack track with
      | Some score =>
          if Qltb bestScore score then bestHarmonic lastTrack rest (S index) score index
          else bestHarmonic lastTrack rest (S index) bestScore bestMatch
      | None => bestHarmonic lastTrack rest (S index) bestScore bestMatch
      end
  end.

Definition harmonicMixing (tracks : list Track) : option (list Track) :=
  let tracksWithKeys := filter (fun t => hasKey t = true) tracks in
  if Qltb (inject_Z (Z.of_nat (length tracksWithKeys)))
          (inject_Z (Z.of_nat (length tracks)) * (5 # 10))
  then Some tracks
  else
    match greedyLoop (fun lastTrack remaining => bestHarmonic lastTrack remaining 0 (-1) 0)
                     (length tracks) (pushAt [] tracksWithKeys 0) (drop 1 tracksWithKeys) with
    | Some result => Some (result ++ filter (fun t => hasKey t = false) tracks)%list
    | None => None
    end.

(** *** calculateMixOrder *)

(** The copy [{...track, energy, bpm, key, scale}]. *)
Definition scored (track : Track) : Track :=
  {| t_id := t_id track;
     t_title := t_title track;
     t_bpm := Some (orQ (t_bpm track) 120);
     t_duration := t_duration track;
     t_uploaded := t_uploaded track;
     t_filePath := t_filePath track;
     t_analyzed := t_analyzed track;
     t_advancedAnalysis := t_advancedAnalysis track;
     t_energy := Some (estimateTrackEnergy track);
     t_key := Some (orS (rhythmKey track) "C");
     t_scale := Some (orS (rhythmScale track) "major") |}.

(** [ordered.forEach((t, idx) => { if (t.id === track.id) scores[track.id][idx] += weight })] *)
Fixpoint vote (ordered : list Track) (idx : nat) (track : Track) (weight : Z)
    (scores : gmap string (list Z)) : gmap string (list Z) :=
  match ordered with
  | [] => scores
  | t :: rest =>
      vote rest (S idx) track weight
           (if bool_decide (t_id t = t_id track)
            then alter (alter (fun v => v + weight) idx) (idKey (t_id track)) scores
            else scores)
  end.

(** The body of [tracks.forEach(track => ...)] that fills [scores]. *)
Definition scoreTrack (total : nat) (energyOrdered bpmOrdered harmonicOrdered : list Track)
    (hasAdvancedAnalysis : bool) (scores : gmap string (list Z)) (track : Track)
    : gmap string (list Z) :=
  let s0 := <[idKey (t_id track) := replicate total 0]> scores in
  let s1 := vote energyOrdered 0 track 5 s0 in
  let s2 := vote bpmOrdered 0 track 10 s1 in
  if hasAdvancedAnalysis then vote harmonicOrdered 0 track 8 s2 else s2.

(** [scores[track.id][position]]; [None] is [undefined]. *)
Definition scoreAt (scores : gmap string (list Z)) (track : Track) (position : nat) : option Z :=
  scores !! idKey (t_id track) ≫= (fun row => row !! position).

(** The inner [forEach] of the placement loop. *)
Fixpoint pickBest (scores : gmap string (list Z)) (usedTracks : list id) (position : nat)
    (tracks : list Track) (bestScore : Z) (bestTrack : option Track) : option Track :=
  match tracks with
  | [] => bestTrack
  | track :: rest =>
      match scoreAt scores track position with
      | Some score =>
          if negb (bool_decide (t_id track ∈ usedTracks)) && (bestScore <? score)
          then pickBest scores usedTracks position rest score (Some track)
          else pickBest scores usedTracks position rest bestScore bestTrack
      | None => pickBest scores usedTracks position rest bestScore bestTrack
      end
  end.

(** [for (let position = 0; position < tracks.length; position++)];
    [n] counts the positions still to fill. *)
Fixpoint place (scores : gmap string (list Z)) (tracks : list Track) (position n : nat)
    (result : list Track) (usedTracks : list id) : list Track * list id :=
  match n with
  | O => (result, usedTracks)
  | S n' =>
      match pickBest scores usedTracks position tracks (-1) None with
      | Some bestTrack =>
          place scores tracks (S position) n' (result ++ [bestTrack])%list
                (usedTracks ++ [t_id bestTrack])%list
      | None => place scores tracks (S position) n' result usedTracks
      end
  end.

(** [None] stands for a call that does not return. *)
Definition calculateMixOrder (analyzedTracks : list Track) : option (list Track) :=
  if (length analyzedTracks <? 3)%nat then
    Some (Js.sort (fun a b => (orQ (t_bpm a) 120 - orQ (t_bpm b) 120)%Q) analyzedTracks)
  else
    let hasAdvancedAnalysis :=
      existsb (fun t => bool_decide (is_Some (t_advancedAnalysis t))) analyzedTracks in
    let tracks := scored <$> analyzedTracks in
    match createEnergyCurve tracks, minimizeBpmJumps tracks,
          (if hasAdvancedAnalysis then harmonicMixing tracks else Some tracks) with
    | Some energyOrdered, Some bpmOrdered, Some harmonicOrdered =>
        let scores :=
          fold_left (scoreTrack (length tracks) energyOrdered bpmOrdered harmonicOrdered
                                hasAdvancedAnalysis)
                    tracks ∅ in
        let '(result, usedTracks) := place scores tracks 0 (length tracks) [] [] in
        Some (result ++ filter (fun track => t_id track ∉ usedTracks) tracks)%list
    | _, _, _ => None
    end.

(** *** generateTransitionPoints *)

(** An element of the [transitions] array.  [tr_sourceBpm] and
    [tr_targetBpm] are the properties [sourceBpm] and [targetBpm] the player
    reads: [generateTransitionPoints] does not copy them. *)
Record Transition : Type := {
  fromTrack : id;
  toTrack : id;
  transitionPoint : option Q;
  bpmDifference : option Q;
  sourceKey : option string;
  targetKey : option string;
  keyCompatibility : option compatibility;
  transitionType : transition_type;
  transitionDuration : Q;
  tr_sourceBpm : option Q;
  tr_targetBpm : option Q
}.

(** The fallback branch [if (!transitionInfo) { ... }]. *)
Definition fallbackTransition (currentTrack nextTrack : Track) (currentDuration : Q)
    : TransitionInfo :=
  let currentBpm := orQ (t_bpm currentTrack) 120 in
  let nextBpm := orQ (t_bpm nextTrack) 120 in
  let bpmDiff := (nextBpm - currentBpm)%Q in
  let transitionPoint := inject_Z (Qfloor (currentDuration * (8 # 10))) in
  let durationAndType : Q * transition_type :=
    if Qltb (Qabs bpmDiff) 5 then (6000 : Q, beatmatch)
    else if Qltb 15 (Qabs bpmDiff) then (12000 : Q, long_fade)
    else (8000 : Q, fade) in
  let transitionDuration := fst durationAndType in
  let transitionType := snd durationAndType in
  {| ti_transitionPoint := Some transitionPoint;
     ti_sourceBpm := Some currentBpm;
     ti_targetBpm := Some nextBpm;
     ti_bpmDifference := Some bpmDiff;
     ti_bpmCompatibility := None;
     ti_sourceKey := None;
     ti_targetKey := None;
     ti_keyCompatibility := None;
     ti_type := transitionType;
     ti_duration := Some transitionDuration |}.

(** The object pushed on [transitions]. *)
Definition pushed (currentTrack nextTrack : Track) (transitionInfo : TransitionInfo)
    : Transition :=
  {| fromTrack := t_id currentTrack;
     toTrack := t_id nextTrack;
     transitionPoint := ti_transitionPoint transitionInfo;
     bpmDifference := ti_bpmDifference transitionInfo;
     sourceKey := ti_sourceKey transitionInfo;
     targetKey := ti_targetKey transitionInfo;
     keyCompatibility := ti_keyCompatibility transitionInfo;
     transitionType := ti_type transitionInfo;
     transitionDuration := orQ (ti_duration transitionInfo) 8000;
     tr_sourceBpm := None;
     tr_targetBpm := None |}.

(** The body of the [for] loop for one consecutive pair. *)
Definition transitionBetween (currentTrack nextTrack : Track) : outcome Transition :=
  let currentDuration := orQ (t_duration currentTrack) 180000 in
  bind (match t_advancedAnalysis currentTrack, t_advancedAnalysis nextTrack with
        | Some currentAnalysis, Some nextAnalysis =>
            bind (findBestTransition currentAnalysis nextAnalysis) (fun info => Return (Some info))
        | _, _ => Return None
        end)
    (fun found =>
       Return (pushed currentTrack nextTrack
                 match found with
                 | Some info => info
                 | None => fallbackTransition currentTrack nextTrack currentDuration
                 end)).

Fixpoint generateTransitionPoints (orderedTracks : list Track) : outcome (list Transition) :=
  match orderedTracks with
  | currentTrack :: rest =>
      match rest with
      | nextTrack :: _ =>
          bind (transitionBetween currentTrack nextTrack) (fun transition =>
          bind (generateTransitionPoints rest) (fun transitions =>
          Return (transition :: transitions)))
      | [] => Return []
      end
  | [] => Return []
  end.

(** *** analyzeTracks *)

(** What [SC.get('/tracks/' + id, callback)] does: it calls back with an
    error, calls back with the detailed track, or throws. *)
Inductive ScReply : Type :=
| ScError
| ScTrack (detailedTrack : Track)
| ScThrows (e : error).

Record World : Type := {
  SC_get : id -> ScReply;
  fileAt : string -> FileWorld
}.

Definition withBpm (track : Track) (bpm : option Q) (analyzed : bool) : Track :=
  {| t_id := t_id track; t_title := t_title track; t_bpm := bpm;
     t_duration := t_duration track; t_uploaded := t_uploaded track;
     t_filePath := t_filePath track; t_analyzed := analyzed;
     t_advancedAnalysis := t_advancedAnalysis track; t_energy := t_energy track;
     t_key := t_key track; t_scale := t_scale track |}.

Definition withAnalysis (track : Track) (advancedAnalysis : option Analysis)
    (analyzed : bool) : Track :=
  {| t_id := t_id track; t_title := t_title track; t_bpm := t_bpm track;
     t_duration := t_duration track; t_uploaded := t_uploaded track;
     t_filePath := t_filePath track; t_analyzed := analyzed;
     t_advancedAnalysis := advancedAnalysis; t_energy := t_energy track;
     t_key := t_key track; t_scale := t_scale track |}.

(** The [async (track) => { try { ... } catch (error) { ... } }] callback of
    [analyzeTracks], with [analysisCache] passed explicitly.  It always
    returns a track. *)
Definition analyzeTrack (W : World) (track : Track) (analysisCache : gmap string Analysis)
    : Track * gmap string Analysis :=
  let fetched : outcome Track :=
    if negb (truthyQ (t_bpm track)) && idTruthy (t_id track) then
      match SC_get W (t_id track) with
      | ScError => Return (withBpm track (Some (120 : Q)) false)
      | ScTrack detailedTrack => Return (withBpm detailedTrack (t_bpm detailedTrack) true)
      | ScThrows e => Throw e
      end
    else Return track in
  match fetched with
  | Return trackInfo =>
      let '(advancedAnalysis, cache1) :=
        match t_filePath track with
        | Some filePath =>
            if t_uploaded track && negb (String.eqb filePath "")
               && existsSync (fileAt W filePath)
            then
              match analyzeTrackFile filePath (fileAt W filePath) analysisCache with
              | (Return analysis, c) => (Some analysis, c)
              | (Throw analyzeError, c) => (None, c)
              end
            else (None, analysisCache)
        | None => (None, analysisCache)
        end in
      (withAnalysis trackInfo advancedAnalysis
         (t_analyzed trackInfo || bool_decide (is_Some advancedAnalysis)),
       cache1)
  | Throw error =>
      (withBpm track (Some (orQ (t_bpm track) 120)) false, analysisCache)
  end.

(** [Promise.all(tracks.map(...))], the callbacks taken in array order. *)
Fixpoint analyzeTracks (W : World) (tracks : list Track)
    (analysisCache : gmap string Analysis) : list Track * gmap string Analysis :=
  match tracks with
  | [] => ([], analysisCache)
  | track :: rest =>
      let '(analyzed, c1) := analyzeTrack W track analysisCache in
      let '(others, c2) := analyzeTracks W rest c1 in
      (analyzed :: others, c2)
  end.

End Planner.

Import Planner.

(** ** calculateMixOrder on a store of arrays and objects

    The functions of [Planner] compute with track values.  To see what
    [calculateMixOrder] does to the arrays and objects it is given, the same
    code is written here against a store: an array is a reference to a list
    of object references, [sort], [push] and [splice] write to the array
    they are called on, and a spread, [slice], [filter] or [map] allocates a
    new array.  [scores] and [usedTracks] hold numbers and ids only and stay
    values. *)

Module Store.

Record heap : Type := {
  arrays : list (list nat);       (* array reference -> its elements *)
  objects : list Track            (* object reference -> its fields *)
}.

(** A computation on the store; [None] stands for a call that does not
    return. *)
Definition M (A : Type) : Type := heap -> option (A * heap).

#[global] Instance M_ret : MRet M := fun A a h => Some (a, h).
#[global] Instance M_bind : MBind M := fun A B k c h =>
  match c h with
  | Some (a, h') => k a h'
  | None => None
  end.

Definition fail {A} : M A := fun _ => None.

(** *** Primitive reads and writes *)

Definition setArr (a : nat) (l : list nat) (h : heap) : heap :=
  {| arrays := <[a := l]> (arrays h); objects := objects h |}.
Definition addArr (l : list nat) (h : heap) : heap :=
  {| arrays := arrays h ++ [l]; objects := objects h |}.
Definition addObj (t : Track) (h : heap) : heap :=
  {| arrays := arrays h; objects := objects h ++ [t] |}.

Definition allocArray (l : list nat) : M nat := fun h =>
  Some (length (arrays h), addArr l h).
Definition readArray (a : nat) : M (list nat) := fun h =>
  match arrays h !! a with
  | Some l => Some (l, h)
  | None => None
  end.
Definition writeArray (a : nat) (l : list nat) : M unit := fun h =>
  match arrays h !! a with
  | Some _ => Some (tt, setArr a l h)
  | None => None
  end.
Definition allocObject (t : Track) : M nat := fun h =>
  Some (length (objects h), addObj t h).

(** The objects a list of references points to. *)
Definition deref (objs : list Track) (l : list nat) : option (list Track) :=
  mapM (fun o => objs !! o) l.
Definition readObjects (l : list nat) : M (list Track) := fun h =>
  match deref (objects h) l with
  | Some ts => Some (ts, h)
  | None => None
  end.

(** *** Array methods *)

(** [[...a]] *)
Definition spread (a : nat) : M nat := l ← readArray a; allocArray l.
(** [a.slice(n)] *)
Definition slice (a n : nat) : M nat := l ← readArray a; allocArray (drop n l).
(** [a.push(x)] *)
Definition push (a x : nat) : M unit := l ← readArray a; writeArray a (l ++ [x]).
(** [a.splice(i, 1)] *)
Definition splice1 (a i : nat) : M unit := l ← readArray a; writeArray a (delete i l).
(** [a[i]], for an index inside the array. *)
Definition element (a i : nat) : M nat :=
  l ← readArray a;
  match l !! i with
  | Some x => mret x
  | None => fail
  end.
(** [a.sort(compare)]: the array itself is reordered. *)
Definition sortBy (compare : Track -> Track -> Q) (a : nat) : M unit :=
  l ← readArray a;
  ts ← readObjects l;
  writeArray a ((Js.sort (fun x y => compare x.2 y.2) (zip l ts)).*1).
(** [a.filter(t => p(t))] *)
Definition filterBy (p : Track -> Prop) `{forall t, Decision (p t)} (a : nat) : M nat :=
  l ← readArray a;
  ts ← readObjects l;
  allocArray ((filter (fun x => p x.2) (zip l ts)).*1).
(** The tracks of an array. *)
Definition tracksOf (a : nat) : M (list Track) := l ← readArray a; readObjects l.

(** *** createEnergyCurve *)

(** The three pushing branches of the [while] body. *)
Definition energyMove (sortedByEnergy result : nat) (upIndex downIndex : Z)
    (goingUp : bool) : M (Z * Z) :=
  sorted ← readArray sortedByEnergy;
  let len := Z.of_nat (length sorted) in
  if goingUp && (upIndex <? len) then
    x ← element sortedByEnergy (Z.to_nat upIndex);
    _ ← push result x; mret (upIndex + 1, downIndex)
  else if 0 <=? downIndex then
    x ← element sortedByEnergy (Z.to_nat downIndex);
    _ ← push result x; mret (upIndex, downIndex - 1)
  else if upIndex <? len then
    x ← element sortedByEnergy (Z.to_nat upIndex);
    _ ← push result x; mret (upIndex + 1, downIndex)
  else mret (upIndex, downIndex).

Fixpoint energyLoop (fuel total : nat) (sortedByEnergy result : nat)
    (upIndex downIndex : Z) (goingUp : bool) : M nat :=
  r ← readArray result;
  if (length r <? total)%nat then
    match fuel with
    | O => fail
    | S fuel' =>
        moved ← energyMove sortedByEnergy result upIndex downIndex goingUp;
        r1 ← readArray result;
        let goingUp1 :=
          if goingUp && Qltb (inject_Z (Z.of_nat total) * (7 # 10))
                             (inject_Z (Z.of_nat (length r1)))
          then false else goingUp in
        energyLoop fuel' total sortedByEnergy result moved.1 moved.2 goingUp1
    end
  else mret result.

Definition createEnergyCurve (tracks : nat) : M nat :=
  sortedByEnergy ← spread tracks;
  _ ← sortBy (fun a b => inject_Z (energyOf a - energyOf b)) sortedByEnergy;
  result ← allocArray [];
  sorted ← readArray sortedByEnergy;
  let midpoint := Z.of_nat (length sorted) / 2 in
  x ← element sortedByEnergy (Z.to_nat midpoint);
  _ ← push result x;
  all ← readArray tracks;
  energyLoop (length all) (length all) sortedByEnergy result (midpoint + 1) (midpoint - 1) true.

(** *** minimizeBpmJumps and harmonicMixing *)

(** The loop shared by the two greedy orderings: [choose lastTrack remaining]
    is the [forEach] that selects [bestMatch]. *)
Fixpoint greedyLoop (choose : Track -> list Track -> nat) (fuel : nat)
    (result remaining : nat) : M nat :=
  rem ← readArray remaining;
  match rem with
  | [] => mret result
  | _ :: _ =>
      match fuel with
      | O => fail
      | S fuel' =>
          placed ← tracksOf result;
          candidates ← readObjects rem;
          match last placed with
          | Some lastTrack =>
              let bestMatch := choose lastTrack candidates in
              x ← element remaining bestMatch;
              _ ← push result x;
              _ ← splice1 remaining bestMatch;
              greedyLoop choose fuel' result remaining
          | None => fail
          end
      end
  end.

Definition minimizeBpmJumps (tracks : nat) : M nat :=
  sortedByBpm ← spread tracks;
  _ ← sortBy (fun a b => (default 0 (t_bpm a) - default 0 (t_bpm b))%Q) sortedByBpm;
  first ← element sortedByBpm 0;
  result ← allocArray [first];
  remaining ← slice sortedByBpm 1;
  all ← readArray tracks;
  greedyLoop (fun lastTrack candidates => closestBpm lastTrack candidates 0 None 0)
             (length all) result remaining.

Definition harmonicMixing (tracks : nat) : M nat :=
  tracksWithKeys ← filterBy (fun t => hasKey t = true) tracks;
  withKeys ← readArray tracksWithKeys;
  all ← readArray tracks;
  if Qltb (inject_Z (Z.of_nat (length withKeys))) (inject_Z (Z.of_nat (length all)) * (5 # 10))
  then mret tracks
  else
    first ← element tracksWithKeys 0;
    result ← allocArray [first];
    remaining ← slice tracksWithKeys 1;
    ordered ←
      greedyLoop (fun lastTrack candidates => bestHarmonic lastTrack candidates 0 (-1) 0)
                 (length all) result remaining;
    missingTracks ← filterBy (fun t => hasKey t = false) tracks;
    keyed ← readArray ordered;
    missing ← readArray missingTracks;
    allocArray (keyed ++ missing).

(** *** calculateMixOrder *)

(** [[...analyzedTracks].map(track => ({...track, ...}))]: a new array of
    new objects. *)
Fixpoint copyScored (l : list nat) : M (list nat) :=
  match l with
  | [] => mret []
  | o :: rest =>
      ts ← readObjects [o];
      match ts with
      | [track] =>
          o' ← allocObject (scored track);
          rest' ← copyScored rest;
          mret (o' :: rest')
      | _ => fail
      end
  end.

(** The inner [forEach] of the placement loop, on references paired with
    the objects they point to; [bestTrack] is a reference. *)
Fixpoint pickBestRef (scores : gmap string (list Z)) (usedTracks : list id) (position : nat)
    (tracks : list (nat * Track)) (bestScore : Z) (bestTrack : option (nat * Track))
    : option (nat * Track) :=
  match tracks with
  | [] => bestTrack
  | track :: rest =>
      match scoreAt scores track.2 position with
      | Some score =>
          if negb (bool_decide (t_id track.2 ∈ usedTracks)) && (bestScore <? score)
          then pickBestRef scores usedTracks position rest score (Some track)
          else pickBestRef scores usedTracks position rest bestScore bestTrack
      | None => pickBestRef scores usedTracks position rest bestScore bestTrack
      end
  end.

Fixpoint place (scores : gmap string (list Z)) (tracks : list (nat * Track))
    (position n : nat) (result : nat) (usedTracks : list id) : M (list id) :=
  match n with
  | O => mret usedTracks
  | S n' =>
      match pickBestRef scores usedTracks position tracks (-1) None with
      | Some bestTrack =>
          _ ← push result bestTrack.1;
          place scores tracks (S position) n' result (usedTracks ++ [t_id bestTrack.2])
      | None => place scores tracks (S position) n' result usedTracks
      end
  end.

(** [tracks.forEach(track => { if (!usedTracks.has(track.id)) result.push(track) })] *)
Fixpoint pushUnused (tracks : list (nat * Track)) (usedTracks : list id) (result : nat)
    : M unit :=
  match tracks with
  | [] => mret tt
  | track :: rest =>
      if bool_decide (t_id track.2 ∈ usedTracks) then pushUnused rest usedTracks result
      else _ ← push result track.1; pushUnused rest usedTracks result
  end.

Definition calculateMixOrder (analyzedTracks : nat) : M nat :=
  input ← readArray analyzedTracks;
  if (length input <? 3)%nat then
    copy ← spread analyzedTracks;
    _ ← sortBy (fun a b => (orQ (t_bpm a) 120 - orQ (t_bpm b) 120)%Q) copy;
    mret copy
  else
    analyzed ← readObjects input;
    let hasAdvancedAnalysis :=
      existsb (fun t => bool_decide (is_Some (t_advancedAnalysis t))) analyzed in
    copy ← spread analyzedTracks;
    copied ← readArray copy;
    scoredRefs ← copyScored copied;
    tracks ← allocArray scoredRefs;
    energyOrdered ← createEnergyCurve tracks;
    bpmOrdered ← minimizeBpmJumps tracks;
    harmonicOrdered ← (if hasAdvancedAnalysis then harmonicMixing tracks else mret tracks);
    finalOrder ← spread tracks;
    trackList ← tracksOf tracks;
    byEnergy ← tracksOf energyOrdered;
    byBpm ← tracksOf bpmOrdered;
    byKey ← tracksOf harmonicOrdered;
    let scores :=
      fold_left (scoreTrack (length trackList) byEnergy byBpm byKey hasAdvancedAnalysis)
                trackList ∅ in
    result ← allocArray [];
    usedTracks ← place scores (zip scoredRefs trackList) 0 (length trackList) result [];
    _ ← pushUnused (zip scoredRefs trackList) usedTracks result;
    mret result.

(** The tracks an array holds, read through the store. *)
Definition view (h : heap) (a : nat) : option (list Track) :=
  arrays h !! a ≫= deref (objects h).

(** [points objs l ts]: the references [l] point to the objects [ts]. *)
Definition points (objs : list Track) (l : list nat) (ts : list Track) : Prop :=
  Forall2 (fun o t => objs !! o = Some t) l ts.

(** Array [a] holds references to the tracks [ts]. *)
Definition views (h : heap) (a : nat) (ts : list Track) : Prop :=
  exists l, arrays h !! a = Some l /\ points (objects h) l ts.

(** [keeps n h h']: the arrays below [n] have the same elements in [h'] as
    in [h], no array has disappeared, and the objects of [h] are unchanged
    in [h'] (new ones may follow them). *)
Definition keeps (n : nat) (h h' : heap) : Prop :=
  (forall b, (b < n)%nat -> arrays h' !! b = arrays h !! b) /\
  (length (arrays h) <= length (arrays h'))%nat /\
  objects h `prefix_of` objects h'.

(** [touches a b h h']: [h'] differs from [h] at most in the elements of
    the arrays [a] and [b]. *)
Definition touches (a b : nat) (h h' : heap) : Prop :=
  objects h' = objects h /\
  length (arrays h') = length (arrays h) /\
  (forall c, c <> a -> c <> b -> arrays h' !! c = arrays h !! c).

End Store.

(** ** The browser-side player: class AudioMixer

    The DOM (buttons, sliders, progress bar, track list) is not part of the
    playback state and is left out; so are the visualizer and the stream
    URLs.  Gains and times are real numbers, tempo ratios are rationals. *)

Module Mixer.

Local Open Scope R_scope.

(** An event on an [AudioParam] timeline. *)
Inductive AutomationEvent : Type :=
| setValueAtTime (v t : R)
| linearRampToValueAtTime (v t : R).

(** An [AudioParam]: the [value] attribute and the scheduled events, oldest
    first.  Nothing in the class calls [cancelScheduledValues]. *)
Record AudioParam : Type := {
  value : R;
  events : list AutomationEvent
}.

Definition setValue (v : R) (p : AudioParam) : AudioParam :=
  {| value := v; events := events p |}.

Definition schedule (e : AutomationEvent) (p : AudioParam) : AudioParam :=
  {| value := value p; events := (events p ++ [e])%list |}.

(** An [Audio] element. *)
Record AudioElement : Type := {
  paused : bool;
  currentTime : Q;          (* seconds *)
  playbackRate : Q
}.

(** What a pending [setTimeout]/[setInterval] will run. *)
Inductive Callback : Type :=
| TransitionEnd (currentIndex nextIndex : nat)
    (* the closure at the end of [startAdvancedTransition] *)
| TempoReturnStart (nextIndex : nat) (tempoRatio transitionDuration : Q)
    (* the [setTimeout] of [prepareBeatsyncTransition] *)
| TempoReturnTick (nextIndex : nat) (startValue : Q) (step : nat) (interval : Q).
    (* the [setInterval] it starts; [step] is the closure variable *)

Record Timer : Type := {
  delay : Q;                (* milliseconds *)
  callback : Callback
}.

(** The fields of the class that playback depends on.  The per-track
    arrays are parallel, as in the source; [tempoAdjustments] may get holes
    ([None]) when it is assigned past its end. *)
Record State : Type := {
  tracks : list Track;
  transitions : list Transition;
  currentTrackIndex : nat;
  contextTime : R;                           (* audioContext.currentTime *)
  gainNodes : list AudioParam;               (* gainNodes[i].gain *)
  audioElements : list AudioElement;
  lowEQ : list AudioParam;                   (* filters.lowEQ[i].gain *)
  midEQ : list AudioParam;
  highEQ : list AudioParam;
  soundTouchProcessors : list bool;          (* true: a processor object; all are null *)
  tempoAdjustments : list (option Q);
  isPlaying : bool;
  isCrossfading : bool;
  defaultTransitionTime : Q;
  beatmatchingEnabled : bool;
  autoHarmonicMixing : bool;
  timers : list Timer
}.

Definition with_currentTrackIndex (v : nat) (s : State) : State :=
  {| tracks := tracks s; transitions := transitions s; currentTrackIndex := v;
     contextTime := contextTime s; gainNodes := gainNodes s;
     audioElements := audioElements s; lowEQ := lowEQ s; midEQ := midEQ s;
     highEQ := highEQ s; soundTouchProcessors := soundTouchProcessors s;
     tempoAdjustments := tempoAdjustments s; isPlaying := isPlaying s;
     isCrossfading := isCrossfading s; defaultTransitionTime := defaultTransitionTime s;
     beatmatchingEnabled := beatmatchingEnabled s;
     autoHarmonicMixing := autoHarmonicMixing s; timers := timers s |}.

Definition with_gainNodes (v : list AudioParam) (s : State) : State :=
  {| tracks := tracks s; transitions := transitions s;
     currentTrackIndex := currentTrackIndex s;
     contextTime := contextTime s; gainNodes := v;
     audioElements := audioElements s; lowEQ := lowEQ s; midEQ := midEQ s;
     highEQ := highEQ s; soundTouchProcessors := soundTouchProcessors s;
     tempoAdjustments := tempoAdjustments s; isPlaying := isPlaying s;
     isCrossfading := isCrossfading s; defaultTransitionTime := defaultTransitionTime s;
     beatmatchingEnabled := beatmatchingEnabled s;
     autoHarmonicMixing := autoHarmonicMixing s; timers := timers s |}.

Definition with_audioElements (v : list AudioElement) (s : State) : State :=
  {| tracks := tracks s; transitions := transitions s;
     currentTrackIndex := currentTrackIndex s;
     contextTime := contextTime s; gainNodes := gainNodes s;
     audioElements := v; lowEQ := lowEQ s; midEQ := midEQ s;
     highEQ := highEQ s; soundTouchProcessors := soundTouchProcessors s;
     tempoAdjustments := tempoAdjustments s; isPlaying := isPlaying s;
     isCrossfading := isCrossfading s; defaultTransitionTime := defaultTransitionTime s;
     beatmatchingEnabled := beatmatchingEnabled s;
     autoHarmonicMixing := autoHarmonicMixing s; timers := timers s |}.

Definition with_lowEQ (v : list AudioParam) (s : State) : State :=
  {| tracks := tracks s; transitions := transitions s;
     currentTrackIndex := currentTrackIndex s;
     contextTime := contextTime s; gainNodes := gainNodes s;
     audioElements := audioElements s; lowEQ := v; midEQ := midEQ s;
     highEQ := highEQ s; soundTouchProcessors := soundTouchProcessors s;
     tempoAdjustments := tempoAdjustments s; isPlaying := isPlaying s;
     isCrossfading := isCrossfading s; defaultTransitionTime := defaultTransitionTime s;
     beatmatchingEnabled := beatmatchingEnabled s;
     autoHarmonicMixing := autoHarmonicMixing s; timers := timers s |}.

Definition with_midEQ (v : list AudioParam) (s : State) : State :=
  {| tracks := tracks s; transitions := transitions s;
     currentTrackIndex := currentTrackIndex s;
     contextTime := contextTime s; gainNodes := gainNodes s;
     audioElements := audioElements s; lowEQ := lowEQ s; midEQ := v;
     highEQ := highEQ s; soundTouchProcessors := soundTouchProcessors s;
     tempoAdjustments := tempoAdjustments s; isPlaying := isPlaying s;
     isCrossfading := isCrossfading s; defaultTransitionTime := defaultTransitionTime s;
     beatmatchingEnabled := beatmatchingEnabled s;
     autoHarmonicMixing := autoHarmonicMixing s; timers := timers s |}.

Definition with_highEQ (v : list AudioParam) (s : State) : State :=
  {| tracks := tracks s; transitions := transitions s;
     currentTrackIndex := currentTrackIndex s;
     contextTime := contextTime s; gainNodes := gainNodes s;
     audioElements := audioElements s; lowEQ := lowEQ s; midEQ := midEQ s;
     highEQ := v; soundTouchProcessors := soundTouchProcessors s;
     tempoAdjustments := tempoAdjustments s; isPlaying := isPlaying s;
     isCrossfading := isCrossfading s; defaultTransitionTime := defaultTransitionTime s;
     beatmatchingEnabled := beatmatchingEnabled s;
     autoHarmonicMixing := autoHarmonicMixing s; timers := timers s |}.

Definition with_tempoAdjustments (v : list (option Q)) (s : State) : State :=
  {| tracks := tracks s; transitions := transitions s;
     currentTrackIndex := currentTrackIndex s;
     contextTime := contextTime s; gainNodes := gainNodes s;
     audioElements := audioElements s; lowEQ := lowEQ s; midEQ := midEQ s;
     highEQ := highEQ s; soundTouchProcessors := soundTouchProcessors s;
     tempoAdjustments := v; isPlaying := isPlaying s;
     isCrossfading := isCrossfading s; defaultTransitionTime := defaultTransitionTime s;
     beatmatchingEnabled := beatmatchingEnabled s;
     autoHarmonicMixing := autoHarmonicMixing s; timers := timers s |}.

Definition with_isCrossfading (v : bool) (s : State) : State :=
  {| tracks := tracks s; transitions := transitions s;
     currentTrackIndex := currentTrackIndex s;
     contextTime := contextTime s; gainNodes := gainNodes s;
     audioElements := audioElements s; lowEQ := lowEQ s; midEQ := midEQ s;
     highEQ := highEQ s; soundTouchProcessors := soundTouchProcessors s;
     tempoAdjustments := tempoAdjustments s; isPlaying := isPlaying s;
     isCrossfading := v; defaultTransitionTime := defaultTransitionTime s;
     beatmatchingEnabled := beatmatchingEnabled s;
     autoHarmonicMixing := autoHarmonicMixing s; timers := timers s |}.

Definition with_isPlaying (v : bool) (s : State) : State :=
  {| tracks := tracks s; transitions := transitions s;
     currentTrackIndex := currentTrackIndex s;
     contextTime := contextTime s; gainNodes := gainNodes s;
     audioElements := audioElements s; lowEQ := lowEQ s; midEQ := midEQ s;
     highEQ := highEQ s; soundTouchProcessors := soundTouchProcessors s;
     tempoAdjustments := tempoAdjustments s; isPlaying := v;
     isCrossfading := isCrossfading s; defaultTransitionTime := defaultTransitionTime s;
     beatmatchingEnabled := beatmatchingEnabled s;
     autoHarmonicMixing := autoHarmonicMixing s; timers := timers s |}.

Definition with_timers (v : list Timer) (s : State) : State :=
  {| tracks := tracks s; transitions := transitions s;
     currentTrackIndex := currentTrackIndex s;
     contextTime := contextTime s; gainNodes := gainNodes s;
     audioElements := audioElements s; lowEQ := lowEQ s; midEQ := midEQ s;
     highEQ := highEQ s; soundTouchProcessors := soundTouchProcessors s;
     tempoAdjustments := tempoAdjustments s; isPlaying := isPlaying s;
     isCrossfading := isCrossfading s; defaultTransitionTime := defaultTransitionTime s;
     beatmatchingEnabled := beatmatchingEnabled s;
     autoHarmonicMixing := autoHarmonicMixing s; timers := v |}.

(** A method: it returns the new state or throws. *)
Definition method : Type := State -> outcome State.

Definition andThen (f g : method) : method := fun s => bind (f s) g.
Infix ">>" := andThen (at level 61, left associativity).

Definition done_ : method := fun s => Return s.

(** [array[i].property = ...] or [array[i].method(...)]: a TypeError when
    [array[i]] is [undefined]. *)
Definition at_index {A} (l : list A) (i : nat) (f : A -> A) : outcome (list A) :=
  match l !! i with
  | Some x => Return (<[i := f x]> l)
  | None => Throw TypeError_undefined_access
  end.

(** [array[i] = v]: past the end the array grows, with holes. *)
Definition assign {A} (l : list (option A)) (i : nat) (v : option A) : list (option A) :=
  if (i <? length l)%nat then <[i := v]> l
  else (l ++ replicate (i - length l) None ++ [v])%list.

Definition onGain (i : nat) (f : AudioParam -> AudioParam) : method := fun s =>
  bind (at_index (gainNodes s) i f) (fun l => Return (with_gainNodes l s)).
Definition onLowEQ (i : nat) (f : AudioParam -> AudioParam) : method := fun s =>
  bind (at_index (lowEQ s) i f) (fun l => Return (with_lowEQ l s)).
Definition onMidEQ (i : nat) (f : AudioParam -> AudioParam) : method := fun s =>
  bind (at_index (midEQ s) i f) (fun l => Return (with_midEQ l s)).
Definition onHighEQ (i : nat) (f : AudioParam -> AudioParam) : method := fun s =>
  bind (at_index (highEQ s) i f) (fun l => Return (with_highEQ l s)).
Definition onAudio (i : nat) (f : AudioElement -> AudioElement) : method := fun s =>
  bind (at_index (audioElements s) i f) (fun l => Return (with_audioElements l s)).
Definition setTempoAdjustment (i : nat) (v : option Q) : method := fun s =>
  Return (with_tempoAdjustments (assign (tempoAdjustments s) i v) s).
Definition setTimeout (cb : Callback) (ms : Q) : method := fun s =>
  Return (with_timers (timers s ++ [{| delay := ms; callback := cb |}])%list s).

Definition play_element (a : AudioElement) : AudioElement :=
  {| paused := false; currentTime := currentTime a; playbackRate := playbackRate a |}.
Definition pause_element (a : AudioElement) : AudioElement :=
  {| paused := true; currentTime := currentTime a; playbackRate := playbackRate a |}.
Definition rewind_element (a : AudioElement) : AudioElement :=
  {| paused := paused a; currentTime := 0%Q; playbackRate := playbackRate a |}.
Definition rate_element (r : Q) (a : AudioElement) : AudioElement :=
  {| paused := paused a; currentTime := currentTime a; playbackRate := r |}.

(** [audioElements[i].playbackRate = r]: the attribute rejects [undefined]. *)
Definition setPlaybackRate (i : nat) (r : option Q) : method :=
  match r with
  | Some q => onAudio i (rate_element q)
  | None => fun s =>
      match audioElements s !! i with
      | Some _ => Throw (Error_message "playbackRate: non-finite value")
      | None => Throw TypeError_undefined_access
      end
  end.

(** *** Construction *)

Definition newAudio : AudioElement :=
  {| paused := true; currentTime := 0%Q; playbackRate := 1%Q |}.

Definition newParam (v : R) : AudioParam := {| value := v; events := [] |}.

(** [new AudioMixer().initialize(mixData)]: the constructor's settings and
    the per-track nodes of [createAudioElements]; only the first track's
    gain starts at 1.  [time] is the context's clock. *)
Definition initialize (mixTracks : list Track) (mixTransitions : list Transition)
    (time : R) : State :=
  {| tracks := mixTracks;
     transitions := mixTransitions;
     currentTrackIndex := 0;
     contextTime := time;
     gainNodes := imap (fun index _ => newParam (if (index =? 0)%nat then 1 else 0)) mixTracks;
     audioElements := (fun _ => newAudio) <$> mixTracks;
     lowEQ := (fun _ => newParam 0) <$> mixTracks;
     midEQ := (fun _ => newParam 0) <$> mixTracks;
     highEQ := (fun _ => newParam 0) <$> mixTracks;
     soundTouchProcessors := (fun _ => false) <$> mixTracks;
     tempoAdjustments := (fun _ => Some 1%Q) <$> mixTracks;
     isPlaying := false;
     isCrossfading := false;
     defaultTransitionTime := 5000%Q;
     beatmatchingEnabled := true;
     autoHarmonicMixing := true;
     timers := [] |}.

(** *** Track effects and skipping *)

Definition resetTrackEffects (index : nat) : method :=
  onLowEQ index (setValue 0) >>
  onMidEQ index (setValue 0) >>
  onHighEQ index (setValue 0) >>
  onAudio index (rate_element 1) >>
  setTempoAdjustment index (Some 1%Q) >>
  onGain index (setValue 0).

Definition adjustTempo (tempoRatio : option Q) : method := fun s =>
  let index := currentTrackIndex s in
  (setTempoAdjustment index tempoRatio >>
   (if default false (soundTouchProcessors s !! index) then done_
    else setPlaybackRate index tempoRatio)) s.

(** [this.tempoAdjustments[i]], [undefined] for a hole or past the end. *)
Definition tempoAdjustmentAt (s : State) (i : nat) : option Q :=
  mjoin (tempoAdjustments s !! i).

(** [x !== 1.0] *)
Definition notOne (x : option Q) : bool :=
  match x with
  | Some q => negb (Qeq_bool q 1)
  | None => true
  end.

(** [play()] *)
Definition play : method := fun s =>
  let index := currentTrackIndex s in
  ((fun s0 => Return (with_isPlaying true s0)) >>
   onAudio index play_element >>
   (fun s1 =>
      if notOne (tempoAdjustmentAt s1 index)
      then adjustTempo (tempoAdjustmentAt s1 index) s1
      else Return s1)) s.

(** Playback of track [index] reaching [seconds]: the browser moves
    [audioElements[index].currentTime]. *)
Definition seek_element (seconds : Q) (a : AudioElement) : AudioElement :=
  {| paused := paused a; currentTime := seconds; playbackRate := playbackRate a |}.
Definition elapse (index : nat) (seconds : Q) : method := onAudio index (seek_element seconds).

Definition nextTrack : method := fun s =>
  if (length (tracks s) <=? 1)%nat then Return s
  else
    let currentIndex := currentTrackIndex s in
    let nextIndex := ((currentIndex + 1) mod length (tracks s))%nat in
    (onAudio currentIndex pause_element >>
     onGain currentIndex (setValue 0) >>
     resetTrackEffects currentIndex >>
     onAudio nextIndex rewind_element >>
     onGain nextIndex (setValue 1) >>
     (fun s1 => Return (with_currentTrackIndex nextIndex s1)) >>
     (fun s1 =>
        if isPlaying s1 then
          (onAudio nextIndex play_element >>
           (fun s2 =>
              if notOne (tempoAdjustmentAt s2 nextIndex)
              then adjustTempo (tempoAdjustmentAt s2 nextIndex) s2
              else Return s2)) s1
        else Return s1)) s.

(** *** Transitions *)

Definition equalPowerStep (fromIndex toIndex : nat) (startTime duration : R) (i : nat)
    : method :=
  let time := startTime + (INR i / 100) * duration in
  let fadeOutGain := cos ((INR i / 100) * PI / 2) in
  let fadeInGain := sin ((INR i / 100) * PI / 2) in
  onGain fromIndex (schedule (linearRampToValueAtTime fadeOutGain time)) >>
  onGain toIndex (schedule (linearRampToValueAtTime fadeInGain time)).

Definition equalPowerCrossfade (fromIndex toIndex : nat) (startTime endTime : R) : method :=
  let duration := endTime - startTime in
  onGain fromIndex (schedule (setValueAtTime 1 startTime)) >>
  onGain toIndex (schedule (setValueAtTime 0 startTime)) >>
  fold_left (fun m i => m >> equalPowerStep fromIndex toIndex startTime duration i)
            (List.seq 0 101) done_.

Definition linearCrossfade (fromIndex toIndex : nat) (startTime endTime : R) : method :=
  onGain fromIndex (schedule (setValueAtTime 1 startTime)) >>
  onGain toIndex (schedule (setValueAtTime 0 startTime)) >>
  onGain fromIndex (schedule (linearRampToValueAtTime 0 endTime)) >>
  onGain toIndex (schedule (linearRampToValueAtTime 1 endTime)).

Definition cutEQTransition (fromIndex toIndex : nat) (startTime duration : R) : method :=
  onHighEQ fromIndex (schedule (setValueAtTime 0 startTime)) >>
  onHighEQ fromIndex (schedule (linearRampToValueAtTime (-12) (startTime + duration * (25 / 100)))) >>
  onMidEQ fromIndex (schedule (setValueAtTime 0 startTime)) >>
  onMidEQ fromIndex (schedule (linearRampToValueAtTime (-9) (startTime + duration * (5 / 10)))) >>
  onGain toIndex (schedule (setValueAtTime 0 startTime)) >>
  onGain toIndex (schedule (linearRampToValueAtTime (7 / 10) (startTime + duration * (5 / 10)))) >>
  onGain toIndex (schedule (linearRampToValueAtTime 1 (startTime + duration))) >>
  onLowEQ fromIndex (schedule (setValueAtTime 0 (startTime + duration * (5 / 10)))) >>
  onLowEQ fromIndex (schedule (linearRampToValueAtTime (-12) (startTime + duration * (75 / 100)))) >>
  onGain fromIndex (schedule (setValueAtTime 1 (startTime + duration * (5 / 10)))) >>
  onGain fromIndex (schedule (linearRampToValueAtTime 0 (startTime + duration))).

(** The [switch] on the transition type: only 'beatmatch_blend' and
    'beatmatch' select the equal-power curve. *)
Definition performVolumeTransition (type : transition_type) (duration : Q)
    (fromIndex toIndex : nat) : method := fun s =>
  let startTime := contextTime s in
  let endTime := startTime + Q2R duration / 1000 in
  match type with
  | beatmatch_blend | beatmatch =>
      equalPowerCrossfade fromIndex toIndex startTime endTime s
  | cut_eq =>
      cutEQTransition fromIndex toIndex startTime (Q2R duration / 1000) s
  | long_fade =>
      linearCrossfade fromIndex toIndex startTime endTime s
  | _ =>
      linearCrossfade fromIndex toIndex startTime endTime s
  end.

Definition prepareBeatsyncTransition (transition : Transition)
    (currentIndex nextIndex : nat) : method := fun s =>
  let currentBpm := orQ (tr_sourceBpm transition) 120 in
  let nextBpm := orQ (tr_targetBpm transition) 120 in
  if Qltb 2 (Qabs (nextBpm - currentBpm)) then
    let tempoRatio := (currentBpm / nextBpm)%Q in
    let duration := orQ (Some (transitionDuration transition)) (defaultTransitionTime s) in
    (setTempoAdjustment nextIndex (Some tempoRatio) >>
     setPlaybackRate nextIndex (Some tempoRatio) >>
     setTimeout (TempoReturnStart nextIndex tempoRatio duration) (duration / 2)%Q) s
  else Return s.

Definition prepareHarmonicTransition (transition : Transition)
    (currentIndex nextIndex : nat) : method :=
  match keyCompatibility transition with
  | Some clash => onMidEQ nextIndex (setValue (-3))
  | Some compatible | Some perfect => onHighEQ nextIndex (setValue 2)
  | _ => done_
  end.

(** [Math.abs(transition.bpmDifference) > 2]; false on [NaN]. *)
Definition significantBpmDifference (transition : Transition) : bool :=
  match bpmDifference transition with
  | Some d => Qltb 2 (Qabs d)
  | None => false
  end.

(** [startAdvancedTransition(transition)]: the closing [setTimeout] is left
    pending in [timers]. *)
Definition startAdvancedTransition (transition : Transition) : method := fun s =>
  match length (tracks s) with
  | O => Throw TypeError_undefined_access     (* [audioElements[NaN]] *)
  | S _ =>
      let currentIndex := currentTrackIndex s in
      let nextIndex := ((currentIndex + 1) mod length (tracks s))%nat in
      let type := transitionType transition in
      let duration := orQ (Some (transitionDuration transition)) (defaultTransitionTime s) in
      (onAudio nextIndex play_element >>
       (if beatmatchingEnabled s && significantBpmDifference transition
        then prepareBeatsyncTransition transition currentIndex nextIndex else done_) >>
       (if autoHarmonicMixing s && bool_decide (is_Some (keyCompatibility transition))
        then prepareHarmonicTransition transition currentIndex nextIndex else done_) >>
       performVolumeTransition type duration currentIndex nextIndex >>
       setTimeout (TransitionEnd currentIndex nextIndex) duration) s
  end.

(** The 'timeupdate' listener of the audio element of track [index]. *)
Definition onTimeUpdate (index : nat) : method := fun s =>
  if negb (index =? currentTrackIndex s)%nat then Return s
  else
    match tracks s !! index, audioElements s !! index with
    | Some track, Some audio =>
        match List.find (fun t => bool_decide (fromTrack t = t_id track)) (transitions s) with
        | Some transition =>
            if negb (isCrossfading s) then
              let now := (currentTime audio * 1000)%Q in
              match transitionPoint transition with
              | Some point =>
                  if Qle_bool point now && Qltb now (point + 500)
                  then startAdvancedTransition transition (with_isCrossfading true s)
                  else Return s
              | None => Return s
              end
            else Return s
        | None => Return s
        end
    | _, _ => Return s        (* no track, no listener *)
    end.

(** *** Timers *)

(** What a callback does when it runs. *)
Definition run (cb : Callback) : method :=
  match cb with
  | TransitionEnd currentIndex nextIndex =>
      onAudio currentIndex pause_element >>
      resetTrackEffects currentIndex >>
      (fun s => Return (with_isCrossfading false (with_currentTrackIndex nextIndex s)))
  | TempoReturnStart nextIndex tempoRatio transitionDuration =>
      let interval := inject_Z (Qfloor (transitionDuration / 2 / 10)) in
      setTimeout (TempoReturnTick nextIndex tempoRatio 0 interval) interval
  | TempoReturnTick nextIndex startValue step0 interval =>
      let step := S step0 in
      if (10 <=? step)%nat then
        setPlaybackRate nextIndex (Some 1%Q) >> setTempoAdjustment nextIndex (Some 1%Q)
      else
        let newRatio :=
          (startValue + (1 - startValue) * (inject_Z (Z.of_nat step) / 10))%Q in
        setPlaybackRate nextIndex (Some newRatio) >>
        setTempoAdjustment nextIndex (Some newRatio) >>
        setTimeout (TempoReturnTick nextIndex startValue step interval) interval
  end.

(** The [k]-th pending timer expires: it leaves [timers] and its callback
    runs. *)
Definition fire (k : nat) : method := fun s =>
  match timers s !! k with
  | Some t => run (callback t) (with_timers (delete k (timers s)) s)
  | None => Return s
  end.

End Mixer.

Import Mixer.

(** ** Stream analysis

    [analyzeStream] and [estimateTransitionPoints] of
    [src/audio-analyzer.js].  Decoding and [Meyda.extract] are the world's. *)

Module Streams.

(** *** analyzeStream *)

(** The [metadata] argument: an object whose [bpm] and [duration] may be
    missing. *)
Record StreamMetadata : Type := {
  sm_bpm : option Q;
  sm_duration : option Q
}.

(** The decoded buffer: [duration], [sampleRate], [numberOfChannels]. *)
Record DecodedStream : Type := {
  ds_duration : Q;
  ds_sampleRate : Q;
  ds_numberOfChannels : Q
}.

(** [Meyda.extract(['energy', 'rms', 'zcr', 'spectralCentroid'], ...)] *)
Record MeydaFeatures : Type := {
  mf_energy : Q;
  mf_rms : Q;
  mf_zcr : Q;
  mf_spectralCentroid : Q
}.

Record StreamWorld : Type := {
  sw_decodeAudioFile : outcome DecodedStream;
  sw_extract : outcome MeydaFeatures;
  sw_now : Z
}.

(** The two shapes of object [analyzeStream] returns: the one of the [try]
    block and the minimal one of the [catch] clause. *)
Inductive StreamAnalysis : Type :=
| StreamFull (format : Format) (metadata : StreamMetadata) (features : MeydaFeatures)
    (transitionPoints : list Q) (timestamp : Z)
| StreamMinimal (bpm duration transitionPoint : Q).

(** [estimateTransitionPoints(features, duration)]: the default points at
    25%, 50%, 75% and 80%. *)
Definition estimateTransitionPoints (features : MeydaFeatures) (duration : Q) : list Q :=
  [ (duration * (25 # 100))%Q; (duration * (5 # 10))%Q;
    (duration * (75 # 100))%Q; (duration * (8 # 10))%Q ].

Definition analyzeStream (w : StreamWorld) (metadata : StreamMetadata)
    : outcome StreamAnalysis :=
  match
    bind (sw_decodeAudioFile w) (fun decodedBuffer =>
    bind (sw_extract w) (fun features =>
    Return (StreamFull
              {| f_duration := Some (ds_duration decodedBuffer);
                 f_sampleRate := Some (ds_sampleRate decodedBuffer);
                 f_channels := Some (ds_numberOfChannels decodedBuffer) |}
              metadata features
              (estimateTransitionPoints features (ds_duration decodedBuffer))
              (sw_now w))))
  with
  | Return analysis => Return analysis
  | Throw error =>
      Return (StreamMinimal
                (orQ (sm_bpm metadata) 120)
                (orQ (sm_duration metadata) 180000)
                match sm_duration metadata with
                | Some duration =>
                    if Qeq_bool duration 0 then 140000
                    else inject_Z (Qfloor (duration * (8 # 10)))
                | None => 140000
                end)
  end.

End Streams.
Import Streams.

(** ** Player controls

    The remaining controls of the [AudioMixer] class and the events a
    player receives. *)

Module Controls.

(** [pause()] *)
Definition pause : method := fun s =>
  onAudio (currentTrackIndex s) pause_element (with_isPlaying false s).

(** [togglePlayPause()] *)
Definition togglePlayPause : method := fun s =>
  if isPlaying s then pause s else play s.

(** [adjustEQ(band, gain)]: the [switch] has no default case. *)
Definition adjustEQ (band : string) (gain : R) : method := fun s =>
  let index := currentTrackIndex s in
  if String.eqb band "low" then onLowEQ index (setValue gain) s
  else if String.eqb band "mid" then onMidEQ index (setValue gain) s
  else if String.eqb band "high" then onHighEQ index (setValue gain) s
  else Return s.

(** [previousTrack()]; [(currentIndex - 1 + length) % length] is computed on
    integers, with [length >= 2]. *)
Definition previousTrack : method := fun s =>
  if (length (tracks s) <=? 1)%nat then Return s
  else
    match audioElements s !! currentTrackIndex s with
    | None => Throw TypeError_undefined_access
    | Some audio =>
        if Qltb 3 (currentTime audio)
        then onAudio (currentTrackIndex s) rewind_element s
        else
          let currentIndex := currentTrackIndex s in
          let prevIndex :=
            ((currentIndex + length (tracks s) - 1) mod length (tracks s))%nat in
          (onAudio currentIndex pause_element >>
           onGain currentIndex (setValue 0) >>
           resetTrackEffects currentIndex >>
           onAudio prevIndex rewind_element >>
           onGain prevIndex (setValue 1) >>
           (fun s1 => Return (with_currentTrackIndex prevIndex s1)) >>
           (fun s1 =>
              if isPlaying s1 then
                (onAudio prevIndex play_element >>
                 (fun s2 =>
                    if notOne (tempoAdjustmentAt s2 prevIndex)
                    then adjustTempo (tempoAdjustmentAt s2 prevIndex) s2
                    else Return s2)) s1
              else Return s1)) s
    end.

(** The 'ended' listener of the audio element of track [index]. *)
Definition onEnded (index : nat) : method := fun s =>
  if (currentTrackIndex s =? index)%nat then nextTrack s else Return s.

(** What can happen to a player: the three buttons, the sliders, the events
    of the audio elements, playback moving on, and timers expiring. *)
Inductive Action : Type :=
| PressPlayPause
| PressNext
| PressPrevious
| MoveEQ (band : string) (gain : R)
| MoveTempo (tempoPercent : Z)
| TimeUpdate (index : nat)
| Ended (index : nat)
| Playback (index : nat) (seconds : Q)
| TimerExpires (k : nat).

Definition perform (a : Action) : method :=
  match a with
  | PressPlayPause => togglePlayPause
  | PressNext => nextTrack
  | PressPrevious => previousTrack
  | MoveEQ band gain => adjustEQ band gain
  | MoveTempo tempoPercent => adjustTempo (Some (inject_Z tempoPercent / 100)%Q)
  | TimeUpdate index => onTimeUpdate index
  | Ended index => onEnded index
  | Playback index seconds => fun s =>
      if (index <? length (audioElements s))%nat then elapse index seconds s else Return s
  | TimerExpires k => fire k
  end.

Fixpoint performAll (actions : list Action) : method :=
  match actions with
  | [] => done_
  | a :: rest => perform a >> performAll rest
  end.

End Controls.
Import Controls.

(** ** Display *)

Module Display.

(** [String(n)] of an integer below 1e21 in absolute value, for which
    JavaScript prints every digit. *)
Definition numberToString (n : Z) : string := pretty n.

Fixpoint repeatChar (n : nat) (c : ascii) : string :=
  match n with
  | O => EmptyString
  | S n' => String c (repeatChar n' c)
  end.

(** [s.padStart(targetLength, c)] for a one-character pad string. *)
Definition padStart (targetLength : nat) (c : ascii) (s : string) : string :=
  repeatChar (targetLength - String.length s) c +:+ s.

(** [formatDuration(ms)]; [None] is [undefined] or [NaN]. *)
Definition formatDuration (ms : option Q) : string :=
  match ms with
  | None => "Unknown"
  | Some x =>
      if Qeq_bool x 0 then "Unknown"
      else
        let totalSeconds := Qfloor (x / 1000) in
        let minutes := totalSeconds / 60 in
        let seconds := Z.rem totalSeconds 60 in
        numberToString minutes +:+ ":" +:+ padStart 2 "0" (numberToString seconds)
  end.

End Display.
Import Display.

(** ** The complete mix

    [generateMix] of [src/upload-routes.js]. *)

Module Generator.

(** The object [generateMix] returns. *)
Record Mix : Type := {
  mix_tracks : list Track;
  mix_transitions : list Transition;
  mix_totalDuration : Q;
  mix_hasAdvancedAnalysis : bool
}.

(** [await Promise.all(trackIds.map(id => new Promise(...)))]: one promise
    per id, rejected when [SC.get] calls back with an error or throws; the
    whole rejects with the first rejection, taken here in array order.  The
    [err] of the callback is opaque: [Error_message "SC.get"] stands for
    it. *)
Fixpoint fetchTrackDetails (W : World) (trackIds : list id) : outcome (list Track) :=
  match trackIds with
  | [] => Return []
  | id :: rest =>
      match SC_get W id with
      | ScTrack track =>
          bind (fetchTrackDetails W rest) (fun tracks => Return (track :: tracks))
      | ScError => Throw (Error_message "SC.get")
      | ScThrows e => Throw e
      end
  end.

(** [generateMix(trackIds, SC)], with [analysisCache] passed explicitly; the
    [catch] clause rethrows.  [audioAnalyzer.initialize] catches its own
    errors and only sets a flag.  [None] stands for a call that does not
    return, as for [calculateMixOrder]. *)
Definition generateMix (W : World) (trackIds : list id)
    (analysisCache : gmap string Analysis)
    : option (outcome Mix * gmap string Analysis) :=
  match fetchTrackDetails W trackIds with
  | Throw error => Some (Throw error, analysisCache)
  | Return trackDetails =>
      let '(analyzedTracks, cache1) := analyzeTracks W trackDetails analysisCache in
      orderedTracks ← calculateMixOrder analyzedTracks;
      Some (bind (generateTransitionPoints orderedTracks) (fun transitions =>
              Return {| mix_tracks := orderedTracks;
                        mix_transitions := transitions;
                        mix_totalDuration :=
                          fold_left (fun total track =>
                                       (total + orQ (t_duration track) 180000)%Q)
                                    orderedTracks 0%Q;
                        mix_hasAdvancedAnalysis :=
                          existsb (fun t => bool_decide (is_Some (t_advancedAnalysis t)))
                                  analyzedTracks |}),
            cache1)
  end.

End Generator.
Import Generator.

(** ** Sample inputs *)

Module Samples.

Definition mkTrack (n : Z) (bpm : Q) (duration : Q) : Track :=
  {| t_id := NumId n; t_title := ""; t_bpm := Some bpm; t_duration := Some duration;
     t_uploaded := false; t_filePath := None; t_analyzed := true;
     t_advancedAnalysis := None; t_energy := None; t_key := None; t_scale := None |}.

(** An analysis as [analyzeTrackFile] builds it with Essentia loaded: 48
    beats half a second apart. *)
Definition mkAnalysis (bpm : Q) (key scale : string) : Analysis :=
  {| a_duration := None;
     a_format := {| f_duration := Some (24 : Q); f_sampleRate := Some (44100 : Q);
                    f_channels := Some (2 : Q) |};
     a_metadata := {| m_title := None; m_artist := None; m_album := None; m_genre := None |};
     a_rhythm :=
       Some {| r_bpm := Some bpm;
               r_beats := Some (map (fun i => (inject_Z (Z.of_nat i) / 2)%Q) (List.seq 0 48));
               r_confidence := Some (3 : Q);
               r_key := Some key;
               r_scale := Some scale;
               r_segments := Some [];
               r_energyBands := Some [] |};
     a_timestamp := 0 |}.

Definition mkUploaded (name : string) (bpm : Q) (duration : Q) (a : Analysis) : Track :=
  {| t_id := StrId name; t_title := name; t_bpm := Some bpm; t_duration := Some duration;
     t_uploaded := true; t_filePath := Some ("uploads/" +:+ name); t_analyzed := true;
     t_advancedAnalysis := Some a; t_energy := None; t_key := None; t_scale := None |}.

Definition trackA : Track := mkUploaded "a.mp3" 120 200000 (mkAnalysis 120 "C" "major").
Definition trackB : Track := mkUploaded "b.mp3" 122 200000 (mkAnalysis 122 "C" "major").

(** A file whose audio data cannot be decoded. *)
Definition undecodable : FileWorld :=
  {| existsSync := true;
     mtimeMs := "1700000000000";
     readFileSync := Return ();
     parseBuffer :=
       Return ({| f_duration := Some (24 : Q); f_sampleRate := Some (44100 : Q);
                  f_channels := Some (2 : Q) |},
               {| m_title := None; m_artist := None; m_album := None; m_genre := None |});
     decodeAudioFile := Throw (Error_message "Unable to decode audio data");
     essentia := None;
     now := 0 |}.

Definition brokenWorld : World :=
  {| SC_get := fun _ => ScError; fileAt := fun _ => undecodable |}.

Definition brokenUpload : Track :=
  {| t_id := StrId "c.mp3"; t_title := "c"; t_bpm := None; t_duration := Some (200000 : Q);
     t_uploaded := true; t_filePath := Some "uploads/c.mp3"; t_analyzed := false;
     t_advancedAnalysis := None; t_energy := None; t_key := None; t_scale := None |}.

Definition threeTracks : list Track :=
  [mkTrack 1 120 200000; mkTrack 2 128 200000; mkTrack 3 180 200000].

(** The plan [generateTransitionPoints] builds for [threeTracks]: a 'fade'
    of 8000 ms at 160000 ms, then a 'long_fade' of 12000 ms. *)
Definition threeTransitions : list Transition :=
  [ pushed (mkTrack 1 120 200000) (mkTrack 2 128 200000)
      (fallbackTransition (mkTrack 1 120 200000) (mkTrack 2 128 200000) 200000);
    pushed (mkTrack 2 128 200000) (mkTrack 3 180 200000)
      (fallbackTransition (mkTrack 2 128 200000) (mkTrack 3 180 200000) 200000) ].

(** An analysed track in D major at 122 BPM: with [trackA] the tempo is
    'good' and the keys are 'moderate', a 'beatmatch_fade'. *)
Definition trackD : Track := mkUploaded "d.mp3" 122 200000 (mkAnalysis 122 "D" "major").

Definition loaded : State := initialize threeTracks threeTransitions 0%R.

Definition single : State := initialize [mkTrack 1 120 200000] [] 0%R.

(** A store holding the caller's array of [threeTracks], in the order 180,
    128, 120 BPM. *)
Definition callerStore : Store.heap :=
  {| Store.arrays := [[2; 1; 0]%nat]; Store.objects := threeTracks |}.

(** [loaded] is playing and its first track has reached the transition
    point: the 'timeupdate' listener starts the transition. *)
Definition inFlight : outcome State :=
  (play >> elapse 0 160 >> onTimeUpdate 0) loaded.

End Samples.

Import Samples.

(** * Invariants and derived states *)

(** The invariant of the energy-curve loop: [result] holds the tracks
    strictly between [downIndex] and [upIndex]. *)
Definition energyInv (sorted : list Track) (st : list Track * Z * Z * bool) : Prop :=
  let '(result, upIndex, downIndex, _) := st in
  -1 <= downIndex /\ downIndex < upIndex /\ upIndex <= Z.of_nat (length sorted) /\
  Z.of_nat (length result) = upIndex - downIndex - 1.

(** The state [createAudioElements] establishes and every method keeps: one
    node of each kind per track, no hole in [tempoAdjustments], and a
    current index inside the mix. *)
Definition wellFormed (s : State) : Prop :=
  let n := length (tracks s) in
  length (gainNodes s) = n /\ length (audioElements s) = n /\
  length (lowEQ s) = n /\ length (midEQ s) = n /\ length (highEQ s) = n /\
  length (tempoAdjustments s) = n /\
  Forall (fun a => is_Some a) (tempoAdjustments s) /\
  (currentTrackIndex s < n)%nat.

(** What [resetTrackEffects] leaves behind. *)
Definition resetState (index : nat) (s : State) : State :=
  with_gainNodes (alter (setValue 0) index (gainNodes s))
    (with_tempoAdjustments (<[index := Some 1%Q]> (tempoAdjustments s))
      (with_audioElements (alter (rate_element 1) index (audioElements s))
        (with_highEQ (alter (setValue 0) index (highEQ s))
          (with_midEQ (alter (setValue 0) index (midEQ s))
            (with_lowEQ (alter (setValue 0) index (lowEQ s)) s))))).

(** Two states with the same pending timers and the same scheduled
    automation on every gain and EQ parameter. *)
Definition sameSchedule (s s' : State) : Prop :=
  timers s' = timers s /\
  events <$> gainNodes s' = events <$> gainNodes s /\
  events <$> lowEQ s' = events <$> lowEQ s /\
  events <$> midEQ s' = events <$> midEQ s /\
  events <$> highEQ s' = events <$> highEQ s.

Definition keepsSchedule (m : method) : Prop :=
  forall s s', m s = Return s' -> sameSchedule s s'.

(** The equal-power ramps of the outgoing and the incoming chain: step [i]
    of [n] targets [cos] and [sin] of [i/100 * PI/2]. *)
Definition rampsOut (startTime duration : R) (n : nat) : list AutomationEvent :=
  (fun i => linearRampToValueAtTime (cos (INR i / 100 * PI / 2))
              (startTime + INR i / 100 * duration)%R) <$> List.seq 0 n.

Definition rampsIn (startTime duration : R) (n : nat) : list AutomationEvent :=
  (fun i => linearRampToValueAtTime (sin (INR i / 100 * PI / 2))
              (startTime + INR i / 100 * duration)%R) <$> List.seq 0 n.

Definition addEvents (evs : list AutomationEvent) (p : AudioParam) : AudioParam :=
  {| value := value p; events := events p ++ evs |}.

(** ** Orders on tracks *)

(** The BPM [minimizeBpmJumps] sorts by. *)
Definition bpmOf (t : Track) : Q := default 0%Q (t_bpm t).

(** The order of the sort in [createEnergyCurve]. *)
Definition energyLe (a b : Track) : Prop := energyOf a <= energyOf b.

(** The property name under which [trackScores] files a track. *)
Definition keyOf (t : Track) : string := idKey (t_id t).

(** [ordered[p - idx]] is a track with the id of [track]. *)
Definition votedAt (ordered : list Track) (idx : nat) (track : Track) (p : nat) : bool :=
  bool_decide ((idx <= p)%nat /\ t_id <$> ordered !! (p - idx)%nat = Some (t_id track)).

(** ** The player's invariant *)

(** A pending callback only names tracks of the mix. *)
Definition timerInRange (n : nat) (t : Timer) : Prop :=
  match callback t with
  | TransitionEnd currentIndex nextIndex => (currentIndex < n)%nat /\ (nextIndex < n)%nat
  | TempoReturnStart nextIndex _ _ => (nextIndex < n)%nat
  | TempoReturnTick nextIndex _ _ _ => (nextIndex < n)%nat
  end.

(** A well-formed player of [n] tracks whose pending callbacks only name
    tracks of the mix. *)
Definition playerInv (n : nat) (s : State) : Prop :=
  length (tracks s) = n /\ wellFormed s /\ Forall (timerInRange n) (timers s).

(** A method that, from a well-formed player, returns a well-formed player. *)
Definition safe (n : nat) (m : method) : Prop :=
  forall s, playerInv n s -> exists s', m s = Return s' /\ playerInv n s'.

(** The steps [nextTrack] and [previousTrack] share: leave [currentIndex],
    enter [targetIndex]. *)
Definition jumpTo (currentIndex targetIndex : nat) : method :=
  onAudio currentIndex pause_element >>
  onGain currentIndex (setValue 0) >>
  resetTrackEffects currentIndex >>
  onAudio targetIndex rewind_element >>
  onGain targetIndex (setValue 1) >>
  (fun s1 => Return (with_currentTrackIndex targetIndex s1)) >>
  (fun s1 =>
     if isPlaying s1 then
       (onAudio targetIndex play_element >>
        (fun s2 =>
           if notOne (tempoAdjustmentAt s2 targetIndex)
           then adjustTempo (tempoAdjustmentAt s2 targetIndex) s2
           else Return s2)) s1
     else Return s1).

(** ** Automation windows *)

(** The time an automation event is scheduled for. *)
Definition eventTime (e : AutomationEvent) : R :=
  match e with
  | setValueAtTime _ t => t
  | linearRampToValueAtTime _ t => t
  end.

(** [p'] is [p] with events added, all of them in the window [lo, hi]. *)
Definition scheduledWithin (lo hi : R) (p p' : AudioParam) : Prop :=
  value p' = value p /\
  exists new, events p' = (events p ++ new)%list /\
              Forall (fun e => (lo <= eventTime e <= hi)%R) new.

(** Every gain and EQ parameter of [s'] is the one of [s] with events
    added inside the window. *)
Definition extendsWithin (lo hi : R) (s s' : State) : Prop :=
  Forall2 (scheduledWithin lo hi) (gainNodes s) (gainNodes s') /\
  Forall2 (scheduledWithin lo hi) (lowEQ s) (lowEQ s') /\
  Forall2 (scheduledWithin lo hi) (midEQ s) (midEQ s') /\
  Forall2 (scheduledWithin lo hi) (highEQ s) (highEQ s').

(** [n] gain nodes and [n] filters of each band. *)
Definition nodesPerKind (n : nat) (s : State) : Prop :=
  length (gainNodes s) = n /\ length (lowEQ s) = n /\
  length (midEQ s) = n /\ length (highEQ s) = n.

(** A method that returns and only schedules events inside the window. *)
Definition windowed (n : nat) (lo hi : R) (m : method) : Prop :=
  forall s, nodesPerKind n s ->
    exists s', m s = Return s' /\ nodesPerKind n s' /\ extendsWithin lo hi s s'.

(** ** Printed numbers *)


(** ** A file that decodes

    [decodable] has no tags and no Essentia; [decodedAnalysis] is what
    [analyzeTrackFile] builds from it. *)

Definition decodable : FileWorld :=
  {| existsSync := true;
     mtimeMs := "1700000000000";
     readFileSync := Return ();
     parseBuffer := parseBuffer undecodable;
     decodeAudioFile := Return {| channelLength := 5000; sampleRate := 44100 |};
     essentia := None;
     now := 0 |}.

Definition decodedAnalysis : Analysis :=
  {| a_duration := None;
     a_format := {| f_duration := Some (24 : Q); f_sampleRate := Some (44100 : Q);
                    f_channels := Some (2 : Q) |};
     a_metadata := {| m_title := None; m_artist := None; m_album := None; m_genre := None |};
     a_rhythm := Some emptyRhythm;
     a_timestamp := 0 |}.

(** ** Tracks without analysis *)

(** A track as SoundCloud delivers it. *)
Definition plain (t : Track) : Prop := t_advancedAnalysis t = None.

(** A SoundCloud with every numbered track, at 120 BPM and 200 s. *)
Definition catalogue : World :=
  {| SC_get := fun i => match i with
                        | NumId n => ScTrack (mkTrack n 120 200000)
                        | StrId _ => ScError
                        end;
     fileAt := fun _ => undecodable |}.

(** * Properties *)

(** ** Key compatibility *)

Example keyToCamelot_lowercases : keyToCamelot "A" "Minor" = Some "08A".
Proof. vm_compute. reflexivity. Qed.

Example same_key_is_perfect :
  analyzeKeyCompatibility "F#" "minor" "Gb" "minor" = Return perfect.
Proof. vm_compute. reflexivity. Qed.

Example adjacent_hours_are_compatible :
  analyzeKeyCompatibility "C" "major" "G" "major" = Return compatible.
Proof. vm_compute. reflexivity. Qed.

(** Keys the wheel does not map are rated 'unknown'. *)
Lemma unmapped_source_is_unknown sk ss tk ts :
  keyToCamelot sk ss = None -> analyzeKeyCompatibility sk ss tk ts = Return unknown.
Proof. intros H. unfold analyzeKeyCompatibility. rewrite H. reflexivity. Qed.

Lemma unmapped_target_is_unknown sk ss tk ts :
  keyToCamelot tk ts = None -> analyzeKeyCompatibility sk ss tk ts = Return unknown.
Proof.
  intros H. unfold analyzeKeyCompatibility. rewrite H.
  destruct (keyToCamelot sk ss); reflexivity.
Qed.

Lemma keyToCamelot_code key scale code :
  keyToCamelot key scale = Some code -> code ∈ camelotCodes.
Proof.
  unfold keyToCamelot. intros H.
  assert (Hall : map_Forall (fun _ c => c ∈ camelotCodes) camelotMap).
  { refine (bool_decide_unpack _ _). vm_compute. reflexivity. }
  exact (Hall _ _ H).
Qed.

(** No two codes on the same hour with opposite modes are rated
    'compatible'. *)
Lemma same_hour_opposite_mode_never_compatible sk ss tk ts sc tc :
  keyToCamelot sk ss = Some sc -> keyToCamelot tk ts = Some tc ->
  hourOf sc = hourOf tc -> modeOf sc <> modeOf tc ->
  analyzeKeyCompatibility sk ss tk ts <> Return compatible.
Proof.
  intros Hs Ht. unfold analyzeKeyCompatibility. rewrite Hs, Ht.
  apply keyToCamelot_code in Hs. apply keyToCamelot_code in Ht.
  assert (Hall : Forall (fun sc => Forall (fun tc =>
            hourOf sc = hourOf tc -> modeOf sc <> modeOf tc ->
            rateCamelot sc tc <> Return compatible) camelotCodes) camelotCodes).
  { refine (bool_decide_unpack _ _). vm_compute. reflexivity. }
  rewrite Forall_forall in Hall. specialize (Hall sc Hs).
  rewrite Forall_forall in Hall. exact (Hall tc Ht).
Qed.

(** C4 -- A minor and C major sit on the same wheel position (8) with
    opposite modes, and [analyzeKeyCompatibility] rates the pair 'moderate',
    not 'compatible': the relative-key test compares the target hour with the
    source hour shifted by three. *)
Theorem relative_pair_rated_moderate :
  keyToCamelot "A" "minor" = Some "08A" /\
  keyToCamelot "C" "major" = Some "08B" /\
  analyzeKeyCompatibility "A" "minor" "C" "major" = Return moderate.
Proof. repeat split; vm_compute; reflexivity. Qed.

(** C5 -- E minor to G major: the relative hour is [(9 + 3) % 12 = 0], the
    assignment to the [const] throws, and no rating is returned. *)
Theorem relative_hour_zero_throws :
  analyzeKeyCompatibility "E" "minor" "G" "major" = Throw TypeError_const_assignment.
Proof. vm_compute. reflexivity. Qed.

(** [rateCamelot] throws exactly on a minor source at hour 9 or a major
    source at hour 3 facing the other mode. *)
Lemma rateCamelot_throws_iff sc tc :
  sc ∈ camelotCodes -> tc ∈ camelotCodes ->
  (returns (rateCamelot sc tc) = false <->
   (modeOf sc = "A" /\ hourOf sc = 9 /\ modeOf tc = "B") \/
   (modeOf sc = "B" /\ hourOf sc = 3 /\ modeOf tc = "A")).
Proof.
  intros Hs Ht.
  assert (Hall : Forall (fun sc => Forall (fun tc =>
            returns (rateCamelot sc tc) = false <->
            (modeOf sc = "A" /\ hourOf sc = 9 /\ modeOf tc = "B") \/
            (modeOf sc = "B" /\ hourOf sc = 3 /\ modeOf tc = "A"))
            camelotCodes) camelotCodes).
  { refine (bool_decide_unpack _ _). vm_compute. reflexivity. }
  rewrite Forall_forall in Hall. specialize (Hall sc Hs).
  rewrite Forall_forall in Hall. exact (Hall tc Ht).
Qed.

(** ** Transition planning *)

Lemma generateTransitionPoints_cons cur next rest :
  generateTransitionPoints (cur :: next :: rest) =
  bind (transitionBetween cur next) (fun transition =>
  bind (generateTransitionPoints (next :: rest)) (fun transitions =>
  Return (transition :: transitions))).
Proof. reflexivity. Qed.


Lemma transitionBetween_fallback cur next :
  t_advancedAnalysis cur = None \/ t_advancedAnalysis next = None ->
  transitionBetween cur next =
  Return (pushed cur next (fallbackTransition cur next (orQ (t_duration cur) 180000))).
Proof.
  intros [Hno|Hno]; unfold transitionBetween; rewrite Hno.
  - reflexivity.
  - destruct (t_advancedAnalysis cur); reflexivity.
Qed.

(** Whatever [findBestTransition] returns, the pushed duration is the
    default: the returned object has no [duration]. *)
Lemma findBestTransition_no_duration a b info :
  findBestTransition a b = Return info -> ti_duration info = None.
Proof.
  unfold findBestTransition. intros H.
  destruct (a_rhythm a) as [ra|], (a_rhythm b) as [rb|];
    try (injection H as <-; reflexivity).
  destruct (r_beats ra), (r_beats rb); try (injection H as <-; reflexivity).
  destruct (analyzeKeyCompatibility_opt _ _ _ _); [|discriminate].
  injection H as <-. reflexivity.
Qed.

Lemma advanced_duration_is_default cur next a b tr :
  t_advancedAnalysis cur = Some a -> t_advancedAnalysis next = Some b ->
  transitionBetween cur next = Return tr ->
  transitionDuration tr = 8000%Q.
Proof.
  intros Ha Hb. unfold transitionBetween. rewrite Ha, Hb.
  destruct (findBestTransition a b) as [info|] eqn:Hf; [|discriminate].
  cbn [bind]. intros H. injection H as <-.
  cbn. rewrite (findBestTransition_no_duration _ _ _ Hf). reflexivity.
Qed.

(** On the fallback path the duration follows the BPM difference. *)
Lemma fallback_duration_rule cur next tr :
  t_advancedAnalysis cur = None \/ t_advancedAnalysis next = None ->
  transitionBetween cur next = Return tr ->
  let d := (orQ (t_bpm next) 120 - orQ (t_bpm cur) 120)%Q in
  bpmDifference tr = Some d /\
  transitionDuration tr =
    (if Qltb (Qabs d) 5 then 6000 else if Qltb 15 (Qabs d) then 12000 else 8000)%Q.
Proof.
  intros Hno Htb d. rewrite (transitionBetween_fallback _ _ Hno) in Htb.
  injection Htb as <-. unfold pushed, fallbackTransition. fold d.
  destruct (Qltb (Qabs d) 5); [split; reflexivity|].
  destruct (Qltb 15 (Qabs d)); split; reflexivity.
Qed.

(** C3 -- two analysed tracks at 120 and 122 BPM: the difference is 2, under
    5, yet the planned duration is 8000, not 6000.  [findBestTransition]
    returns no [duration], so [transitionInfo.duration || 8000] always takes
    the default on the path with advanced analysis. *)
Theorem analysed_pair_gets_default_duration :
  exists tr d,
    generateTransitionPoints [trackA; trackB] = Return [tr] /\
    bpmDifference tr = Some d /\ (Qabs d < 5)%Q /\
    transitionType tr = beatmatch_blend /\
    transitionDuration tr = 8000%Q.
Proof.
  eexists _, _. split; [vm_compute; reflexivity|].
  repeat split; vm_compute; reflexivity.
Qed.

(** The same two tracks without their analyses get 6000. *)
Example plain_pair_gets_short_duration :
  exists tr, generateTransitionPoints [mkTrack 1 120 200000; mkTrack 2 122 200000] = Return [tr]
             /\ transitionDuration tr = 6000%Q /\ transitionType tr = beatmatch.
Proof. eexists. split; [vm_compute; reflexivity|]. split; reflexivity. Qed.




(** ** Analysis failures *)

(** [analyzeTrackFile] rethrows what its [try] block caught. *)
Lemma analyzeTrackFile_rethrows filePath w cache e :
  existsSync w = true ->
  cache !! (filePath +:+ "-" +:+ mtimeMs w) = None ->
  analyzeBody w = Throw e ->
  analyzeTrackFile filePath w cache = (Throw e, cache).
Proof.
  intros Hex Hmiss Hbody. unfold analyzeTrackFile.
  rewrite Hex, Hmiss, Hbody. reflexivity.
Qed.

(** A decoding failure is a failure of the [try] block. *)
Lemma decode_failure_fails_body w e :
  readFileSync w = Return () -> returns (parseBuffer w) = true ->
  decodeAudioFile w = Throw e -> analyzeBody w = Throw e.
Proof.
  intros Hr Hp Hd. unfold analyzeBody. rewrite Hr. cbn [bind].
  destruct (parseBuffer w) as [[f m]|]; [|discriminate]. cbn [bind].
  rewrite Hd. reflexivity.
Qed.

(** C7, as stated, fails -- the file cannot be decoded, and
    [analyzeTrackFile] hands the error to its caller instead of returning
    default features. *)
Lemma undecodable_file_throws :
  analyzeTrackFile "uploads/c.mp3" undecodable ∅
  = (Throw (Error_message "Unable to decode audio data"), ∅).
Proof. vm_compute. reflexivity. Qed.

(** C7, amended -- whenever [analyzeTrackFile] throws, for whatever reason,
    the callback of [analyzeTracks] catches the error and returns the track
    (one that arrived without an analysis) with [advancedAnalysis] null, so
    without beats, key or energy bands.  Its bpm is the one it arrived with,
    or 120 when it had none and the SoundCloud lookup failed.  The failure
    does not reach planning. *)
Theorem analysis_failure_is_caught W track cache filePath e cache' :
  t_filePath track = Some filePath ->
  t_advancedAnalysis track = None ->
  analyzeTrackFile filePath (fileAt W filePath) cache = (Throw e, cache') ->
  let analyzed := fst (analyzeTrack W track cache) in
  t_advancedAnalysis analyzed = None /\
  (truthyQ (t_bpm track) = true -> t_bpm analyzed = t_bpm track) /\
  (truthyQ (t_bpm track) = false -> idTruthy (t_id track) = true ->
   SC_get W (t_id track) = ScError -> t_bpm analyzed = Some (120 : Q)).
Proof.
  intros Hpath Hnone Hthrow analyzed. subst analyzed. unfold analyzeTrack.
  rewrite Hpath, Hthrow.
  set (guard := t_uploaded track && negb (String.eqb filePath "")
                && existsSync (fileAt W filePath)).
  split; [|split].
  - destruct (negb (truthyQ (t_bpm track)) && idTruthy (t_id track)).
    + destruct (SC_get W (t_id track)); [| |exact Hnone]; destruct guard; reflexivity.
    + destruct guard; reflexivity.
  - intros Htruthy. rewrite Htruthy. cbn [negb andb]. destruct guard; reflexivity.
  - intros Hfalsy Hid Hsc. rewrite Hfalsy, Hid, Hsc. cbn [negb andb].
    destruct guard; reflexivity.
Qed.

Lemma analysis_failure_is_caught_witness :
  t_advancedAnalysis (fst (analyzeTrack brokenWorld brokenUpload ∅)) = None /\
  (truthyQ (t_bpm brokenUpload) = true ->
   t_bpm (fst (analyzeTrack brokenWorld brokenUpload ∅)) = t_bpm brokenUpload) /\
  (truthyQ (t_bpm brokenUpload) = false -> idTruthy (t_id brokenUpload) = true ->
   SC_get brokenWorld (t_id brokenUpload) = ScError ->
   t_bpm (fst (analyzeTrack brokenWorld brokenUpload ∅)) = Some (120 : Q)).
Proof.
  apply (analysis_failure_is_caught brokenWorld brokenUpload ∅ "uploads/c.mp3"
           (Error_message "Unable to decode audio data") ∅).
  - reflexivity.
  - reflexivity.
  - vm_compute. reflexivity.
Defined.

(** The upload whose file cannot be decoded comes back with the default
    tempo and no analysis. *)
Example broken_upload_analyzed :
  let t := fst (analyzeTrack brokenWorld brokenUpload ∅) in
  t_advancedAnalysis t = None /\ t_bpm t = Some (120 : Q) /\ t_analyzed t = false.
Proof. vm_compute. repeat split. Qed.

(** ** The mix order is a permutation of its input *)

Section Sorting.
Context {A : Type} (compare : A -> A -> Q).

Lemma sort_insert_perm x l : Js.sort_insert compare x l ≡ₚ x :: l.
Proof.
  induction l as [|y l IH]; cbn; [reflexivity|].
  destruct (Qle_bool (compare x y) 0); [reflexivity|].
  rewrite IH. apply Permutation_swap.
Qed.

Lemma sort_perm l : Js.sort compare l ≡ₚ l.
Proof.
  induction l as [|x l IH]; cbn; [reflexivity|].
  rewrite sort_insert_perm. by rewrite IH.
Qed.

Lemma sort_length l : length (Js.sort compare l) = length l.
Proof. by rewrite sort_perm. Qed.

End Sorting.

Lemma pushAt_length result arr i :
  0 <= i -> (Z.to_nat i < length arr)%nat ->
  length (pushAt result arr i) = S (length result).
Proof.
  intros _ Hlt. unfold pushAt.
  destruct (lookup_lt_is_Some_2 arr _ Hlt) as [x ->].
  rewrite length_app. cbn. lia.
Qed.

Lemma pushAt_nonempty result arr i : result <> [] -> pushAt result arr i <> [].
Proof. unfold pushAt. destruct result; [congruence|discriminate]. Qed.

Lemma closestBpm_lt lastTrack remaining : forall index bestDiff bestMatch N,
  (bestMatch < N)%nat -> (index + length remaining <= N)%nat ->
  (closestBpm lastTrack remaining index bestDiff bestMatch < N)%nat.
Proof.
  induction remaining as [|track rest IH]; intros index bestDiff bestMatch N Hb Hi; cbn.
  - exact Hb.
  - cbn in Hi. destruct (bpmDistance track lastTrack) as [diff|].
    + destruct (match bestDiff with Some best => Qltb diff best | None => true end);
        apply IH; lia.
    + apply IH; lia.
Qed.

Lemma bestHarmonic_lt lastTrack remaining : forall index bestScore bestMatch N,
  (bestMatch < N)%nat -> (index + length remaining <= N)%nat ->
  (bestHarmonic lastTrack remaining index bestScore bestMatch < N)%nat.
Proof.
  induction remaining as [|track rest IH]; intros index bestScore bestMatch N Hb Hi; cbn.
  - exact Hb.
  - cbn in Hi. destruct (harmonicScore lastTrack track) as [score|].
    + destruct (Qltb bestScore score); apply IH; lia.
    + apply IH; lia.
Qed.

Lemma last_nonempty {A} (l : list A) : l <> [] -> is_Some (last l).
Proof.
  intros H. destruct (last l) eqn:E; [eauto|].
  apply last_None in E. contradiction.
Qed.

(** The greedy loops end: every round moves one track out of
    [remaining]. *)
Lemma greedyLoop_returns choose fuel :
  (forall lastTrack remaining,
     remaining <> [] -> (choose lastTrack remaining < length remaining)%nat) ->
  forall result remaining,
    (length remaining <= fuel)%nat -> result <> [] ->
    is_Some (greedyLoop choose fuel result remaining).
Proof.
  intros Hchoose.
  induction fuel as [|fuel IH]; intros result remaining Hlen Hne.
  - destruct remaining; [cbn; eauto|cbn in Hlen; lia].
  - destruct remaining as [|t rest]; [cbn; eauto|].
    cbn [greedyLoop]. destruct (last_nonempty result Hne) as [lastTrack ->].
    set (remaining := t :: rest) in *.
    assert (Hb : (choose lastTrack remaining < length remaining)%nat)
      by (by apply Hchoose).
    apply IH.
    + rewrite length_delete by (by apply lookup_lt_is_Some_2). lia.
    + by apply pushAt_nonempty.
Qed.

Lemma closestBpm_in_range lastTrack remaining :
  remaining <> [] -> (closestBpm lastTrack remaining 0 None 0 < length remaining)%nat.
Proof.
  intros Hne. apply closestBpm_lt; [|lia]. destruct remaining; [congruence|cbn; lia].
Qed.

Lemma bestHarmonic_in_range lastTrack remaining :
  remaining <> [] -> (bestHarmonic lastTrack remaining 0 (-1) 0 < length remaining)%nat.
Proof.
  intros Hne. apply bestHarmonic_lt; [|lia]. destruct remaining; [congruence|cbn; lia].
Qed.

Lemma pushAt_first_nonempty arr : arr <> [] -> pushAt [] arr 0 <> [].
Proof. destruct arr; [congruence|discriminate]. Qed.

Lemma minimizeBpmJumps_returns tracks :
  tracks <> [] -> is_Some (minimizeBpmJumps tracks).
Proof.
  intros Hne. unfold minimizeBpmJumps.
  set (sorted := Js.sort _ tracks).
  assert (Hlen : length sorted = length tracks) by apply sort_length.
  apply greedyLoop_returns.
  - intros lastTrack remaining. apply closestBpm_in_range.
  - rewrite length_drop. lia.
  - apply pushAt_first_nonempty. intros E. rewrite E in Hlen.
    destruct tracks; [congruence|discriminate].
Qed.

Lemma harmonicMixing_returns tracks :
  tracks <> [] -> is_Some (harmonicMixing tracks).
Proof.
  intros Hne. unfold harmonicMixing.
  set (withKeys := filter _ tracks).
  destruct (Qltb _ _) eqn:Hfew; [eauto|].
  assert (Hk : withKeys <> []).
  { intros E. rewrite E in Hfew. unfold Qltb in Hfew.
    destruct (Qlt_le_dec _ _) as [|Hle]; [discriminate|].
    destruct tracks as [|t ts]; [congruence|].
    cbn [length] in Hle. revert Hle.
    unfold Qle, Qmult, inject_Z. cbn [Qnum Qden]. lia. }
  destruct (greedyLoop_returns
              (fun lastTrack remaining => bestHarmonic lastTrack remaining 0 (-1) 0)
              (length tracks)
              (fun lastTrack remaining => bestHarmonic_in_range lastTrack remaining)
              (pushAt [] withKeys 0) (drop 1 withKeys))
    as [result Hres].
  - rewrite length_drop. pose proof (length_filter (fun t => hasKey t = true) tracks).
    fold withKeys in H. lia.
  - by apply pushAt_first_nonempty.
  - rewrite Hres. eauto.
Qed.

Lemma energyStep_progress sorted st :
  energyInv sorted st ->
  (length (st.1.1.1) < length sorted)%nat ->
  energyInv sorted (energyStep (length sorted) sorted st) /\
  length ((energyStep (length sorted) sorted st).1.1.1) = S (length (st.1.1.1)).
Proof.
  destruct st as [[[result up] down] goingUp]. cbn [fst snd energyInv].
  intros (Hd & Hdu & Hu & Hlen) Hlt. unfold energyStep.
  set (len := Z.of_nat (length sorted)) in *.
  destruct (goingUp && (up <? len)) eqn:E1.
  - apply andb_true_iff in E1 as [_ E1]. apply Z.ltb_lt in E1.
    assert (Hpush : length (pushAt result sorted up) = S (length result))
      by (apply pushAt_length; lia).
    cbn [fst snd energyInv]. rewrite Hpush. repeat split; lia.
  - destruct (0 <=? down) eqn:E2.
    + apply Z.leb_le in E2.
      assert (Hpush : length (pushAt result sorted down) = S (length result))
        by (apply pushAt_length; lia).
      cbn [fst snd energyInv]. rewrite Hpush. repeat split; lia.
    + apply Z.leb_gt in E2.
      destruct (up <? len) eqn:E3.
      * apply Z.ltb_lt in E3.
        assert (Hpush : length (pushAt result sorted up) = S (length result))
          by (apply pushAt_length; lia).
        cbn [fst snd energyInv]. rewrite Hpush. repeat split; lia.
      * apply Z.ltb_ge in E3. lia.
Qed.

Lemma energyLoop_returns sorted fuel : forall st,
  energyInv sorted st ->
  (length sorted - length (st.1.1.1) <= fuel)%nat ->
  is_Some (energyLoop fuel (length sorted) sorted st).
Proof.
  induction fuel as [|fuel IH]; intros st Hinv Hfuel.
  - destruct st as [[[result up] down] goingUp]. cbn [energyLoop fst] in *.
    destruct (length result <? length sorted)%nat eqn:E; [|eauto].
    apply Nat.ltb_lt in E. exfalso. lia.
  - destruct st as [[[result up] down] goingUp]. cbn [energyLoop].
    destruct (length result <? length sorted)%nat eqn:E; [|eauto].
    apply Nat.ltb_lt in E.
    destruct (energyStep_progress sorted (result, up, down, goingUp) Hinv E) as [Hinv' Hlen'].
    apply IH; [exact Hinv'|]. rewrite Hlen'. cbn [fst] in *. lia.
Qed.

Lemma createEnergyCurve_returns tracks :
  tracks <> [] -> is_Some (createEnergyCurve tracks).
Proof.
  intros Hne. unfold createEnergyCurve.
  set (sorted := Js.sort _ tracks).
  assert (Hlen : length sorted = length tracks) by apply sort_length.
  rewrite <- Hlen.
  assert (Hpos : (0 < length sorted)%nat).
  { rewrite Hlen. destruct tracks; [congruence|cbn; lia]. }
  set (midpoint := Z.of_nat (length sorted) / 2).
  assert (Hmid : 0 <= midpoint < Z.of_nat (length sorted)).
  { subst midpoint. split; [apply Z.div_pos; lia|apply Z.div_lt_upper_bound; lia]. }
  assert (Hpush : length (pushAt [] sorted midpoint) = 1%nat)
    by (apply pushAt_length; lia).
  apply energyLoop_returns.
  - cbn [energyInv]. rewrite Hpush. lia.
  - cbn [fst]. rewrite Hpush. lia.
Qed.

(** The placement loop only picks unused tracks of the input. *)
Lemma pickBest_unused scores usedTracks position tracks :
  forall bestScore bestTrack t,
    pickBest scores usedTracks position tracks bestScore bestTrack = Some t ->
    bestTrack = Some t \/ (t ∈ tracks /\ t_id t ∉ usedTracks).
Proof.
  induction tracks as [|track rest IH]; intros bestScore bestTrack t H; cbn in H.
  - by left.
  - destruct (scoreAt scores track position) as [score|].
    + destruct (negb (bool_decide (t_id track ∈ usedTracks)) && (bestScore <? score)) eqn:E.
      * apply IH in H as [H|[H1 H2]].
        -- injection H as <-. right. apply andb_true_iff in E as [E _].
           apply negb_true_iff, bool_decide_eq_false in E. split; [left|exact E].
        -- right. split; [by right|exact H2].
      * apply IH in H as [H|[H1 H2]]; [by left|]. right. split; [by right|exact H2].
    + apply IH in H as [H|[H1 H2]]; [by left|]. right. split; [by right|exact H2].
Qed.

Lemma place_invariant scores tracks n : forall position result usedTracks r u,
  place scores tracks position n result usedTracks = (r, u) ->
  usedTracks = t_id <$> result -> NoDup usedTracks -> (forall x, x ∈ result -> x ∈ tracks) ->
  u = t_id <$> r /\ NoDup u /\ (forall x, x ∈ r -> x ∈ tracks).
Proof.
  induction n as [|n IH]; intros position result usedTracks r u Hplace Hused Hnodup Hsub.
  - cbn in Hplace. injection Hplace as <- <-. auto.
  - cbn in Hplace.
    destruct (pickBest scores usedTracks position tracks (-1) None) as [best|] eqn:Hpick.
    + apply pickBest_unused in Hpick as [Hpick|[Hin Hfresh]]; [discriminate|].
      eapply IH; [exact Hplace| | |].
      * rewrite fmap_app. cbn. by rewrite Hused.
      * apply NoDup_app. split; [exact Hnodup|]. split; [|apply NoDup_singleton].
        intros x Hx Hx'. apply list_elem_of_singleton in Hx'. by subst.
      * intros x Hx. apply elem_of_app in Hx as [Hx|Hx]; [by apply Hsub|].
        apply list_elem_of_singleton in Hx. by subst.
    + eapply IH; eauto.
Qed.

(** Placed tracks followed by the unplaced ones: every track exactly once. *)
Lemma placed_then_rest_perm (tracks result : list Track) :
  NoDup (t_id <$> tracks) -> NoDup (t_id <$> result) ->
  (forall x, x ∈ result -> x ∈ tracks) ->
  result ++ filter (fun track => t_id track ∉ t_id <$> result) tracks ≡ₚ tracks.
Proof.
  intros Hnd Hndr Hsub.
  rewrite <- (filter_app_complement (fun track => t_id track ∈ t_id <$> result) tracks) at 2.
  apply Permutation_app_tail.
  apply NoDup_Permutation.
  - by apply NoDup_fmap_1 in Hndr.
  - apply NoDup_filter. by apply NoDup_fmap_1 in Hnd.
  - intros x. rewrite list_elem_of_filter. split.
    + intros Hx. split; [by apply list_elem_of_fmap_2|by apply Hsub].
    + intros [Hid Hx]. apply list_elem_of_fmap in Hid as (y & Hxy & Hy).
      assert (x = y) as ->; [|exact Hy].
      apply Hsub in Hy.
      apply list_elem_of_lookup in Hx as [i Hi]. apply list_elem_of_lookup in Hy as [j Hj].
      assert (i = j) as ->.
      { eapply NoDup_lookup; [exact Hnd| |].
        - rewrite list_lookup_fmap, Hi. reflexivity.
        - rewrite list_lookup_fmap, Hj. cbn. by rewrite Hxy. }
      congruence.
Qed.

Lemma scored_id track : t_id (scored track) = t_id track.
Proof. reflexivity. Qed.

(** [calculateMixOrder] returns on every input: its three loops end. *)
Lemma calculateMixOrder_returns analyzedTracks :
  is_Some (calculateMixOrder analyzedTracks).
Proof.
  unfold calculateMixOrder.
  destruct (length analyzedTracks <? 3)%nat eqn:Hshort; [eauto|].
  apply Nat.ltb_ge in Hshort.
  set (tracks := scored <$> analyzedTracks).
  assert (Hne : tracks <> []).
  { subst tracks. destruct analyzedTracks; [cbn in Hshort; lia|discriminate]. }
  destruct (createEnergyCurve_returns tracks Hne) as [energyOrdered ->].
  destruct (minimizeBpmJumps_returns tracks Hne) as [bpmOrdered ->].
  assert (Hh : is_Some (if existsb (fun t => bool_decide (is_Some (t_advancedAnalysis t)))
                             analyzedTracks
                        then harmonicMixing tracks else Some tracks)).
  { destruct (existsb _ _); [by apply harmonicMixing_returns|eauto]. }
  destruct Hh as [harmonicOrdered ->].
  destruct (place _ tracks 0 (length tracks) [] []) as [result usedTracks]. eauto.
Qed.

(** C2 -- for every non-empty set of tracks with pairwise distinct ids,
    [calculateMixOrder] returns, and the ids of its result are a permutation
    of the ids of the input: nothing is duplicated, nothing is left out, in
    the short case as in the weighted-vote case. *)
Theorem calculateMixOrder_permutation analyzedTracks :
  analyzedTracks <> [] ->
  NoDup (t_id <$> analyzedTracks) ->
  exists ordered,
    calculateMixOrder analyzedTracks = Some ordered /\
    t_id <$> ordered ≡ₚ t_id <$> analyzedTracks.
Proof.
  intros Hne Hnd. unfold calculateMixOrder.
  destruct (length analyzedTracks <? 3)%nat.
  - eexists. split; [reflexivity|]. by rewrite sort_perm.
  - set (tracks := scored <$> analyzedTracks).
    assert (Hids : t_id <$> tracks = t_id <$> analyzedTracks).
    { subst tracks. rewrite <- list_fmap_compose. reflexivity. }
    assert (Hne' : tracks <> []).
    { subst tracks. destruct analyzedTracks; [congruence|discriminate]. }
    destruct (createEnergyCurve_returns tracks Hne') as [energyOrdered ->].
    destruct (minimizeBpmJumps_returns tracks Hne') as [bpmOrdered ->].
    assert (Hh : is_Some (if existsb (fun t => bool_decide (is_Some (t_advancedAnalysis t)))
                               analyzedTracks
                          then harmonicMixing tracks else Some tracks)).
    { destruct (existsb _ _); [by apply harmonicMixing_returns|eauto]. }
    destruct Hh as [harmonicOrdered ->].
    destruct (place _ tracks 0 (length tracks) [] []) as [result usedTracks] eqn:Hplace.
    eexists. split; [reflexivity|].
    apply place_invariant in Hplace as (-> & Hndr & Hsub);
      [|reflexivity|by apply NoDup_nil|intros x Hx; by apply elem_of_nil in Hx].
    rewrite <- Hids. apply fmap_Permutation.
    apply placed_then_rest_perm; [by rewrite Hids|exact Hndr|exact Hsub].
Qed.

Lemma calculateMixOrder_permutation_witness :
  exists ordered,
    calculateMixOrder [mkTrack 3 180 200000; mkTrack 2 122 200000; mkTrack 1 120 200000]
      = Some ordered /\
    t_id <$> ordered ≡ₚ [NumId 3; NumId 2; NumId 1].
Proof.
  apply (calculateMixOrder_permutation
           [mkTrack 3 180 200000; mkTrack 2 122 200000; mkTrack 1 120 200000]).
  - discriminate.
  - refine (bool_decide_unpack _ _). vm_compute. reflexivity.
Defined.

(** Scenario A of the specification: 120, 122 and 180 BPM without key data. *)
Example scenario_A :
  fmap (M:=list) t_id <$> calculateMixOrder [mkTrack 1 120 200000; mkTrack 2 122 200000; mkTrack 3 180 200000]
  = Some [NumId 1; NumId 2; NumId 3].
Proof. vm_compute. reflexivity. Qed.

Example four_tracks_ordered :
  fmap (M:=list) t_id <$> calculateMixOrder
     [mkTrack 3 180 200000; mkTrack 2 122 200000; mkTrack 1 120 200000; mkTrack 4 90 1000]
  = Some [NumId 4; NumId 1; NumId 2; NumId 3].
Proof. vm_compute. reflexivity. Qed.

(** ** The player *)

Lemma initialize_wellFormed mixTracks mixTransitions time :
  mixTracks <> [] -> wellFormed (initialize mixTracks mixTransitions time).
Proof.
  intros Hne. unfold wellFormed. cbn.
  rewrite length_imap, !length_fmap. repeat split.
  - apply Forall_fmap, Forall_true. intros x. cbn. eauto.
  - destruct mixTracks; [congruence|cbn; lia].
Qed.

Lemma insert_as_alter {A} (f : A -> A) (l : list A) : forall i x,
  l !! i = Some x -> <[i := f x]> l = alter f i l.
Proof.
  induction l as [|y l IH]; intros [|i] x Hx; simplify_eq/=; [done|].
  f_equal. by apply IH.
Qed.

Lemma at_index_in_range {A} (l : list A) i f :
  (i < length l)%nat -> at_index l i f = Return (alter f i l).
Proof.
  intros Hlt. unfold at_index.
  destruct (lookup_lt_is_Some_2 l i Hlt) as [x Hx]. rewrite Hx.
  by rewrite (insert_as_alter f l i x Hx).
Qed.

Lemma onGain_in_range i f s :
  (i < length (gainNodes s))%nat ->
  onGain i f s = Return (with_gainNodes (alter f i (gainNodes s)) s).
Proof. intros H. unfold onGain. by rewrite at_index_in_range. Qed.

Lemma onLowEQ_in_range i f s :
  (i < length (lowEQ s))%nat ->
  onLowEQ i f s = Return (with_lowEQ (alter f i (lowEQ s)) s).
Proof. intros H. unfold onLowEQ. by rewrite at_index_in_range. Qed.

Lemma onMidEQ_in_range i f s :
  (i < length (midEQ s))%nat ->
  onMidEQ i f s = Return (with_midEQ (alter f i (midEQ s)) s).
Proof. intros H. unfold onMidEQ. by rewrite at_index_in_range. Qed.

Lemma onHighEQ_in_range i f s :
  (i < length (highEQ s))%nat ->
  onHighEQ i f s = Return (with_highEQ (alter f i (highEQ s)) s).
Proof. intros H. unfold onHighEQ. by rewrite at_index_in_range. Qed.

Lemma onAudio_in_range i f s :
  (i < length (audioElements s))%nat ->
  onAudio i f s = Return (with_audioElements (alter f i (audioElements s)) s).
Proof. intros H. unfold onAudio. by rewrite at_index_in_range. Qed.

Lemma assign_in_range {A} (l : list (option A)) i v :
  (i < length l)%nat -> assign l i v = <[i := v]> l.
Proof. intros H. unfold assign. apply Nat.ltb_lt in H. by rewrite H. Qed.

Lemma resetTrackEffects_in_range index s :
  (index < length (lowEQ s))%nat -> (index < length (midEQ s))%nat ->
  (index < length (highEQ s))%nat -> (index < length (audioElements s))%nat ->
  (index < length (tempoAdjustments s))%nat -> (index < length (gainNodes s))%nat ->
  resetTrackEffects index s = Return (resetState index s).
Proof.
  intros Hl Hm Hh Ha Ht Hg. unfold resetTrackEffects, andThen.
  rewrite onLowEQ_in_range by exact Hl. cbn [bind].
  rewrite onMidEQ_in_range by exact Hm. cbn [bind].
  rewrite onHighEQ_in_range by exact Hh. cbn [bind].
  rewrite onAudio_in_range by exact Ha. cbn [bind].
  unfold setTempoAdjustment. cbn [bind].
  rewrite onGain_in_range by exact Hg.
  unfold resetState. cbn. rewrite assign_in_range by exact Ht. reflexivity.
Qed.

Ltac in_range := cbn; rewrite ?length_alter, ?length_insert; lia.

(** Reading back what the last write at an index has stored. *)
Ltac read_back :=
  cbn;
  repeat first
    [ rewrite list_lookup_alter_ne by congruence
    | rewrite list_lookup_insert_ne by congruence
    | rewrite list_lookup_alter_eq
    | rewrite list_lookup_insert_eq by (rewrite ?length_alter, ?length_insert; lia) ].

Ltac keeps_shape :=
  repeat split;
  rewrite ?length_alter, ?length_insert;
  try lia; try reflexivity;
  try (repeat apply Forall_insert; eauto);
  try (intros; rewrite !list_lookup_alter_ne by congruence; reflexivity).

(** What a skip does to a well-formed player with two or more tracks. *)
Lemma nextTrack_effects s :
  (2 <= length (tracks s))%nat -> wellFormed s ->
   exists s',
     nextTrack s = Return s' /\
     currentTrackIndex s' = ((currentTrackIndex s + 1) mod length (tracks s))%nat /\
     (currentTrackIndex s = (length (tracks s) - 1)%nat -> currentTrackIndex s' = 0%nat) /\
     value <$> gainNodes s' !! currentTrackIndex s = Some 0%R /\
     value <$> lowEQ s' !! currentTrackIndex s = Some 0%R /\
     value <$> midEQ s' !! currentTrackIndex s = Some 0%R /\
     value <$> highEQ s' !! currentTrackIndex s = Some 0%R /\
     playbackRate <$> audioElements s' !! currentTrackIndex s = Some 1%Q /\
     tempoAdjustments s' !! currentTrackIndex s = Some (Some 1%Q) /\
     value <$> gainNodes s' !! currentTrackIndex s' = Some 1%R /\
     wellFormed s' /\
     (forall k, k <> currentTrackIndex s -> k <> currentTrackIndex s' ->
                gainNodes s' !! k = gainNodes s !! k).
Proof.
  intros Hn (Hg & Ha & Hl & Hm & Hh & Ht & Hholes & Hcur).
  unfold nextTrack.
  destruct (length (tracks s) <=? 1)%nat eqn:E; [apply Nat.leb_le in E; lia|clear E].
  set (cur := currentTrackIndex s) in *.
  assert (exists next, next = ((cur + 1) mod length (tracks s))%nat) as [next Hdef] by eauto.
  rewrite <- Hdef.
  assert (Hnext : (next < length (tracks s))%nat) by (subst next; apply Nat.mod_upper_bound; lia).
  assert (Hne : next <> cur).
  { subst next. destruct (decide (cur + 1 = length (tracks s))%nat) as [e|e].
    - rewrite e, Nat.Div0.mod_same. lia.
    - rewrite Nat.mod_small by lia. lia. }
  assert (Hwrap : cur = (length (tracks s) - 1)%nat -> next = 0%nat).
  { intros ->. subst next. replace (length (tracks s) - 1 + 1)%nat with (length (tracks s)) by lia.
    apply Nat.Div0.mod_same. }
  clearbody cur. clear Hdef.
  destruct (lookup_lt_is_Some_2 (tempoAdjustments s) next ltac:(lia)) as [adj Hadj].
  pose proof (Forall_lookup_1 _ _ _ _ Hholes Hadj) as [q ->].
  destruct (lookup_lt_is_Some_2 (gainNodes s) cur ltac:(lia)) as [g0 Hg0].
  destruct (lookup_lt_is_Some_2 (gainNodes s) next ltac:(lia)) as [g1 Hg1].
  destruct (lookup_lt_is_Some_2 (lowEQ s) cur ltac:(lia)) as [l0 Hl0].
  destruct (lookup_lt_is_Some_2 (midEQ s) cur ltac:(lia)) as [m0 Hm0].
  destruct (lookup_lt_is_Some_2 (highEQ s) cur ltac:(lia)) as [h0 Hh0].
  destruct (lookup_lt_is_Some_2 (audioElements s) cur ltac:(lia)) as [a0 Ha0].
  unfold andThen.
  rewrite onAudio_in_range by in_range. cbn [bind].
  rewrite onGain_in_range by in_range. cbn [bind].
  rewrite resetTrackEffects_in_range by in_range. cbn [bind].
  rewrite onAudio_in_range by in_range. cbn [bind].
  rewrite onGain_in_range by in_range. cbn [bind].
  cbn.
  destruct (isPlaying s).
  - rewrite onAudio_in_range by in_range. cbn [bind]. cbn.
    unfold tempoAdjustmentAt. cbn.
    rewrite list_lookup_insert_ne by congruence. rewrite Hadj. cbn.
    destruct (negb (Qeq_bool q 1)).
    + destruct (default false (soundTouchProcessors s !! next)).
      * unfold done_. eexists. split; [reflexivity|].
        rewrite assign_in_range by in_range. unfold wellFormed.
        read_back. rewrite ?Hg0, ?Hg1, ?Hl0, ?Hm0, ?Hh0, ?Ha0. cbn. keeps_shape.
      * unfold setPlaybackRate. rewrite onAudio_in_range by in_range. cbn [bind].
        eexists. split; [reflexivity|].
        rewrite assign_in_range by in_range. unfold wellFormed.
        read_back. rewrite ?Hg0, ?Hg1, ?Hl0, ?Hm0, ?Hh0, ?Ha0. cbn. keeps_shape.
    + eexists. split; [reflexivity|]. unfold wellFormed.
      read_back. rewrite ?Hg0, ?Hg1, ?Hl0, ?Hm0, ?Hh0, ?Ha0. cbn. keeps_shape.
  - eexists. split; [reflexivity|]. unfold wellFormed.
    read_back. rewrite ?Hg0, ?Hg1, ?Hl0, ?Hm0, ?Hh0, ?Ha0. cbn. keeps_shape.
Qed.



(** *** Skipping while a transition is in flight *)

Lemma sameSchedule_refl s : sameSchedule s s.
Proof. by repeat split. Qed.

Lemma sameSchedule_trans s1 s2 s3 :
  sameSchedule s1 s2 -> sameSchedule s2 s3 -> sameSchedule s1 s3.
Proof.
  intros (H1 & H2 & H3 & H4 & H5) (K1 & K2 & K3 & K4 & K5).
  repeat split; congruence.
Qed.

Lemma keeps_andThen f g : keepsSchedule f -> keepsSchedule g -> keepsSchedule (f >> g).
Proof.
  intros Hf Hg s s' H. unfold andThen in H.
  destruct (f s) as [s1|] eqn:E; [|discriminate]. cbn in H.
  eapply sameSchedule_trans; [by apply Hf|by apply Hg].
Qed.

Lemma at_index_keeps_events (l l' : list AudioParam) i f :
  (forall p, events (f p) = events p) ->
  at_index l i f = Return l' -> events <$> l' = events <$> l.
Proof.
  intros Hf H. unfold at_index in H. destruct (l !! i) as [x|] eqn:E; [|discriminate].
  injection H as <-. rewrite list_fmap_insert, Hf.
  apply list_insert_id. by rewrite list_lookup_fmap, E.
Qed.

Lemma keeps_onGain_value i v : keepsSchedule (onGain i (setValue v)).
Proof.
  intros s s' H. unfold onGain in H.
  destruct (at_index (gainNodes s) i (setValue v)) as [l|] eqn:E; [|discriminate].
  injection H as <-. apply at_index_keeps_events in E; [|done]. by repeat split.
Qed.

Lemma keeps_onLowEQ_value i v : keepsSchedule (onLowEQ i (setValue v)).
Proof.
  intros s s' H. unfold onLowEQ in H.
  destruct (at_index (lowEQ s) i (setValue v)) as [l|] eqn:E; [|discriminate].
  injection H as <-. apply at_index_keeps_events in E; [|done]. by repeat split.
Qed.

Lemma keeps_onMidEQ_value i v : keepsSchedule (onMidEQ i (setValue v)).
Proof.
  intros s s' H. unfold onMidEQ in H.
  destruct (at_index (midEQ s) i (setValue v)) as [l|] eqn:E; [|discriminate].
  injection H as <-. apply at_index_keeps_events in E; [|done]. by repeat split.
Qed.

Lemma keeps_onHighEQ_value i v : keepsSchedule (onHighEQ i (setValue v)).
Proof.
  intros s s' H. unfold onHighEQ in H.
  destruct (at_index (highEQ s) i (setValue v)) as [l|] eqn:E; [|discriminate].
  injection H as <-. apply at_index_keeps_events in E; [|done]. by repeat split.
Qed.

Lemma keeps_onAudio i f : keepsSchedule (onAudio i f).
Proof.
  intros s s' H. unfold onAudio in H.
  destruct (at_index (audioElements s) i f) as [l|]; [|discriminate].
  injection H as <-. by repeat split.
Qed.

Lemma keeps_setTempoAdjustment i v : keepsSchedule (setTempoAdjustment i v).
Proof. intros s s' H. unfold setTempoAdjustment in H. injection H as <-. by repeat split. Qed.

Lemma keeps_setPlaybackRate i r : keepsSchedule (setPlaybackRate i r).
Proof.
  destruct r as [q|]; [apply keeps_onAudio|].
  intros s s' H. cbn in H. destruct (audioElements s !! i); discriminate.
Qed.

Lemma keeps_done : keepsSchedule done_.
Proof. intros s s' H. unfold done_ in H. injection H as <-. apply sameSchedule_refl. Qed.

Lemma keeps_resetTrackEffects index : keepsSchedule (resetTrackEffects index).
Proof.
  unfold resetTrackEffects.
  repeat apply keeps_andThen;
    auto using keeps_onLowEQ_value, keeps_onMidEQ_value, keeps_onHighEQ_value,
               keeps_onAudio, keeps_setTempoAdjustment, keeps_onGain_value.
Qed.

Lemma keeps_adjustTempo tempoRatio : keepsSchedule (adjustTempo tempoRatio).
Proof.
  intros s s'. unfold adjustTempo.
  apply keeps_andThen; [apply keeps_setTempoAdjustment|].
  destruct (default false _); [apply keeps_done|apply keeps_setPlaybackRate].
Qed.

(** [nextTrack] cancels nothing: no timer is cleared and no scheduled event
    is removed. *)
Lemma keeps_nextTrack : keepsSchedule nextTrack.
Proof.
  intros s s'. unfold nextTrack.
  destruct (length (tracks s) <=? 1)%nat.
  { intros H. injection H as <-. apply sameSchedule_refl. }
  repeat apply keeps_andThen;
    auto using keeps_onAudio, keeps_onGain_value, keeps_onLowEQ_value,
               keeps_onMidEQ_value, keeps_onHighEQ_value, keeps_setTempoAdjustment.
  - intros s1 s1' H. injection H as <-. by repeat split.
  - intros s1 s1'. destruct (isPlaying s1).
    + apply keeps_andThen; [apply keeps_onAudio|].
      intros s2 s2'. destruct (notOne _); [apply keeps_adjustTempo|apply keeps_done].
    + apply keeps_done.
Qed.

(** Running the player on a concrete state, leaving real numbers alone. *)
Ltac evaluate :=
  cbv -[Rplus Rminus Rmult Rdiv Rinv Ropp IZR Q2R cos sin PI INR].

Lemma andThen_returns (f g : method) s s' :
  (f >> g) s = Return s' -> exists s1, f s = Return s1 /\ g s1 = Return s'.
Proof.
  unfold andThen. destruct (f s) as [s1|]; [|discriminate]. cbn. eauto.
Qed.

(** When the closing timer of a transition fires, the player moves to the
    index the transition was started for. *)
Lemma transition_end_moves_index currentIndex nextIndex s s' :
  run (TransitionEnd currentIndex nextIndex) s = Return s' ->
  currentTrackIndex s' = nextIndex /\ isCrossfading s' = false.
Proof.
  intros H. cbn [run] in H.
  apply andThen_returns in H as (s1 & _ & H). injection H as <-. by split.
Qed.

(** C8, as stated, fails -- the first track of [loaded] reaches its
    transition point and the 8-second fade to the second track starts; the
    user skips.  The closing timer and the ramps on the gains are still
    there.  The user skips again, to the third track; the timer of the
    abandoned transition then fires and moves the player back to the second
    track, whose gain is 0, while the third keeps gain 1. *)
Lemma skip_leaves_transition_running :
  exists s1 s2 s3 s4,
    inFlight = Return s1 /\ isCrossfading s1 = true /\
    nextTrack s1 = Return s2 /\
    timers s2 = [{| delay := 8000%Q; callback := TransitionEnd 0 1 |}] /\
    events <$> gainNodes s2 !! 0%nat
      = Some [setValueAtTime 1 0; linearRampToValueAtTime 0 (0 + Q2R 8000 / 1000)]%R /\
    events <$> gainNodes s2 !! 1%nat
      = Some [setValueAtTime 0 0; linearRampToValueAtTime 1 (0 + Q2R 8000 / 1000)]%R /\
    nextTrack s2 = Return s3 /\ currentTrackIndex s3 = 2%nat /\
    fire 0 s3 = Return s4 /\ currentTrackIndex s4 = 1%nat /\
    value <$> gainNodes s4 !! 1%nat = Some 0%R /\
    value <$> gainNodes s4 !! 2%nat = Some 1%R.
Proof.
  eexists _, _, _, _.
  split; [evaluate; reflexivity|]. split; [reflexivity|].
  split; [evaluate; reflexivity|]. split; [reflexivity|].
  split; [reflexivity|]. split; [reflexivity|].
  split; [evaluate; reflexivity|]. split; [reflexivity|].
  split; [evaluate; reflexivity|]. split; [reflexivity|].
  split; reflexivity.
Qed.

(** C8, amended -- a skip cancels nothing.  [nextTrack] clears no timer and
    removes no scheduled event from any gain or EQ parameter, so the ramps
    and the closing callback of a transition in flight still run; when that
    callback fires it sets [currentTrackIndex] to the index the transition
    was heading for and clears [isCrossfading].  What the skip does at once,
    in a well-formed player with two or more tracks, is set the gain value
    of the outgoing chain to 0 and of the target chain to 1, leaving the
    gain values of the other chains as they were. *)
Theorem skip_cancels_nothing s s' :
  nextTrack s = Return s' ->
  timers s' = timers s /\
  events <$> gainNodes s' = events <$> gainNodes s /\
  events <$> lowEQ s' = events <$> lowEQ s /\
  events <$> midEQ s' = events <$> midEQ s /\
  events <$> highEQ s' = events <$> highEQ s /\
  (forall k d currentIndex nextIndex s'',
     timers s' !! k = Some {| delay := d; callback := TransitionEnd currentIndex nextIndex |} ->
     fire k s' = Return s'' ->
     currentTrackIndex s'' = nextIndex /\ isCrossfading s'' = false) /\
  ((2 <= length (tracks s))%nat -> wellFormed s ->
   value <$> gainNodes s' !! currentTrackIndex s = Some 0%R /\
   value <$> gainNodes s' !! currentTrackIndex s' = Some 1%R /\
   (forall k, k <> currentTrackIndex s -> k <> currentTrackIndex s' ->
              gainNodes s' !! k = gainNodes s !! k)).
Proof.
  intros Hskip.
  destruct (keeps_nextTrack s s' Hskip) as (Ht & Hg & Hl & Hm & Hh).
  do 5 (split; [assumption|]). split.
  - intros k d currentIndex nextIndex s'' Htimer Hfire.
    unfold fire in Hfire. rewrite Htimer in Hfire. cbn [callback] in Hfire.
    by apply transition_end_moves_index in Hfire as [? ?].
  - intros Hlen Hwf.
    destruct (nextTrack_effects s Hlen Hwf) as (s0 & Hs0 & Hrest).
    rewrite Hskip in Hs0. injection Hs0 as <-.
    split; [tauto|]. split; [tauto|]. intros k. apply Hrest.
Qed.

(** *** Gain curves *)

Lemma schedule_addEvents e evs (x : option AudioParam) :
  schedule e <$> (addEvents evs <$> x) = addEvents (evs ++ [e]) <$> x.
Proof.
  destruct x as [p|]; [|reflexivity]. cbn. unfold schedule, addEvents. cbn.
  by rewrite app_assoc.
Qed.

Lemma addEvents_nil (x : option AudioParam) : addEvents [] <$> x = x.
Proof.
  destruct x as [[v evs]|]; [|reflexivity]. cbn. unfold addEvents. cbn.
  by rewrite app_nil_r.
Qed.

(** The [for] loop of [equalPowerCrossfade] after [n] rounds. *)
Lemma equalPower_loop fromIndex toIndex startTime duration s n :
  fromIndex <> toIndex ->
  (fromIndex < length (gainNodes s))%nat -> (toIndex < length (gainNodes s))%nat ->
  exists s',
    fold_left (fun m i => m >> equalPowerStep fromIndex toIndex startTime duration i)
              (List.seq 0 n) done_ s = Return s' /\
    length (gainNodes s') = length (gainNodes s) /\
    gainNodes s' !! fromIndex
      = addEvents (rampsOut startTime duration n) <$> gainNodes s !! fromIndex /\
    gainNodes s' !! toIndex
      = addEvents (rampsIn startTime duration n) <$> gainNodes s !! toIndex.
Proof.
  intros Hne Hf Ht. induction n as [|n (s' & Hrun & Hlen & Hout & Hin)].
  - exists s. cbn. by rewrite !addEvents_nil.
  - rewrite seq_S, fold_left_app. cbn [fold_left Nat.add].
    unfold andThen at 1. rewrite Hrun. cbn [bind].
    unfold equalPowerStep, andThen.
    rewrite onGain_in_range by lia. cbn [bind].
    rewrite onGain_in_range by (cbn; rewrite length_alter; lia). cbn [bind].
    eexists. split; [reflexivity|]. cbn [gainNodes with_gainNodes].
    unfold rampsOut, rampsIn in *. rewrite !seq_S, !fmap_app. cbn [fmap list_fmap Nat.add].
    split; [by rewrite !length_alter|]. split.
    + rewrite list_lookup_alter_ne by congruence. rewrite list_lookup_alter_eq, Hout.
      apply schedule_addEvents.
    + rewrite list_lookup_alter_eq. rewrite list_lookup_alter_ne by congruence.
      rewrite Hin. apply schedule_addEvents.
Qed.

(** 'beatmatch_blend' (and the fallback type 'beatmatch') get the
    equal-power curve: after the initial values, 101 ramps whose targets
    follow [cos] on the outgoing and [sin] on the incoming chain. *)
Lemma beatmatch_blend_is_equal_power duration fromIndex toIndex s :
  fromIndex <> toIndex ->
  (fromIndex < length (gainNodes s))%nat -> (toIndex < length (gainNodes s))%nat ->
  let startTime := contextTime s in
  let d := (startTime + Q2R duration / 1000 - startTime)%R in
  exists s',
    performVolumeTransition beatmatch_blend duration fromIndex toIndex s = Return s' /\
    gainNodes s' !! fromIndex
      = addEvents (setValueAtTime 1 startTime :: rampsOut startTime d 101)
          <$> gainNodes s !! fromIndex /\
    gainNodes s' !! toIndex
      = addEvents (setValueAtTime 0 startTime :: rampsIn startTime d 101)
          <$> gainNodes s !! toIndex.
Proof.
  intros Hne Hf Ht startTime d.
  unfold performVolumeTransition, equalPowerCrossfade. fold startTime. fold d.
  unfold andThen at 1 2.
  rewrite onGain_in_range by lia. cbn [bind].
  rewrite onGain_in_range by (cbn; rewrite length_alter; lia). cbn [bind].
  match goal with |- context [fold_left _ _ _ ?s0] => set (s1 := s0) end.
  destruct (equalPower_loop fromIndex toIndex startTime d s1 101 Hne) as (s' & Hrun & _ & Hout & Hin).
  { subst s1. cbn. rewrite !length_alter. lia. }
  { subst s1. cbn. rewrite !length_alter. lia. }
  exists s'. split; [exact Hrun|]. rewrite Hout, Hin. subst s1. cbn.
  rewrite list_lookup_alter_ne by congruence. rewrite !list_lookup_alter_eq.
  rewrite list_lookup_alter_ne by congruence.
  destruct (gainNodes s !! fromIndex) as [[v1 e1]|], (gainNodes s !! toIndex) as [[v2 e2]|];
    cbn; unfold addEvents, schedule; cbn; by rewrite <- ?app_assoc.
Qed.

Lemma performVolumeTransition_default type duration fromIndex toIndex s :
  type <> beatmatch_blend -> type <> beatmatch -> type <> cut_eq ->
  performVolumeTransition type duration fromIndex toIndex s
  = linearCrossfade fromIndex toIndex (contextTime s)
      (contextTime s + Q2R duration / 1000) s.
Proof. intros H1 H2 H3. destruct type; try reflexivity; congruence. Qed.


Lemma skip_cancels_nothing_witness :
  exists s1 s2,
    inFlight = Return s1 /\ nextTrack s1 = Return s2 /\
    timers s2 = timers s1 /\
    events <$> gainNodes s2 = events <$> gainNodes s1 /\
    events <$> lowEQ s2 = events <$> lowEQ s1 /\
    events <$> midEQ s2 = events <$> midEQ s1 /\
    events <$> highEQ s2 = events <$> highEQ s1 /\
    (forall k d currentIndex nextIndex s'',
       timers s2 !! k = Some {| delay := d; callback := TransitionEnd currentIndex nextIndex |} ->
       fire k s2 = Return s'' ->
       currentTrackIndex s'' = nextIndex /\ isCrossfading s'' = false) /\
    ((2 <= length (tracks s1))%nat -> wellFormed s1 ->
     value <$> gainNodes s2 !! currentTrackIndex s1 = Some 0%R /\
     value <$> gainNodes s2 !! currentTrackIndex s2 = Some 1%R /\
     (forall k, k <> currentTrackIndex s1 -> k <> currentTrackIndex s2 ->
                gainNodes s2 !! k = gainNodes s1 !! k)).
Proof.
  eexists _, _. split; [evaluate; reflexivity|]. split; [evaluate; reflexivity|].
  apply skip_cancels_nothing. evaluate. reflexivity.
Defined.

(** ** calculateMixOrder leaves its input alone *)

Example store_run_agrees :
  match Store.calculateMixOrder 0 callerStore with
  | Some (r, h') =>
      Store.view h' r = calculateMixOrder [mkTrack 3 180 200000; mkTrack 2 128 200000; mkTrack 1 120 200000]
      /\ Store.arrays h' !! 0%nat = Some [2; 1; 0]%nat
      /\ take 3 (Store.objects h') = threeTracks
  | None => False
  end.
Proof. vm_compute. repeat split. Qed.

Module StoreFacts.
Import Store.
Local Open Scope list_scope.

Lemma bind_eq {A B} (c : M A) (k : A -> M B) h a h1 :
  c h = Some (a, h1) -> (c ≫= k) h = k a h1.
Proof. intros H. unfold mbind, M_bind. by rewrite H. Qed.

Lemma ret_eq {A} (a : A) h : mret (M:=M) a h = Some (a, h).
Proof. reflexivity. Qed.

(** *** References and the objects they point to *)

Lemma deref_points objs l ts : deref objs l = Some ts <-> points objs l ts.
Proof. apply mapM_Some. Qed.

Lemma points_length objs l ts : points objs l ts -> length l = length ts.
Proof. apply Forall2_length. Qed.

Lemma points_grow objs extra l ts : points objs l ts -> points (objs ++ extra) l ts.
Proof.
  intros H. eapply Forall2_impl; [exact H|]. intros o t Ho. cbn in Ho.
  by apply lookup_app_l_Some.
Qed.

Lemma points_prefix objs objs' l ts :
  objs `prefix_of` objs' -> points objs l ts -> points objs' l ts.
Proof. intros [extra ->]. apply points_grow. Qed.

Lemma points_snoc objs l ts o t :
  points objs l ts -> objs !! o = Some t -> points objs (l ++ [o]) (ts ++ [t]).
Proof. intros H Ho. apply Forall2_app; [exact H|]. by repeat constructor. Qed.

Lemma points_lookup objs l ts i t :
  points objs l ts -> ts !! i = Some t -> exists o, l !! i = Some o /\ objs !! o = Some t.
Proof.
  intros H Ht. destruct (Forall2_lookup_r _ _ _ _ _ H Ht) as (o & Ho & Hobj). eauto.
Qed.

Lemma points_delete objs l ts i :
  points objs l ts -> points objs (delete i l) (delete i ts).
Proof. apply Forall2_delete. Qed.

Lemma points_drop objs l ts n :
  points objs l ts -> points objs (drop n l) (drop n ts).
Proof. apply Forall2_drop. Qed.

Lemma points_zip objs l ts :
  points objs l ts -> (zip l ts).*1 = l /\ (zip l ts).*2 = ts /\
  Forall (fun p => objs !! p.1 = Some p.2) (zip l ts).
Proof.
  intros H. pose proof (points_length _ _ _ H) as Hlen.
  split; [apply fst_zip; lia|]. split; [apply snd_zip; lia|].
  induction H; cbn; constructor; auto.
Qed.

Lemma pairs_points objs (ps : list (nat * Track)) :
  Forall (fun p => objs !! p.1 = Some p.2) ps -> points objs (ps.*1) (ps.*2).
Proof. induction 1; cbn; constructor; auto. Qed.

(** *** Heaps after a write or an allocation *)

Lemma readArray_eq h a l : arrays h !! a = Some l -> readArray a h = Some (l, h).
Proof. intros H. unfold readArray. by rewrite H. Qed.

Lemma writeArray_eq h a l0 l :
  arrays h !! a = Some l0 -> writeArray a l h = Some (tt, setArr a l h).
Proof. intros H. unfold writeArray. by rewrite H. Qed.

Lemma readObjects_eq h l ts :
  points (objects h) l ts -> readObjects l h = Some (ts, h).
Proof. intros H. unfold readObjects. apply deref_points in H. by rewrite H. Qed.

Lemma tracksOf_eq h a ts : views h a ts -> tracksOf a h = Some (ts, h).
Proof.
  intros (l & Hl & Hp). unfold tracksOf.
  rewrite (bind_eq _ _ _ _ _ (readArray_eq _ _ _ Hl)). by apply readObjects_eq.
Qed.

Lemma push_eq h a l x :
  arrays h !! a = Some l -> push a x h = Some (tt, setArr a (l ++ [x]) h).
Proof.
  intros H. unfold push. rewrite (bind_eq _ _ _ _ _ (readArray_eq _ _ _ H)).
  by eapply writeArray_eq.
Qed.

Lemma splice1_eq h a l i :
  arrays h !! a = Some l -> splice1 a i h = Some (tt, setArr a (delete i l) h).
Proof.
  intros H. unfold splice1. rewrite (bind_eq _ _ _ _ _ (readArray_eq _ _ _ H)).
  by eapply writeArray_eq.
Qed.

Lemma element_eq h a l i x :
  arrays h !! a = Some l -> l !! i = Some x -> element a i h = Some (x, h).
Proof.
  intros H Hx. unfold element. rewrite (bind_eq _ _ _ _ _ (readArray_eq _ _ _ H)).
  by rewrite Hx.
Qed.

Lemma spread_eq h a l :
  arrays h !! a = Some l -> spread a h = Some (length (arrays h), addArr l h).
Proof.
  intros H. unfold spread. by rewrite (bind_eq _ _ _ _ _ (readArray_eq _ _ _ H)).
Qed.

Lemma slice_eq h a l n :
  arrays h !! a = Some l -> slice a n h = Some (length (arrays h), addArr (drop n l) h).
Proof.
  intros H. unfold slice. by rewrite (bind_eq _ _ _ _ _ (readArray_eq _ _ _ H)).
Qed.

Lemma lookup_setArr_same h a l :
  (a < length (arrays h))%nat -> arrays (setArr a l h) !! a = Some l.
Proof. intros H. cbn. by apply list_lookup_insert_eq. Qed.

Lemma lookup_setArr_other h a b l :
  a <> b -> arrays (setArr a l h) !! b = arrays h !! b.
Proof. intros H. cbn. by apply list_lookup_insert_ne. Qed.

Lemma lookup_addArr_old h l b :
  (b < length (arrays h))%nat -> arrays (addArr l h) !! b = arrays h !! b.
Proof. intros H. cbn. by apply lookup_app_l. Qed.

Lemma lookup_addArr_new h l : arrays (addArr l h) !! length (arrays h) = Some l.
Proof. cbn. by apply list_lookup_middle. Qed.

(** *** What a computation keeps *)

Lemma keeps_refl n h : keeps n h h.
Proof. by repeat split. Qed.

Lemma keeps_trans n h1 h2 h3 : keeps n h1 h2 -> keeps n h2 h3 -> keeps n h1 h3.
Proof.
  intros (A1 & L1 & O1) (A2 & L2 & O2). repeat split.
  - intros b Hb. rewrite A2, A1; auto.
  - lia.
  - by etransitivity.
Qed.

Lemma keeps_weaken n m h h' : (m <= n)%nat -> keeps n h h' -> keeps m h h'.
Proof. intros Hle (A & L & O). repeat split; auto. intros b Hb. apply A. lia. Qed.

Lemma keeps_setArr n h a l : (n <= a)%nat -> keeps n h (setArr a l h).
Proof.
  intros Hle. repeat split; cbn.
  - intros b Hb. apply list_lookup_insert_ne. lia.
  - by rewrite length_insert.
  - reflexivity.
Qed.

Lemma keeps_addArr n h l : (n <= length (arrays h))%nat -> keeps n h (addArr l h).
Proof.
  intros Hle. repeat split; cbn.
  - intros b Hb. apply lookup_app_l. lia.
  - rewrite length_app. lia.
  - reflexivity.
Qed.

Lemma keeps_addObj n h t : keeps n h (addObj t h).
Proof. repeat split; cbn; [lia|]. by apply prefix_app_r. Qed.

Lemma views_keeps n h h' a ts : keeps n h h' -> (a < n)%nat -> views h a ts -> views h' a ts.
Proof.
  intros (A & L & O) Ha (l & Hl & Hp). exists l. rewrite A by exact Ha.
  split; [exact Hl|]. by eapply points_prefix.
Qed.

Lemma views_bound h a ts : views h a ts -> (a < length (arrays h))%nat.
Proof. intros (l & Hl & _). by eapply lookup_lt_Some. Qed.

Lemma view_views h a ts : view h a = Some ts <-> views h a ts.
Proof.
  unfold view, views. split.
  - destruct (arrays h !! a) as [l|]; [|discriminate]. cbn. intros H.
    exists l. split; [reflexivity|]. by apply deref_points.
  - intros (l & -> & Hp). cbn. by apply deref_points.
Qed.

Lemma setArr_setArr h a l1 l2 : setArr a l2 (setArr a l1 h) = setArr a l2 h.
Proof. unfold setArr. cbn. by rewrite list_insert_insert_eq. Qed.

Lemma setArr_id h a l : arrays h !! a = Some l -> setArr a l h = h.
Proof. intros H. destruct h as [arrs objs]. unfold setArr. cbn in *. by rewrite list_insert_id. Qed.

(** *** Sorting an array in place *)

Section SortPairs.
Context (compare : Track -> Track -> Q).

Let comparePairs (x y : nat * Track) : Q := compare x.2 y.2.

Lemma sort_insert_snd p (ps : list (nat * Track)) :
  (Js.sort_insert comparePairs p ps).*2 = Js.sort_insert compare p.2 (ps.*2).
Proof.
  induction ps as [|q ps IH]; cbn; [reflexivity|].
  unfold comparePairs at 1. destruct (Qle_bool (compare p.2 q.2) 0); cbn; [reflexivity|].
  by rewrite IH.
Qed.

Lemma sort_snd (ps : list (nat * Track)) :
  (Js.sort comparePairs ps).*2 = Js.sort compare (ps.*2).
Proof.
  induction ps as [|p ps IH]; cbn; [reflexivity|].
  unfold Js.sort in *. by rewrite sort_insert_snd, IH.
Qed.

Lemma sortBy_eq h a l ts :
  arrays h !! a = Some l -> points (objects h) l ts ->
  exists l',
    sortBy compare a h = Some (tt, setArr a l' h) /\
    points (objects h) l' (Js.sort compare ts).
Proof.
  intros Hl Hp. destruct (points_zip _ _ _ Hp) as (H1 & H2 & Hall).
  exists ((Js.sort comparePairs (zip l ts)).*1). split.
  - unfold sortBy. rewrite (bind_eq _ _ _ _ _ (readArray_eq _ _ _ Hl)).
    rewrite (bind_eq _ _ _ _ _ (readObjects_eq _ _ _ Hp)).
    by eapply writeArray_eq.
  - rewrite <- H2 at 2. rewrite <- sort_snd. apply pairs_points.
    by rewrite sort_perm.
Qed.

End SortPairs.

(** *** The energy curve *)

Lemma energyMove_eq h sortedByEnergy result ls sortedT r resT up down goingUp :
  result <> sortedByEnergy ->
  arrays h !! sortedByEnergy = Some ls -> points (objects h) ls sortedT ->
  arrays h !! result = Some r -> points (objects h) r resT ->
  energyInv sortedT (resT, up, down, goingUp) ->
  (length resT < length sortedT)%nat ->
  exists r1,
    energyMove sortedByEnergy result up down goingUp h
      = Some (((energyStep (length sortedT) sortedT (resT, up, down, goingUp)).1.1.2,
               (energyStep (length sortedT) sortedT (resT, up, down, goingUp)).1.2),
              setArr result r1 h) /\
    points (objects h) r1 (energyStep (length sortedT) sortedT (resT, up, down, goingUp)).1.1.1.
Proof.
  intros Hne Hls Hps Hr Hpr (Hd & Hdu & Hu & Hlen) Hlt.
  pose proof (points_length _ _ _ Hps) as Hlens.
  unfold energyMove. rewrite (bind_eq _ _ _ _ _ (readArray_eq _ _ _ Hls)).
  unfold energyStep. rewrite Hlens.
  set (len := Z.of_nat (length sortedT)) in *.
  assert (Hpush : forall i, 0 <= i < len ->
            exists x t, ls !! Z.to_nat i = Some x /\ objects h !! x = Some t /\
                        pushAt resT sortedT i = (resT ++ [t])%list).
  { intros i Hi. destruct (lookup_lt_is_Some_2 sortedT (Z.to_nat i) ltac:(lia)) as [t Ht].
    destruct (points_lookup _ _ _ _ _ Hps Ht) as (x & Hx & Hobj).
    exists x, t. unfold pushAt. by rewrite Ht. }
  destruct (goingUp && (up <? len)) eqn:E1.
  - apply andb_true_iff in E1 as [_ E1]. apply Z.ltb_lt in E1.
    destruct (Hpush up ltac:(lia)) as (x & t & Hx & Hobj & ->).
    rewrite (bind_eq _ _ _ _ _ (element_eq _ _ _ _ _ Hls Hx)).
    rewrite (bind_eq _ _ _ _ _ (push_eq _ _ _ _ Hr)).
    eexists. split; [reflexivity|]. cbn. by apply points_snoc.
  - destruct (0 <=? down) eqn:E2.
    + apply Z.leb_le in E2.
      destruct (Hpush down ltac:(lia)) as (x & t & Hx & Hobj & ->).
      rewrite (bind_eq _ _ _ _ _ (element_eq _ _ _ _ _ Hls Hx)).
      rewrite (bind_eq _ _ _ _ _ (push_eq _ _ _ _ Hr)).
      eexists. split; [reflexivity|]. cbn. by apply points_snoc.
    + apply Z.leb_gt in E2. destruct (up <? len) eqn:E3.
      * apply Z.ltb_lt in E3.
        destruct (Hpush up ltac:(lia)) as (x & t & Hx & Hobj & ->).
        rewrite (bind_eq _ _ _ _ _ (element_eq _ _ _ _ _ Hls Hx)).
        rewrite (bind_eq _ _ _ _ _ (push_eq _ _ _ _ Hr)).
        eexists. split; [reflexivity|]. cbn. by apply points_snoc.
      * apply Z.ltb_ge in E3. exfalso. lia.
Qed.

Lemma energyStep_goingUp total sorted result up down goingUp :
  (energyStep total sorted (result, up, down, goingUp)).2 =
  (if goingUp && Qltb (inject_Z (Z.of_nat total) * (7 # 10))
        (inject_Z (Z.of_nat
           (length (energyStep total sorted (result, up, down, goingUp)).1.1.1)))
   then false else goingUp).
Proof.
  unfold energyStep.
  destruct (goingUp && (up <? Z.of_nat (length sorted))); [reflexivity|].
  destruct (0 <=? down); [reflexivity|].
  destruct (up <? Z.of_nat (length sorted)); reflexivity.
Qed.

Lemma energyLoop_sim sortedByEnergy result ls sortedT fuel :
  forall h r resT up down goingUp out,
    result <> sortedByEnergy ->
    arrays h !! sortedByEnergy = Some ls -> points (objects h) ls sortedT ->
    arrays h !! result = Some r -> points (objects h) r resT ->
    energyInv sortedT (resT, up, down, goingUp) ->
    Planner.energyLoop fuel (length sortedT) sortedT (resT, up, down, goingUp) = Some out ->
    exists r',
      energyLoop fuel (length sortedT) sortedByEnergy result up down goingUp h
        = Some (result, setArr result r' h) /\
      points (objects h) r' out.
Proof.
  induction fuel as [|fuel IH]; intros h r resT up down goingUp out Hne Hls Hps Hr Hpr Hinv Hpure.
  - cbn [Planner.energyLoop] in Hpure. cbn [energyLoop].
    rewrite (bind_eq _ _ _ _ _ (readArray_eq _ _ _ Hr)).
    rewrite (points_length _ _ _ Hpr).
    destruct (length resT <? length sortedT)%nat; [discriminate|].
    injection Hpure as <-. exists r. by rewrite (setArr_id _ _ _ Hr).
  - cbn [Planner.energyLoop] in Hpure. cbn [energyLoop].
    rewrite (bind_eq _ _ _ _ _ (readArray_eq _ _ _ Hr)).
    rewrite (points_length _ _ _ Hpr).
    destruct (length resT <? length sortedT)%nat eqn:Hlt.
    + apply Nat.ltb_lt in Hlt.
      destruct (energyMove_eq h sortedByEnergy result ls sortedT r resT up down goingUp
                  Hne Hls Hps Hr Hpr Hinv Hlt) as (r1 & Hmove & Hp1).
      destruct (energyStep_progress sortedT _ Hinv Hlt) as [Hinv1 _].
      pose proof (energyStep_goingUp (length sortedT) sortedT resT up down goingUp) as Hg.
      destruct (energyStep (length sortedT) sortedT (resT, up, down, goingUp))
        as [[[res1 up1] down1] g1] eqn:Hstep.
      cbn [fst snd] in *.
      rewrite (bind_eq _ _ _ _ _ Hmove). cbn [fst snd].
      assert (Hr1 : arrays (setArr result r1 h) !! result = Some r1).
      { apply lookup_setArr_same. by eapply lookup_lt_Some. }
      rewrite (bind_eq _ _ _ _ _ (readArray_eq _ _ _ Hr1)).
      rewrite (points_length _ _ _ Hp1), <- Hg.
      destruct (IH (setArr result r1 h) r1 res1 up1 down1 g1 out) as (r' & Hrun & Hp');
        auto.
      * by rewrite lookup_setArr_other.
      * exists r'. by rewrite Hrun, setArr_setArr.
    + injection Hpure as <-. exists r. by rewrite (setArr_id _ _ _ Hr).
Qed.

(** Lookups in a store that was built by writes and allocations. *)
Ltac store_len :=
  repeat first [rewrite length_insert | rewrite length_app]; cbn [length]; lia.

Ltac store_simpl :=
  cbn [arrays objects setArr addArr addObj];
  repeat first
    [ rewrite length_insert
    | rewrite length_app; cbn [length]
    | rewrite list_lookup_insert_eq by store_len
    | rewrite list_lookup_insert_ne by lia
    | rewrite lookup_app_l by store_len
    | rewrite list_lookup_middle by store_len ].

Lemma createEnergyCurve_sim h tracks ts out :
  views h tracks ts -> ts <> [] ->
  Planner.createEnergyCurve ts = Some out ->
  exists r h',
    createEnergyCurve tracks h = Some (r, h') /\
    keeps (length (arrays h)) h h' /\ views h' r out.
Proof.
  intros (l & Hl & Hp) Hne Hpure.
  pose proof (lookup_lt_Some _ _ _ Hl) as Hbound.
  pose proof (points_length _ _ _ Hp) as Hlen.
  remember (length (arrays h)) as n eqn:Hn.
  unfold createEnergyCurve.
  rewrite (bind_eq _ _ _ _ _ (spread_eq _ _ _ Hl)). rewrite <- Hn.
  set (compare := fun a b : Track => inject_Z (energyOf a - energyOf b)).
  destruct (sortBy_eq compare (addArr l h) n l ts) as (l' & Hsort & Hp').
  { store_simpl. reflexivity. }
  { exact Hp. }
  rewrite (bind_eq _ _ _ _ _ Hsort).
  unfold allocArray at 1. unfold mbind at 1, M_bind at 1.
  set (h3 := addArr [] (setArr n l' (addArr l h))).
  assert (Hn3 : length (arrays (setArr n l' (addArr l h))) = S n) by (store_simpl; lia).
  rewrite Hn3.
  assert (Hs3 : arrays h3 !! n = Some l') by (subst h3; store_simpl; reflexivity).
  rewrite (bind_eq _ _ _ _ _ (readArray_eq _ _ _ Hs3)).
  unfold Planner.createEnergyCurve in Hpure. fold compare in Hpure.
  set (sortedT := Js.sort compare ts) in *.
  assert (HlenS : length sortedT = length ts) by apply sort_length.
  pose proof (points_length _ _ _ Hp') as Hlen'.
  rewrite Hlen'.
  set (midpoint := Z.of_nat (length sortedT) / 2) in *.
  assert (Hpos : (0 < length ts)%nat) by (destruct ts; [congruence|cbn; lia]).
  assert (Hmid : 0 <= midpoint < Z.of_nat (length sortedT)).
  { subst midpoint. split; [apply Z.div_pos; lia|apply Z.div_lt_upper_bound; lia]. }
  destruct (lookup_lt_is_Some_2 sortedT (Z.to_nat midpoint) ltac:(lia)) as [t Ht].
  destruct (points_lookup _ _ _ _ _ Hp' Ht) as (x & Hx & Hobj).
  rewrite (bind_eq _ _ _ _ _ (element_eq _ _ _ _ _ Hs3 Hx)).
  assert (Hr3 : arrays h3 !! S n = Some []) by (subst h3; store_simpl; reflexivity).
  rewrite (bind_eq _ _ _ _ _ (push_eq _ _ _ _ Hr3)). cbn [app].
  set (h4 := setArr (S n) [x] h3).
  assert (Ht4 : arrays h4 !! tracks = Some l) by (subst h4 h3; store_simpl; exact Hl).
  rewrite (bind_eq _ _ _ _ _ (readArray_eq _ _ _ Ht4)).
  rewrite Hlen, <- HlenS. rewrite <- HlenS in Hpure.
  unfold pushAt in Hpure. rewrite Ht in Hpure. cbn [option_list app] in Hpure.
  destruct (energyLoop_sim n (S n) l' sortedT (length sortedT) h4 [x] [t]
              (midpoint + 1) (midpoint - 1) true out) as (r' & Hrun & Hpr'); auto.
  - subst h4 h3. store_simpl. reflexivity.
  - subst h4 h3. store_simpl. reflexivity.
  - repeat constructor. exact Hobj.
  - cbn [energyInv length]. lia.
  - rewrite Hrun. eexists _, _. split; [reflexivity|]. split.
    + subst h4 h3. repeat split; store_simpl; try lia; try reflexivity.
      intros b Hb. store_simpl. reflexivity.
    + exists r'. split; [|exact Hpr']. subst h4 h3. store_simpl. reflexivity.
Qed.

(** *** The greedy orderings *)

Lemma touches_refl a b h : touches a b h h.
Proof. by repeat split. Qed.

Lemma touches_trans a b h1 h2 h3 :
  touches a b h1 h2 -> touches a b h2 h3 -> touches a b h1 h3.
Proof.
  intros (O1 & L1 & A1) (O2 & L2 & A2). repeat split; [congruence|congruence|].
  intros c Ha Hb. rewrite A2, A1; auto.
Qed.

Lemma touches_setArr_l a b l h : touches a b h (setArr a l h).
Proof.
  repeat split; cbn; [by rewrite length_insert|].
  intros c Ha _. by apply list_lookup_insert_ne.
Qed.

Lemma touches_setArr_r a b l h : touches a b h (setArr b l h).
Proof.
  repeat split; cbn; [by rewrite length_insert|].
  intros c _ Hb. by apply list_lookup_insert_ne.
Qed.

Lemma touches_keeps n a b h h' :
  (n <= a)%nat -> (n <= b)%nat -> touches a b h h' -> keeps n h h'.
Proof.
  intros Ha Hb (O & L & A). repeat split.
  - intros c Hc. apply A; lia.
  - lia.
  - by rewrite O.
Qed.

Lemma points_nil_inv objs l : points objs l [] -> l = [].
Proof. by inversion 1. Qed.

Lemma greedyLoop_sim choose result remaining fuel :
  result <> remaining ->
  (forall lastTrack candidates,
     candidates <> [] -> (choose lastTrack candidates < length candidates)%nat) ->
  forall h r resT rem remT out,
    arrays h !! result = Some r -> points (objects h) r resT ->
    arrays h !! remaining = Some rem -> points (objects h) rem remT ->
    Planner.greedyLoop choose fuel resT remT = Some out ->
    exists h' r',
      greedyLoop choose fuel result remaining h = Some (result, h') /\
      touches result remaining h h' /\
      arrays h' !! result = Some r' /\ points (objects h) r' out.
Proof.
  intros Hne Hchoose.
  induction fuel as [|fuel IH]; intros h r resT rem remT out Hr Hpr Hrem Hprem Hpure.
  - destruct remT as [|t0 remT'].
    + apply points_nil_inv in Hprem as ->. cbn in Hpure. injection Hpure as <-.
      cbn [greedyLoop]. rewrite (bind_eq _ _ _ _ _ (readArray_eq _ _ _ Hrem)).
      exists h, r. split; [reflexivity|]. split; [apply touches_refl|]. by split.
    + discriminate.
  - destruct remT as [|t0 remT'].
    + apply points_nil_inv in Hprem as ->. cbn in Hpure. injection Hpure as <-.
      cbn [greedyLoop]. rewrite (bind_eq _ _ _ _ _ (readArray_eq _ _ _ Hrem)).
      exists h, r. split; [reflexivity|]. split; [apply touches_refl|]. by split.
    + cbn [Planner.greedyLoop] in Hpure.
      destruct (last resT) as [lastTrack|] eqn:Hlast; [|discriminate].
      set (remT := t0 :: remT') in *.
      assert (Hb : (choose lastTrack remT < length remT)%nat) by (by apply Hchoose).
      destruct (lookup_lt_is_Some_2 remT _ Hb) as [t Ht].
      destruct (points_lookup _ _ _ _ _ Hprem Ht) as (x & Hx & Hobj).
      unfold pushAt in Hpure. rewrite Nat2Z.id, Ht in Hpure.
      change (option_list (Some t)) with [t] in Hpure.
      cbn [greedyLoop]. rewrite (bind_eq _ _ _ _ _ (readArray_eq _ _ _ Hrem)).
      destruct rem as [|x0 rem']; [inversion Hprem|].
      set (rem := x0 :: rem') in *.
      rewrite (bind_eq _ _ _ _ _ (tracksOf_eq h result resT (ex_intro _ r (conj Hr Hpr)))).
      rewrite (bind_eq _ _ _ _ _ (readObjects_eq _ _ _ Hprem)).
      rewrite Hlast.
      rewrite (bind_eq _ _ _ _ _ (element_eq _ _ _ _ _ Hrem Hx)).
      rewrite (bind_eq _ _ _ _ _ (push_eq _ _ _ _ Hr)).
      set (h1 := setArr result (r ++ [x]) h).
      assert (Hrem1 : arrays h1 !! remaining = Some rem).
      { subst h1. rewrite lookup_setArr_other by exact Hne. exact Hrem. }
      rewrite (bind_eq _ _ _ _ _ (splice1_eq _ _ _ _ Hrem1)).
      set (h2 := setArr remaining (delete (choose lastTrack remT) rem) h1).
      destruct (IH h2 (r ++ [x]) (resT ++ [t])
                  (delete (choose lastTrack remT) rem)
                  (delete (choose lastTrack remT) remT) out)
        as (h' & r' & Hrun & Htouch & Hr' & Hp'); auto.
      * subst h2 h1. rewrite lookup_setArr_other by congruence.
        apply lookup_setArr_same. by eapply lookup_lt_Some.
      * by apply points_snoc.
      * subst h2. apply lookup_setArr_same. subst h1. cbn. rewrite length_insert.
        by eapply lookup_lt_Some.
      * by apply points_delete.
      * exists h', r'. split; [exact Hrun|]. split; [|by split].
        eapply touches_trans; [|exact Htouch].
        eapply touches_trans; [apply (touches_setArr_l result remaining)|].
        apply touches_setArr_r.
Qed.

Lemma filter_snd (p : Track -> Prop) `{forall t, Decision (p t)} (ps : list (nat * Track)) :
  (filter (fun x => p x.2) ps).*2 = filter p (ps.*2).
Proof.
  induction ps as [|q ps IH]; [reflexivity|].
  cbn [fmap list_fmap]. rewrite !filter_cons.
  destruct (decide (p q.2)); cbn; by rewrite IH.
Qed.

Lemma filterBy_eq (p : Track -> Prop) `{forall t, Decision (p t)} h a l ts :
  arrays h !! a = Some l -> points (objects h) l ts ->
  exists l',
    filterBy p a h = Some (length (arrays h), addArr l' h) /\
    points (objects h) l' (filter p ts).
Proof.
  intros Hl Hp. destruct (points_zip _ _ _ Hp) as (H1 & H2 & Hall).
  exists ((filter (fun x => p x.2) (zip l ts)).*1). split.
  - unfold filterBy. rewrite (bind_eq _ _ _ _ _ (readArray_eq _ _ _ Hl)).
    by rewrite (bind_eq _ _ _ _ _ (readObjects_eq _ _ _ Hp)).
  - rewrite <- H2 at 2. rewrite <- filter_snd. apply pairs_points.
    apply Forall_forall. intros x Hx. apply list_elem_of_filter in Hx as [_ Hx].
    rewrite Forall_forall in Hall. by apply Hall.
Qed.

Lemma minimizeBpmJumps_sim h tracks ts out :
  views h tracks ts -> ts <> [] ->
  Planner.minimizeBpmJumps ts = Some out ->
  exists r h',
    minimizeBpmJumps tracks h = Some (r, h') /\
    keeps (length (arrays h)) h h' /\ views h' r out.
Proof.
  intros (l & Hl & Hp) Hne Hpure.
  pose proof (lookup_lt_Some _ _ _ Hl) as Hbound.
  pose proof (points_length _ _ _ Hp) as Hlen.
  remember (length (arrays h)) as n eqn:Hn.
  unfold minimizeBpmJumps.
  rewrite (bind_eq _ _ _ _ _ (spread_eq _ _ _ Hl)). rewrite <- Hn.
  set (compare := fun a b : Track => (default 0 (t_bpm a) - default 0 (t_bpm b))%Q).
  destruct (sortBy_eq compare (addArr l h) n l ts) as (l' & Hsort & Hp').
  { store_simpl. reflexivity. }
  { exact Hp. }
  rewrite (bind_eq _ _ _ _ _ Hsort).
  unfold Planner.minimizeBpmJumps in Hpure. fold compare in Hpure.
  set (sortedT := Js.sort compare ts) in *.
  assert (HlenS : length sortedT = length ts) by apply sort_length.
  assert (Hpos : (0 < length sortedT)%nat).
  { rewrite HlenS. destruct ts; [congruence|cbn; lia]. }
  destruct (lookup_lt_is_Some_2 sortedT 0 Hpos) as [t Ht].
  destruct (points_lookup _ _ _ _ _ Hp' Ht) as (x & Hx & Hobj).
  set (h2 := setArr n l' (addArr l h)) in *.
  assert (Hs2 : arrays h2 !! n = Some l') by (subst h2; store_simpl; reflexivity).
  rewrite (bind_eq _ _ _ _ _ (element_eq _ _ _ _ _ Hs2 Hx)).
  unfold allocArray at 1. unfold mbind at 1, M_bind at 1.
  assert (Hn2 : length (arrays h2) = S n) by (subst h2; store_simpl; lia).
  rewrite Hn2.
  set (h3 := addArr [x] h2).
  assert (Hs3 : arrays h3 !! n = Some l') by (subst h3 h2; store_simpl; reflexivity).
  rewrite (bind_eq _ _ _ _ _ (slice_eq _ _ _ 1 Hs3)).
  assert (Hn3 : length (arrays h3) = S (S n)) by (subst h3 h2; store_simpl; lia).
  rewrite Hn3.
  set (h4 := addArr (drop 1 l') h3).
  assert (Ht4 : arrays h4 !! tracks = Some l) by (subst h4 h3 h2; store_simpl; exact Hl).
  rewrite (bind_eq _ _ _ _ _ (readArray_eq _ _ _ Ht4)).
  rewrite Hlen.
  unfold pushAt in Hpure. change (Z.to_nat 0) with 0%nat in Hpure. rewrite Ht in Hpure.
  change (option_list (Some t)) with [t] in Hpure. cbn [app] in Hpure.
  destruct (greedyLoop_sim
              (fun lastTrack candidates => closestBpm lastTrack candidates 0 None 0)
              (S n) (S (S n)) (length ts) ltac:(lia)
              (fun lastTrack candidates => closestBpm_in_range lastTrack candidates)
              h4 [x] [t] (drop 1 l') (drop 1 sortedT) out)
    as (h' & r' & Hrun & Htouch & Hr' & Hpr'); auto.
  - subst h4 h3 h2. store_simpl. reflexivity.
  - repeat constructor. exact Hobj.
  - subst h4 h3 h2. store_simpl. reflexivity.
  - by apply points_drop.
  - rewrite Hrun. exists (S n), h'. split; [reflexivity|]. split.
    + eapply keeps_trans; [|eapply (touches_keeps n); [| |exact Htouch]; lia].
      subst h4 h3 h2. repeat split; store_simpl; try lia; try reflexivity.
      intros b Hb. store_simpl. reflexivity.
    + exists r'. split; [exact Hr'|]. destruct Htouch as (-> & _). exact Hpr'.
Qed.

Lemma allocArray_eq l h : allocArray l h = Some (length (arrays h), addArr l h).
Proof. reflexivity. Qed.

Lemma keeps_by_watermark n h h' :
  objects h' = objects h ->
  (forall b, (b < n)%nat -> arrays h' !! b = arrays h !! b) ->
  (length (arrays h) <= length (arrays h'))%nat ->
  keeps n h h'.
Proof. intros O A L. repeat split; auto. by rewrite O. Qed.

Lemma harmonicMixing_sim h tracks ts out :
  views h tracks ts -> ts <> [] ->
  Planner.harmonicMixing ts = Some out ->
  exists r h',
    harmonicMixing tracks h = Some (r, h') /\
    keeps (length (arrays h)) h h' /\ views h' r out.
Proof.
  intros (l & Hl & Hp) Hne Hpure.
  pose proof (lookup_lt_Some _ _ _ Hl) as Hbound.
  pose proof (points_length _ _ _ Hp) as Hlen.
  remember (length (arrays h)) as n eqn:Hn.
  unfold harmonicMixing.
  destruct (filterBy_eq (fun t => hasKey t = true) h tracks l ts Hl Hp) as (lk & Hfilter & Hpk).
  rewrite (bind_eq _ _ _ _ _ Hfilter). rewrite <- Hn.
  set (h1 := addArr lk h).
  assert (Hk1 : arrays h1 !! n = Some lk) by (subst h1; store_simpl; reflexivity).
  rewrite (bind_eq _ _ _ _ _ (readArray_eq _ _ _ Hk1)).
  assert (Ht1 : arrays h1 !! tracks = Some l) by (subst h1; store_simpl; exact Hl).
  rewrite (bind_eq _ _ _ _ _ (readArray_eq _ _ _ Ht1)).
  unfold Planner.harmonicMixing in Hpure.
  set (withKeys := filter (fun t => hasKey t = true) ts) in *.
  rewrite (points_length _ _ _ Hpk), Hlen.
  destruct (Qltb _ _) eqn:Hfew.
  - injection Hpure as <-. exists tracks, h1. split; [reflexivity|]. split.
    + subst h1. apply keeps_addArr. lia.
    + exists l. split; [exact Ht1|exact Hp].
  - assert (Hk : withKeys <> []).
    { intros E. rewrite E in Hfew. unfold Qltb in Hfew.
      destruct (Qlt_le_dec _ _) as [|Hle]; [discriminate|].
      destruct ts as [|t0 ts0]; [congruence|].
      cbn [length] in Hle. revert Hle.
      unfold Qle, Qmult, inject_Z. cbn [Qnum Qden]. lia. }
    assert (Hpos : (0 < length withKeys)%nat) by (destruct withKeys; [congruence|cbn; lia]).
    destruct (lookup_lt_is_Some_2 withKeys 0 Hpos) as [t Ht].
    destruct (points_lookup _ _ _ _ _ Hpk Ht) as (x & Hx & Hobj).
    rewrite (bind_eq _ _ _ _ _ (element_eq _ _ _ _ _ Hk1 Hx)).
    rewrite (bind_eq _ _ _ _ _ (allocArray_eq [x] h1)).
    assert (Hn1 : length (arrays h1) = S n) by (subst h1; store_simpl; lia).
    rewrite Hn1.
    set (h2 := addArr [x] h1).
    assert (Hk2 : arrays h2 !! n = Some lk) by (subst h2 h1; store_simpl; reflexivity).
    rewrite (bind_eq _ _ _ _ _ (slice_eq _ _ _ 1 Hk2)).
    assert (Hn2 : length (arrays h2) = S (S n)) by (subst h2 h1; store_simpl; lia).
    rewrite Hn2.
    set (h3 := addArr (drop 1 lk) h2).
    unfold pushAt in Hpure. change (Z.to_nat 0) with 0%nat in Hpure. rewrite Ht in Hpure.
    change (option_list (Some t)) with [t] in Hpure. cbn [app] in Hpure.
    destruct (Planner.greedyLoop _ _ _ _) as [ordered|] eqn:Hloop; [|discriminate].
    injection Hpure as <-.
    destruct (greedyLoop_sim
                (fun lastTrack candidates => bestHarmonic lastTrack candidates 0 (-1) 0)
                (S n) (S (S n)) (length ts) ltac:(lia)
                (fun lastTrack candidates => bestHarmonic_in_range lastTrack candidates)
                h3 [x] [t] (drop 1 lk) (drop 1 withKeys) ordered)
      as (h4 & r' & Hrun & Htouch & Hr' & Hpr'); auto.
    { subst h3 h2 h1. store_simpl. reflexivity. }
    { repeat constructor. exact Hobj. }
    { subst h3 h2 h1. store_simpl. reflexivity. }
    { by apply points_drop. }
    rewrite (bind_eq _ _ _ _ _ Hrun).
    destruct Htouch as (Hobj4 & Hlen4 & Harr4).
    assert (Hn3 : length (arrays h3) = S (S (S n))) by (subst h3 h2 h1; store_simpl; lia).
    assert (Ht4 : arrays h4 !! tracks = Some l).
    { rewrite Harr4 by lia. subst h3 h2 h1. store_simpl. exact Hl. }
    assert (Hp4 : points (objects h4) l ts) by (rewrite Hobj4; exact Hp).
    destruct (filterBy_eq (fun t => hasKey t = false) h4 tracks l ts Ht4 Hp4)
      as (lm & Hfilter2 & Hpm).
    rewrite (bind_eq _ _ _ _ _ Hfilter2). rewrite Hlen4, Hn3.
    set (h5 := addArr lm h4).
    assert (Hr5 : arrays h5 !! S n = Some r').
    { subst h5. store_simpl. exact Hr'. }
    rewrite (bind_eq _ _ _ _ _ (readArray_eq _ _ _ Hr5)).
    assert (Hm5 : arrays h5 !! S (S (S n)) = Some lm).
    { subst h5. cbn [arrays addArr]. rewrite <- Hn3, <- Hlen4. apply list_lookup_middle.
      reflexivity. }
    rewrite (bind_eq _ _ _ _ _ (readArray_eq _ _ _ Hm5)).
    eexists _, _. split; [reflexivity|]. split.
    + apply keeps_by_watermark.
      * subst h5. cbn. exact Hobj4.
      * intros b Hb. subst h5. cbn [arrays addArr].
        rewrite lookup_app_l by (rewrite ?length_app, ?Hlen4, ?Hn3; cbn [length]; lia).
        rewrite lookup_app_l by (rewrite ?Hlen4, ?Hn3; lia).
        rewrite Harr4 by lia. subst h3 h2 h1. store_simpl. reflexivity.
      * subst h5. cbn [arrays addArr]. rewrite !length_app, Hlen4, Hn3. lia.
    + exists (r' ++ lm). split.
      * subst h5. cbn [arrays addArr]. apply list_lookup_middle.
        rewrite length_app, Hlen4, Hn3. cbn. lia.
      * subst h5. cbn [objects addArr]. apply Forall2_app.
        -- rewrite Hobj4. exact Hpr'.
        -- exact Hpm.
Qed.

(** *** Copies, votes and placement *)

Lemma copyScored_eq l ts : forall h,
  points (objects h) l ts ->
  exists l' h',
    copyScored l h = Some (l', h') /\
    arrays h' = arrays h /\
    objects h' = objects h ++ (scored <$> ts) /\
    points (objects h') l' (scored <$> ts).
Proof.
  intros h Hp. revert h Hp.
  assert (Hgen : forall l ts, Forall2 (fun _ _ => True) l ts -> forall h,
            points (objects h) l ts ->
            exists l' h',
              copyScored l h = Some (l', h') /\
              arrays h' = arrays h /\
              objects h' = objects h ++ (scored <$> ts) /\
              points (objects h') l' (scored <$> ts)).
  { clear l ts. induction 1 as [|o t l ts _ _ IH]; intros h Hp.
    - exists [], h. cbn. rewrite app_nil_r. repeat split. constructor.
    - assert (Ho : objects h !! o = Some t) by (by inversion Hp).
      assert (Hrest : points (objects h) l ts) by (by inversion Hp).
      cbn [copyScored].
      assert (H1 : points (objects h) [o] [t]) by (by repeat constructor).
      rewrite (bind_eq _ _ _ _ _ (readObjects_eq _ _ _ H1)).
      unfold allocObject. unfold mbind at 1, M_bind at 1.
      destruct (IH (addObj (scored t) h)) as (l' & h' & Hrun & Harr & Hobj & Hp').
      { cbn. by apply points_grow. }
      rewrite (bind_eq _ _ _ _ _ Hrun). cbn in Harr, Hobj.
      eexists _, _. split; [reflexivity|]. split; [exact Harr|]. split.
      + rewrite Hobj. cbn. by rewrite <- app_assoc.
      + cbn. constructor; [|exact Hp'].
        rewrite Hobj. rewrite <- app_assoc. cbn. by apply list_lookup_middle. }
  intros h Hp. apply Hgen; [|exact Hp].
  eapply Forall2_impl; [exact Hp|]. done.
Qed.

Lemma pickBestRef_sim scores usedTracks position objs l ts :
  points objs l ts ->
  forall bestScore (bestTrack : option (nat * Track)),
    (forall p, bestTrack = Some p -> objs !! p.1 = Some p.2) ->
    match pickBestRef scores usedTracks position (zip l ts) bestScore bestTrack with
    | Some p =>
        pickBest scores usedTracks position ts bestScore (snd <$> bestTrack) = Some p.2 /\
        objs !! p.1 = Some p.2
    | None =>
        pickBest scores usedTracks position ts bestScore (snd <$> bestTrack) = None
    end.
Proof.
  induction 1 as [|o t l ts Ho _ IH]; intros bestScore bestTrack Hbest.
  - cbn. destruct bestTrack as [p|]; cbn; [|reflexivity]. split; [reflexivity|by apply Hbest].
  - cbn [zip zip_with pickBestRef pickBest snd].
    destruct (scoreAt scores t position) as [score|].
    + destruct (negb (bool_decide (t_id t ∈ usedTracks)) && (bestScore <? score)).
      * apply (IH score (Some (o, t))). intros p Hp. injection Hp as <-. exact Ho.
      * by apply IH.
    + by apply IH.
Qed.

Lemma place_sim scores result l tracksT n :
  forall h position r resT usedTracks outT outUsed,
    points (objects h) l tracksT ->
    arrays h !! result = Some r -> points (objects h) r resT ->
    Planner.place scores tracksT position n resT usedTracks = (outT, outUsed) ->
    exists r',
      place scores (zip l tracksT) position n result usedTracks h
        = Some (outUsed, setArr result r' h) /\
      points (objects h) r' outT.
Proof.
  induction n as [|n IH]; intros h position r resT usedTracks outT outUsed Hl Hr Hpr Hpure.
  - cbn in Hpure. injection Hpure as <- <-. exists r. cbn.
    rewrite (setArr_id _ _ _ Hr). by split.
  - cbn [Planner.place] in Hpure. cbn [place].
    pose proof (pickBestRef_sim scores usedTracks position (objects h) l tracksT Hl (-1) None)
      as Hpick.
    change (@fmap option _ _ _ snd None) with (@None Track) in Hpick.
    destruct (pickBestRef scores usedTracks position (zip l tracksT) (-1) None)
      as [[o t]|].
    + destruct Hpick as [Hpick Ho]; [discriminate|].
      cbn [fst snd] in *. rewrite Hpick in Hpure.
      rewrite (bind_eq _ _ _ _ _ (push_eq _ _ _ _ Hr)).
      destruct (IH (setArr result (r ++ [o]) h) (S position) (r ++ [o]) (resT ++ [t])
                  (usedTracks ++ [t_id t]) outT outUsed) as (r' & Hrun & Hp'); auto.
      * apply lookup_setArr_same. by eapply lookup_lt_Some.
      * by apply points_snoc.
      * exists r'. by rewrite Hrun, setArr_setArr.
    + rewrite Hpick in Hpure; [|discriminate]. by eapply IH.
Qed.

Lemma pushUnused_sim usedTracks result objs l ts :
  points objs l ts ->
  forall h r resT,
    objects h = objs -> arrays h !! result = Some r -> points objs r resT ->
    exists r',
      pushUnused (zip l ts) usedTracks result h = Some (tt, setArr result r' h) /\
      points objs r' (resT ++ filter (fun track => t_id track ∉ usedTracks) ts).
Proof.
  induction 1 as [|o t l ts Ho _ IH]; intros h r resT Hobj Hr Hpr.
  - exists r. cbn. rewrite (setArr_id _ _ _ Hr), app_nil_r. by split.
  - cbn [zip zip_with pushUnused snd fst]. rewrite filter_cons.
    destruct (decide (t_id t ∉ usedTracks)) as [Hfree|Hused].
    + rewrite bool_decide_eq_false_2 by exact Hfree.
      rewrite (bind_eq _ _ _ _ _ (push_eq _ _ _ _ Hr)).
      destruct (IH (setArr result (r ++ [o]) h) (r ++ [o]) (resT ++ [t])) as (r' & Hrun & Hp');
        auto.
      * apply lookup_setArr_same. by eapply lookup_lt_Some.
      * by apply points_snoc.
      * exists r'. rewrite Hrun, setArr_setArr. split; [reflexivity|].
        by rewrite <- app_assoc in Hp'.
    + rewrite bool_decide_eq_true_2 by (by apply dec_stable).
      by apply (IH h r resT).
Qed.

(** *** The whole function *)

Lemma keeps_length n h h' : keeps n h h' -> (length (arrays h) <= length (arrays h'))%nat.
Proof. by intros (_ & L & _). Qed.

Lemma views_addArr h a ts l : views h a ts -> views (addArr l h) a ts.
Proof.
  intros Hv. pose proof (views_bound _ _ _ Hv) as Hb.
  eapply views_keeps; [apply (keeps_addArr (length (arrays h))); lia| |]; eauto.
Qed.

(** [Store.calculateMixOrder] computes what [Planner.calculateMixOrder]
    computes, in a new array, and keeps every array and object that existed
    before the call. *)
Lemma calculateMixOrder_sim h analyzedTracks ts out :
  views h analyzedTracks ts ->
  Planner.calculateMixOrder ts = Some out ->
  exists r h',
    calculateMixOrder analyzedTracks h = Some (r, h') /\
    keeps (length (arrays h)) h h' /\ views h' r out.
Proof.
  intros (l & Hl & Hp) Hpure.
  pose proof (lookup_lt_Some _ _ _ Hl) as Hbound.
  pose proof (points_length _ _ _ Hp) as Hlen.
  remember (length (arrays h)) as n eqn:Hn.
  unfold calculateMixOrder.
  rewrite (bind_eq _ _ _ _ _ (readArray_eq _ _ _ Hl)). rewrite Hlen.
  unfold Planner.calculateMixOrder in Hpure.
  destruct (length ts <? 3)%nat eqn:Hshort.
  - injection Hpure as <-.
    rewrite (bind_eq _ _ _ _ _ (spread_eq _ _ _ Hl)). rewrite <- Hn.
    set (compare := fun a b : Track => (orQ (t_bpm a) 120 - orQ (t_bpm b) 120)%Q).
    destruct (sortBy_eq compare (addArr l h) n l ts) as (l' & Hsort & Hp').
    { store_simpl. reflexivity. }
    { exact Hp. }
    rewrite (bind_eq _ _ _ _ _ Hsort).
    eexists _, _. split; [reflexivity|]. split.
    + repeat split; store_simpl; try lia; try reflexivity.
      intros b Hb. store_simpl. reflexivity.
    + exists l'. split; [store_simpl; reflexivity|exact Hp'].
  - apply Nat.ltb_ge in Hshort.
    rewrite (bind_eq _ _ _ _ _ (readObjects_eq _ _ _ Hp)).
    set (hasAdvancedAnalysis :=
           existsb (fun t => bool_decide (is_Some (t_advancedAnalysis t))) ts) in *.
    rewrite (bind_eq _ _ _ _ _ (spread_eq _ _ _ Hl)). rewrite <- Hn.
    set (h1 := addArr l h).
    assert (Hc1 : arrays h1 !! n = Some l) by (subst h1; store_simpl; reflexivity).
    rewrite (bind_eq _ _ _ _ _ (readArray_eq _ _ _ Hc1)).
    destruct (copyScored_eq l ts h1) as (l2 & h2 & Hcopy & Harr2 & Hobj2 & Hp2).
    { exact Hp. }
    rewrite (bind_eq _ _ _ _ _ Hcopy).
    rewrite (bind_eq _ _ _ _ _ (allocArray_eq l2 h2)).
    assert (Hn2 : length (arrays h2) = S n) by (rewrite Harr2; subst h1; store_simpl; lia).
    rewrite Hn2.
    set (h3 := addArr l2 h2).
    set (tracksT := scored <$> ts) in *.
    assert (HneT : tracksT <> []).
    { subst tracksT. destruct ts; [cbn in Hshort; lia|discriminate]. }
    assert (Hn3 : length (arrays h3) = S (S n)) by (subst h3; store_simpl; lia).
    assert (Hv3 : views h3 (S n) tracksT).
    { exists l2. split; [|exact Hp2]. subst h3. cbn [arrays addArr].
      rewrite <- Hn2. by apply list_lookup_middle. }
    assert (Hk03 : keeps n h h3).
    { repeat split.
      - intros b Hb. subst h3. cbn [arrays addArr]. rewrite Harr2. subst h1. store_simpl.
        reflexivity.
      - lia.
      - subst h3. cbn [objects addArr]. rewrite Hobj2. subst h1. cbn. by apply prefix_app_r. }
    destruct (Planner.createEnergyCurve tracksT) as [outE|] eqn:HE; [|discriminate].
    destruct (Planner.minimizeBpmJumps tracksT) as [outB|] eqn:HB; [|discriminate].
    destruct (if hasAdvancedAnalysis then Planner.harmonicMixing tracksT else Some tracksT)
      as [outK|] eqn:HK; [|discriminate].
    destruct (createEnergyCurve_sim h3 (S n) tracksT outE Hv3 HneT HE)
      as (e & h4 & Hrun4 & Hk4 & Hv4).
    rewrite (bind_eq _ _ _ _ _ Hrun4).
    assert (Hvt4 : views h4 (S n) tracksT) by (eapply views_keeps; eauto; lia).
    destruct (minimizeBpmJumps_sim h4 (S n) tracksT outB Hvt4 HneT HB)
      as (b & h5 & Hrun5 & Hk5 & Hv5).
    rewrite (bind_eq _ _ _ _ _ Hrun5).
    pose proof (keeps_length _ _ _ Hk4) as HL4.
    pose proof (keeps_length _ _ _ Hk5) as HL5.
    assert (Hvt5 : views h5 (S n) tracksT) by (eapply views_keeps; eauto; lia).
    assert (Hve5 : views h5 e outE).
    { eapply views_keeps; eauto. by eapply views_bound. }
    assert (Hharm : exists k h6,
               (if hasAdvancedAnalysis then harmonicMixing (S n) else mret (S n)) h5
                 = Some (k, h6) /\
               keeps (length (arrays h5)) h5 h6 /\ views h6 k outK).
    { destruct hasAdvancedAnalysis.
      - exact (harmonicMixing_sim h5 (S n) tracksT outK Hvt5 HneT HK).
      - injection HK as <-. exists (S n), h5. split; [reflexivity|].
        split; [apply keeps_refl|exact Hvt5]. }
    destruct Hharm as (k & h6 & Hrun6 & Hk6 & Hv6).
    rewrite (bind_eq _ _ _ _ _ Hrun6).
    pose proof (keeps_length _ _ _ Hk6) as HL6.
    assert (Hvt6 : views h6 (S n) tracksT) by (eapply views_keeps; eauto; lia).
    assert (Hve6 : views h6 e outE).
    { eapply views_keeps; eauto. by eapply views_bound. }
    assert (Hvb6 : views h6 b outB).
    { eapply views_keeps; eauto. by eapply views_bound. }
    destruct Hvt6 as (l2' & Hl2' & Hp2').
    rewrite (bind_eq _ _ _ _ _ (spread_eq _ _ _ Hl2')).
    set (h7 := addArr l2' h6).
    assert (Hvt7 : views h7 (S n) tracksT).
    { apply views_addArr. by exists l2'. }
    rewrite (bind_eq _ _ _ _ _ (tracksOf_eq _ _ _ Hvt7)).
    rewrite (bind_eq _ _ _ _ _ (tracksOf_eq _ _ _ (views_addArr _ _ _ l2' Hve6))).
    rewrite (bind_eq _ _ _ _ _ (tracksOf_eq _ _ _ (views_addArr _ _ _ l2' Hvb6))).
    rewrite (bind_eq _ _ _ _ _ (tracksOf_eq _ _ _ (views_addArr _ _ _ l2' Hv6))).
    set (scores := fold_left _ tracksT ∅) in *.
    rewrite (bind_eq _ _ _ _ _ (allocArray_eq [] h7)).
    set (m := length (arrays h7)).
    set (h8 := addArr [] h7).
    destruct (Planner.place scores tracksT 0 (length tracksT) [] [])
      as [resT usedTracks] eqn:Hplace.
    injection Hpure as <-.
    assert (Hobj8 : objects h2 `prefix_of` objects h8).
    { subst h8 h7. cbn [objects addArr].
      destruct Hk4 as (_ & _ & O4). destruct Hk5 as (_ & _ & O5). destruct Hk6 as (_ & _ & O6).
      etransitivity; [|exact O6]. etransitivity; [|exact O5]. exact O4. }
    assert (Hp8 : points (objects h8) l2 tracksT) by (by eapply points_prefix).
    assert (Hr8 : arrays h8 !! m = Some []).
    { subst h8 m. cbn [arrays addArr]. by apply list_lookup_middle. }
    destruct (place_sim scores m l2 tracksT (length tracksT) h8 0 [] [] [] resT usedTracks
                Hp8 Hr8 ltac:(constructor) Hplace) as (r' & Hrun8 & Hpr').
    rewrite (bind_eq _ _ _ _ _ Hrun8).
    assert (Hm8 : (m < length (arrays h8))%nat) by (by eapply lookup_lt_Some).
    destruct (pushUnused_sim usedTracks m (objects h8) l2 tracksT Hp8
                (setArr m r' h8) r' resT eq_refl (lookup_setArr_same _ _ _ Hm8) Hpr')
      as (r'' & Hrun9 & Hpr'').
    rewrite (bind_eq _ _ _ _ _ Hrun9). rewrite setArr_setArr.
    eexists _, _. split; [reflexivity|]. split.
    + eapply keeps_trans; [exact Hk03|].
      eapply keeps_trans; [eapply keeps_weaken; [|exact Hk4]; lia|].
      eapply keeps_trans; [eapply keeps_weaken; [|exact Hk5]; lia|].
      eapply keeps_trans; [eapply keeps_weaken; [|exact Hk6]; lia|].
      eapply keeps_trans; [apply (keeps_addArr n h6 l2'); lia|]. fold h7.
      assert (Hn7 : (n <= length (arrays h7))%nat).
      { subst h7. cbn [arrays addArr]. rewrite length_app. lia. }
      eapply keeps_trans; [apply (keeps_addArr n h7 []); exact Hn7|]. fold h8.
      apply keeps_setArr. subst m. exact Hn7.
    + exists r''. split; [by apply lookup_setArr_same|exact Hpr''].
Qed.

End StoreFacts.

(** C9 -- [calculateMixOrder], run on a store in which the caller's array
    holds references to track objects, returns a new array and leaves the
    store as it found it: every array that existed before the call, the
    caller's among them, holds the same references in the same order, and
    every object that existed has the same fields.  The tracks of the
    returned array are those the value-level [calculateMixOrder] computes. *)
Theorem calculateMixOrder_keeps_input h analyzedTracks input ts :
  Store.arrays h !! analyzedTracks = Some input ->
  Store.points (Store.objects h) input ts ->
  exists r h',
    Store.calculateMixOrder analyzedTracks h = Some (r, h') /\
    Store.arrays h' !! analyzedTracks = Some input /\
    (forall a l, Store.arrays h !! a = Some l -> Store.arrays h' !! a = Some l) /\
    (forall o t, Store.objects h !! o = Some t -> Store.objects h' !! o = Some t) /\
    Store.view h' r = calculateMixOrder ts.
Proof.
  intros Hin Hp.
  destruct (calculateMixOrder_returns ts) as [out Hout].
  destruct (StoreFacts.calculateMixOrder_sim h analyzedTracks ts out) as (r & h' & Hrun & Hk & Hv).
  { exists input. by split. }
  { exact Hout. }
  destruct Hk as (Harr & _ & Hobj).
  assert (Hkeep : forall a l, Store.arrays h !! a = Some l -> Store.arrays h' !! a = Some l).
  { intros a l Ha. rewrite Harr; [exact Ha|]. by eapply lookup_lt_Some. }
  exists r, h'. split; [exact Hrun|]. split; [by apply Hkeep|]. split; [exact Hkeep|]. split.
  - intros o t Ho. by eapply prefix_lookup_Some.
  - rewrite Hout. by apply StoreFacts.view_views.
Qed.

Lemma calculateMixOrder_keeps_input_witness :
  exists r h',
    Store.calculateMixOrder 0 callerStore = Some (r, h') /\
    Store.arrays h' !! 0%nat = Some [2; 1; 0]%nat /\
    (forall a l, Store.arrays callerStore !! a = Some l -> Store.arrays h' !! a = Some l) /\
    (forall o t, Store.objects callerStore !! o = Some t -> Store.objects h' !! o = Some t) /\
    Store.view h' r
      = calculateMixOrder [mkTrack 3 180 200000; mkTrack 2 128 200000; mkTrack 1 120 200000].
Proof.
  apply (calculateMixOrder_keeps_input callerStore 0 [2; 1; 0]%nat
           [mkTrack 3 180 200000; mkTrack 2 128 200000; mkTrack 1 120 200000]).
  - reflexivity.
  - repeat constructor.
Defined.

(** * Further properties *)

(** ** Key ratings *)

(** Checking a property of [rateCamelot] on the 24 x 24 pairs of codes. *)
Lemma on_all_codes (p : string -> string -> bool) :
  forallb (fun sc => forallb (p sc) camelotCodes) camelotCodes = true ->
  forall sc tc, sc ∈ camelotCodes -> tc ∈ camelotCodes -> p sc tc = true.
Proof.
  intros Hall sc tc Hs Ht. rewrite forallb_forall in Hall.
  apply list_elem_of_In in Hs. apply list_elem_of_In in Ht.
  specialize (Hall sc Hs). rewrite forallb_forall in Hall. exact (Hall tc Ht).
Qed.

(** X1 -- the key rating does not depend on the direction: whenever
    [analyzeKeyCompatibility] returns for a source and a target key and
    also for the two exchanged, it returns the same rating. *)
Theorem key_rating_is_symmetric sk ss tk ts r r' :
  analyzeKeyCompatibility sk ss tk ts = Return r ->
  analyzeKeyCompatibility tk ts sk ss = Return r' ->
  r = r'.
Proof.
  unfold analyzeKeyCompatibility.
  destruct (keyToCamelot sk ss) as [sc|] eqn:Hs, (keyToCamelot tk ts) as [tc|] eqn:Ht;
    try congruence.
  apply keyToCamelot_code in Hs. apply keyToCamelot_code in Ht.
  intros H1 H2.
  assert (Hall := on_all_codes
    (fun sc tc => match rateCamelot sc tc, rateCamelot tc sc with
                  | Return a, Return b => bool_decide (a = b)
                  | _, _ => true
                  end)).
  specialize (Hall ltac:(vm_compute; reflexivity) sc tc Hs Ht).
  cbv beta in Hall. rewrite H1, H2 in Hall. by apply bool_decide_eq_true in Hall.
Qed.

Lemma key_rating_is_symmetric_witness :
  compatible = compatible.
Proof.
  apply (key_rating_is_symmetric "C" "major" "G" "major"); vm_compute; reflexivity.
Defined.

(** X2 -- [analyzeKeyCompatibility] throws exactly when the target key is
    on the wheel and the source is 09A with a target of mode B, or 03B with
    a target of mode A (the two cases in which [relativeHour] is 0); on
    every other pair of keys it returns. *)
Theorem key_rating_throws_exactly sk ss tk ts :
  returns (analyzeKeyCompatibility sk ss tk ts) = false <->
  exists tc, keyToCamelot tk ts = Some tc /\
    ((keyToCamelot sk ss = Some "09A" /\ modeOf tc = "B") \/
     (keyToCamelot sk ss = Some "03B" /\ modeOf tc = "A")).
Proof.
  unfold analyzeKeyCompatibility.
  destruct (keyToCamelot sk ss) as [sc|] eqn:Hs.
  2:{ split; [discriminate|]. intros (tc & _ & [[H _]|[H _]]); discriminate. }
  destruct (keyToCamelot tk ts) as [tc|] eqn:Ht.
  2:{ split; [discriminate|]. intros (tc & H & _); discriminate. }
  apply keyToCamelot_code in Hs. apply keyToCamelot_code in Ht.
  assert (Hall := on_all_codes
    (fun sc tc => Bool.eqb (returns (rateCamelot sc tc))
                    (negb ((String.eqb sc "09A" && String.eqb (modeOf tc) "B")
                           || (String.eqb sc "03B" && String.eqb (modeOf tc) "A"))))).
  specialize (Hall ltac:(vm_compute; reflexivity) sc tc Hs Ht).
  cbv beta in Hall. apply eqb_prop in Hall.
  rewrite Hall, negb_false_iff, orb_true_iff, !andb_true_iff, !String.eqb_eq.
  split.
  - intros [[-> Hm]|[-> Hm]]; exists tc; split; auto.
  - intros (tc' & Heq & [[Hsc Hm]|[Hsc Hm]]); injection Heq as <-; injection Hsc as ->; auto.
Qed.

(** X3 -- the rating is 'unknown' exactly when one of the two keys is
    not in [camelotMap]. *)
Theorem unknown_iff_unmapped sk ss tk ts :
  analyzeKeyCompatibility sk ss tk ts = Return unknown <->
  keyToCamelot sk ss = None \/ keyToCamelot tk ts = None.
Proof.
  split.
  - unfold analyzeKeyCompatibility.
    destruct (keyToCamelot sk ss) as [sc|] eqn:Hs; [|auto].
    destruct (keyToCamelot tk ts) as [tc|] eqn:Ht; [|auto].
    apply keyToCamelot_code in Hs. apply keyToCamelot_code in Ht. intros H.
    assert (Hall := on_all_codes
      (fun sc tc => negb (bool_decide (rateCamelot sc tc = Return unknown)))).
    specialize (Hall ltac:(vm_compute; reflexivity) sc tc Hs Ht).
    cbv beta in Hall. apply negb_true_iff, bool_decide_eq_false in Hall. contradiction.
  - intros [H|H]; [by apply unmapped_source_is_unknown|by apply unmapped_target_is_unknown].
Qed.

(** X4 -- two keys of the same mode: the rating is 'compatible' exactly
    when the hours are one step apart on the wheel, or five or seven steps
    apart and the hours are not 5 and 12 (for which [(5 + 7) % 12] is 0,
    not 12). *)
Theorem same_mode_compatible_iff sk ss tk ts sc tc :
  keyToCamelot sk ss = Some sc -> keyToCamelot tk ts = Some tc ->
  modeOf sc = modeOf tc ->
  let apart := (hourOf tc - hourOf sc) mod 12 in
  (analyzeKeyCompatibility sk ss tk ts = Return compatible <->
   apart = 1 \/ apart = 11 \/
   ((apart = 5 \/ apart = 7) /\
    ~ (hourOf sc = 5 /\ hourOf tc = 12) /\ ~ (hourOf sc = 12 /\ hourOf tc = 5))).
Proof.
  intros Hs Ht Hm apart. subst apart. unfold analyzeKeyCompatibility. rewrite Hs, Ht.
  apply keyToCamelot_code in Hs. apply keyToCamelot_code in Ht.
  assert (Hall := on_all_codes
    (fun sc tc =>
       implb (String.eqb (modeOf sc) (modeOf tc))
         (Bool.eqb (bool_decide (rateCamelot sc tc = Return compatible))
            (let apart := (hourOf tc - hourOf sc) mod 12 in
             (apart =? 1) || (apart =? 11)
             || (((apart =? 5) || (apart =? 7))
                 && negb ((hourOf sc =? 5) && (hourOf tc =? 12))
                 && negb ((hourOf sc =? 12) && (hourOf tc =? 5))))))).
  specialize (Hall ltac:(vm_compute; reflexivity) sc tc Hs Ht).
  cbv beta zeta in Hall. apply String.eqb_eq in Hm. rewrite Hm in Hall. cbn [implb] in Hall.
  apply eqb_prop in Hall.
  match type of Hall with bool_decide ?P = _ =>
    rewrite <- (bool_decide_eq_true P), Hall end.
  rewrite !orb_true_iff, !andb_true_iff, !negb_true_iff, !andb_false_iff,
    !Z.eqb_eq, !Z.eqb_neq. lia.
Qed.

Lemma same_mode_compatible_iff_witness :
  let apart := (hourOf "09B" - hourOf "08B") mod 12 in
  (analyzeKeyCompatibility "C" "major" "G" "major" = Return compatible <->
   apart = 1 \/ apart = 11 \/
   ((apart = 5 \/ apart = 7) /\
    ~ (hourOf "08B" = 5 /\ hourOf "09B" = 12) /\ ~ (hourOf "08B" = 12 /\ hourOf "09B" = 5))).
Proof.
  apply (same_mode_compatible_iff "C" "major" "G" "major" "08B" "09B"); reflexivity.
Defined.

(** ** Transition search, cache and streams *)

(** ** The phrase boundary *)

Lemma phraseBoundary_none beats dflt n : forall i,
  (forall j, (i <= j < i + n)%nat -> (j mod 16 <> 0)%nat) ->
  phraseBoundary beats i n dflt = dflt.
Proof.
  induction n as [|n IH]; intros i Hno; [reflexivity|].
  cbn [phraseBoundary].
  destruct (i mod 16 =? 0)%nat eqn:E.
  - apply Nat.eqb_eq in E. exfalso. apply (Hno i); [lia|exact E].
  - apply IH. intros j Hj. apply Hno. lia.
Qed.

Lemma phraseBoundary_first beats dflt n : forall i j,
  (i <= j < i + n)%nat -> (j mod 16 = 0)%nat ->
  (forall k, (i <= k < j)%nat -> (k mod 16 <> 0)%nat) ->
  phraseBoundary beats i n dflt = beats !! j.
Proof.
  induction n as [|n IH]; intros i j Hj Hmod Hfirst; [lia|].
  cbn [phraseBoundary].
  destruct (i mod 16 =? 0)%nat eqn:E.
  - apply Nat.eqb_eq in E.
    assert (i = j) as ->.
    { destruct (decide (i = j)) as [|Hne]; [done|]. exfalso. apply (Hfirst i); [lia|exact E]. }
    by destruct (beats !! j).
  - apply Nat.eqb_neq in E.
    assert (i <> j) by congruence.
    apply IH; [lia|exact Hmod|]. intros k Hk. apply Hfirst. lia.
Qed.

Lemma startSearchAt_eq (n : nat) :
  Z.to_nat (Qfloor (inject_Z (Z.of_nat n) * (66 # 100))) = (n * 66 / 100)%nat.
Proof.
  unfold Qfloor, Qmult, inject_Z. cbn [Qnum Qden].
  change (Z.pos (1 * 100)) with 100.
  rewrite <- (Nat2Z.id (n * 66 / 100)). f_equal.
  rewrite Nat2Z.inj_div, Nat2Z.inj_mul. reflexivity.
Qed.

(** X5 -- two analysed tracks that both have a beat list: when
    [findBestTransition] returns, the transition point is the first beat at
    or after 66% of the source's beats whose index is a multiple of 16, and
    when there is no such beat it is [Math.floor(duration * 0.8)] of the
    source. *)
Theorem transition_point_is_first_phrase_boundary src tgt srcR tgtR beats targetBeats info :
  a_rhythm src = Some srcR -> a_rhythm tgt = Some tgtR ->
  r_beats srcR = Some beats -> r_beats tgtR = Some targetBeats ->
  findBestTransition src tgt = Return info ->
  let startSearchAt := (length beats * 66 / 100)%nat in
  (forall j, (startSearchAt <= j < length beats)%nat -> (j mod 16 = 0)%nat ->
     (forall k, (startSearchAt <= k < j)%nat -> (k mod 16 <> 0)%nat) ->
     ti_transitionPoint info = beats !! j) /\
  ((forall j, (startSearchAt <= j < length beats)%nat -> (j mod 16 <> 0)%nat) ->
   ti_transitionPoint info = floor_08 (a_duration src)).
Proof.
  intros Hs Ht Hb Htb Hfind startSearchAt.
  unfold findBestTransition in Hfind. rewrite Hs, Ht, Hb, Htb in Hfind.
  destruct (analyzeKeyCompatibility_opt _ _ _ _) as [keyCompatibility|]; [|discriminate].
  cbn [bind] in Hfind.
  apply (f_equal (fun o => match o with
                           | Return i => ti_transitionPoint i
                           | Throw _ => None
                           end)) in Hfind.
  cbn [ti_transitionPoint] in Hfind. rewrite <- Hfind.
  rewrite startSearchAt_eq. fold startSearchAt.
  assert (Hle : (startSearchAt <= length beats)%nat).
  { subst startSearchAt. apply Nat.Div0.div_le_upper_bound. lia. }
  split.
  - intros j Hj Hmod Hfirst. apply phraseBoundary_first; [lia|exact Hmod|exact Hfirst].
  - intros Hno. apply phraseBoundary_none. intros j Hj. apply Hno. lia.
Qed.

Lemma transition_point_is_first_phrase_boundary_witness :
  exists info,
    findBestTransition (mkAnalysis 120 "C" "major") (mkAnalysis 122 "D" "major") = Return info /\
    ti_transitionPoint info = Some (32 # 2)%Q.
Proof.
  eexists. split; [vm_compute; reflexivity|].
  refine (eq_trans (proj1 (transition_point_is_first_phrase_boundary
            (mkAnalysis 120 "C" "major") (mkAnalysis 122 "D" "major") _ _ _ _ _
            eq_refl eq_refl eq_refl eq_refl eq_refl) 32%nat _ _ _) _).
  - vm_compute. lia.
  - reflexivity.
  - intros k Hk. vm_compute in Hk. assert (k = 31%nat) as -> by lia. vm_compute. lia.
  - vm_compute. reflexivity.
Defined.

(** ** The analysis cache *)

(** X6 -- when [analyzeTrackFile] returns an analysis it is in the cache
    under the key [filePath-mtimeMs], and a later call for the same path on
    a file that exists and has the same modification time returns that
    analysis and leaves the cache as it is, whatever the file decodes to
    by then. *)
Theorem cached_analysis_is_reused filePath w cache a cache' :
  analyzeTrackFile filePath w cache = (Return a, cache') ->
  cache' !! (filePath +:+ "-" +:+ mtimeMs w) = Some a /\
  forall w', existsSync w' = true -> mtimeMs w' = mtimeMs w ->
             analyzeTrackFile filePath w' cache' = (Return a, cache').
Proof.
  unfold analyzeTrackFile. intros H.
  destruct (existsSync w); [|discriminate]. cbn [negb] in H.
  assert (Hhit : cache' !! (filePath +:+ "-" +:+ mtimeMs w) = Some a).
  { destruct (cache !! _) as [cached|] eqn:E.
    - injection H as <- <-. exact E.
    - destruct (analyzeBody w); [|discriminate]. injection H as <- <-.
      apply lookup_insert_eq. }
  split; [exact Hhit|].
  intros w' Hex Hm. rewrite Hex, Hm. cbn [negb]. by rewrite Hhit.
Qed.


Lemma cached_analysis_is_reused_witness :
  (<["uploads/c.mp3-1700000000000" := decodedAnalysis]> ∅ : gmap string Analysis)
    !! ("uploads/c.mp3" +:+ "-" +:+ mtimeMs decodable) = Some decodedAnalysis /\
  forall w', existsSync w' = true -> mtimeMs w' = mtimeMs decodable ->
    analyzeTrackFile "uploads/c.mp3" w' (<["uploads/c.mp3-1700000000000" := decodedAnalysis]> ∅)
    = (Return decodedAnalysis, <["uploads/c.mp3-1700000000000" := decodedAnalysis]> ∅).
Proof.
  apply (cached_analysis_is_reused "uploads/c.mp3" decodable ∅).
  vm_compute. reflexivity.
Defined.

Lemma minimal_point_within_duration metadata :
  (forall d, sm_duration metadata = Some d -> (0 <= d)%Q) ->
  (0 <= match sm_duration metadata with
        | Some duration =>
            if Qeq_bool duration 0 then 140000
            else inject_Z (Qfloor (duration * (8 # 10)))
        | None => 140000
        end <= orQ (sm_duration metadata) 180000)%Q.
Proof.
  intros Hmeta. unfold orQ.
  destruct (sm_duration metadata) as [d|]; [|split; discriminate].
  specialize (Hmeta d eq_refl).
  destruct (Qeq_bool d 0); [split; discriminate|].
  pose proof (Qfloor_le (d * (8 # 10))) as Hle.
  assert (H0 : (0 <= Qfloor (d * (8 # 10)))%Z).
  { change 0%Z with (Qfloor 0). apply Qfloor_resp_le. lra. }
  assert (H0' : (0 <= inject_Z (Qfloor (d * (8 # 10))))%Q).
  { change 0%Q with (inject_Z 0). by rewrite <- Zle_Qle. }
  split; [exact H0'|lra].
Qed.

(** X7 -- [analyzeStream] never throws, and with durations that are not
    negative its transition points lie inside the track: the four points
    of the full result between 0 and the decoded duration, the single
    point of the minimal result between 0 and the duration it reports. *)
Theorem stream_points_within_duration w metadata :
  (forall d, sm_duration metadata = Some d -> (0 <= d)%Q) ->
  (forall decoded, sw_decodeAudioFile w = Return decoded -> (0 <= ds_duration decoded)%Q) ->
  match analyzeStream w metadata with
  | Return (StreamFull format _ _ transitionPoints _) =>
      exists d, f_duration format = Some d /\ length transitionPoints = 4%nat /\
                Forall (fun p => (0 <= p <= d)%Q) transitionPoints
  | Return (StreamMinimal _ duration transitionPoint) =>
      (0 <= transitionPoint <= duration)%Q
  | Throw _ => False
  end.
Proof.
  intros Hmeta Hdec. unfold analyzeStream.
  destruct (sw_decodeAudioFile w) as [decoded|] eqn:Hd; cbn [bind].
  - specialize (Hdec decoded eq_refl).
    destruct (sw_extract w) as [features|]; cbn [bind].
    + exists (ds_duration decoded). split; [reflexivity|]. split; [reflexivity|].
      unfold estimateTransitionPoints. repeat constructor; lra.
    + by apply minimal_point_within_duration.
  - by apply minimal_point_within_duration.
Qed.

Lemma stream_points_within_duration_witness :
  match analyzeStream {| sw_decodeAudioFile := Throw (Error_message "Unable to decode audio data");
                         sw_extract := Throw (Error_message "not reached");
                         sw_now := 0 |}
                      {| sm_bpm := None; sm_duration := Some (200000 : Q) |} with
  | Return (StreamFull format _ _ transitionPoints _) =>
      exists d, f_duration format = Some d /\ length transitionPoints = 4%nat /\
                Forall (fun p => (0 <= p <= d)%Q) transitionPoints
  | Return (StreamMinimal _ duration transitionPoint) =>
      (0 <= transitionPoint <= duration)%Q
  | Throw _ => False
  end.
Proof.
  apply stream_points_within_duration.
  - intros d H. injection H as <-. discriminate.
  - intros decoded H. discriminate.
Defined.

(** ** Energy bands *)

Lemma energyFrames_spec E rate len :
  (forall i, returns (EnergyBandOf E i) = true) ->
  forall n i, (len <= i + n * frameSize)%nat ->
    exists bands,
      energyFrames E rate len i n = Return bands /\
      length bands = (if (i + frameSize <? len)%nat then (len - i - 1) / frameSize else 0)%nat /\
      forall k band, bands !! k = Some band ->
        eb_time band = (inject_Z (Z.of_nat (i + k * frameSize)) / rate)%Q /\
        EnergyBandOf E (i + k * frameSize)
        = Return (lowEnergy band, midEnergy band, highEnergy band).
Proof.
  intros Hret. induction n as [|n IH]; intros i Hfuel.
  - exists []. cbn [energyFrames]. split; [reflexivity|]. split.
    + destruct (i + frameSize <? len)%nat eqn:E1; [|reflexivity].
      apply Nat.ltb_lt in E1. lia.
    + intros k band H. discriminate.
  - cbn [energyFrames].
    destruct (i <? len)%nat eqn:E0.
    2:{ exists []. split; [reflexivity|]. split.
        - apply Nat.ltb_ge in E0. destruct (i + frameSize <? len)%nat eqn:E1; [|reflexivity].
          apply Nat.ltb_lt in E1. lia.
        - intros k band H. discriminate. }
    destruct (IH (i + frameSize)%nat ltac:(lia)) as (rest & Hrest & Hlen & Htimes).
    destruct (i + frameSize <? len)%nat eqn:E1.
    + specialize (Hret i). destruct (EnergyBandOf E i) as [[[lo mi] hi]|] eqn:Hband; [|discriminate].
      cbn [bind]. rewrite Hrest. cbn [bind]. eexists. split; [reflexivity|].
      apply Nat.ltb_lt in E1. split.
      * cbn [length]. rewrite Hlen. unfold frameSize in *.
        destruct (i + 2048 + 2048 <? len)%nat eqn:E2.
        -- apply Nat.ltb_lt in E2.
           replace (len - i - 1)%nat with (len - (i + 2048) - 1 + 1 * 2048)%nat by lia.
           rewrite Nat.div_add by lia. lia.
        -- apply Nat.ltb_ge in E2. symmetry.
           replace (len - i - 1)%nat with (len - i - 1 - 2048 + 1 * 2048)%nat by lia.
           rewrite Nat.div_add by lia. rewrite Nat.div_small by lia. reflexivity.
      * intros [|k] band Hk.
        -- cbn in Hk. injection Hk as <-. cbn. rewrite Nat.add_0_r. by split.
        -- cbn in Hk. destruct (Htimes k band Hk) as [Ht Hb].
           replace (i + S k * frameSize)%nat with (i + frameSize + k * frameSize)%nat by lia.
           by split.
    + exists rest. split; [exact Hrest|]. apply Nat.ltb_ge in E1.
      assert (Hnil : rest = []).
      { destruct rest; [reflexivity|]. cbn [length] in Hlen.
        destruct (i + frameSize + frameSize <? len)%nat eqn:E2; [|discriminate].
        apply Nat.ltb_lt in E2. lia. }
      subst rest. split; [reflexivity|]. intros k band H. discriminate.
Qed.

(** X8 -- when the band extraction does not throw, the frame loop of
    [analyzeTrackFile] returns one energy band for each frame start
    [k * 2048] with [k * 2048 + 2048 < length], that is
    [(length - 1) / 2048] bands; band [k] has time [k * 2048 / sampleRate]
    and the three energies extracted at that offset. *)
Theorem energy_bands_cover_full_frames E rate len :
  (forall i, returns (EnergyBandOf E i) = true) ->
  exists bands,
    energyFrames E rate len 0 (S len) = Return bands /\
    length bands = ((len - 1) / 2048)%nat /\
    forall k band, bands !! k = Some band ->
      (k * 2048 + 2048 < len)%nat /\
      eb_time band = (inject_Z (Z.of_nat (k * 2048)) / rate)%Q /\
      EnergyBandOf E (k * 2048) = Return (lowEnergy band, midEnergy band, highEnergy band).
Proof.
  intros Hret.
  destruct (energyFrames_spec E rate len Hret (S len) 0%nat) as (bands & Hrun & Hlen & Htimes).
  { unfold frameSize. lia. }
  exists bands. split; [exact Hrun|].
  assert (Hcount : length bands = ((len - 1) / 2048)%nat).
  { rewrite Hlen. unfold frameSize. cbn [Nat.add].
    destruct (2048 <? len)%nat eqn:E1.
    - by rewrite Nat.sub_0_r.
    - apply Nat.ltb_ge in E1. symmetry. apply Nat.div_small. lia. }
  split; [exact Hcount|].
  intros k band Hk. split.
  - apply lookup_lt_Some in Hk. rewrite Hcount in Hk.
    assert (H := Nat.Div0.mul_div_le (len - 1) 2048).
    assert (2048 * S k <= 2048 * ((len - 1) / 2048))%nat by (apply Nat.mul_le_mono_l; lia).
    lia.
  - destruct (Htimes k band Hk) as [Ht Hb]. unfold frameSize in *. cbn [Nat.add] in *. by split.
Qed.

Lemma energy_bands_cover_full_frames_witness :
  exists bands,
    energyFrames {| BeatTrackerMultiFeature := Throw (Error_message "unused");
                    KeyExtractor := Throw (Error_message "unused");
                    SBic := Throw (Error_message "unused");
                    EnergyBandOf := fun _ => Return (1, 1, 1)%Q |} 44100 5000 0 (S 5000)
      = Return bands /\
    length bands = ((5000 - 1) / 2048)%nat /\
    forall k band, bands !! k = Some band ->
      (k * 2048 + 2048 < 5000)%nat /\
      eb_time band = (inject_Z (Z.of_nat (k * 2048)) / 44100)%Q /\
      Return (1, 1, 1)%Q = Return (lowEnergy band, midEnergy band, highEnergy band).
Proof.
  apply (energy_bands_cover_full_frames
           {| BeatTrackerMultiFeature := Throw (Error_message "unused");
              KeyExtractor := Throw (Error_message "unused");
              SBic := Throw (Error_message "unused");
              EnergyBandOf := fun _ => Return (1, 1, 1)%Q |} 44100 5000).
  intros i. reflexivity.
Defined.

(** ** The planner's orders *)

(** ** Energy and key scores *)

(** X9 -- [estimateTrackEnergy] is always between 1 and 10: 5 without
    any data, 3 to 8 by tempo. *)
Theorem estimateTrackEnergy_in_range track : 1 <= estimateTrackEnergy track <= 10.
Proof.
  unfold estimateTrackEnergy.
  destruct ((t_advancedAnalysis track ≫= a_rhythm) ≫= r_energyBands) as [[|b bs]|].
  2:{ lia. }
  all: destruct (t_bpm track) as [bpm|]; [|lia];
    destruct (Qeq_bool bpm 0); [lia|];
    repeat (destruct (Qltb bpm _); [lia|]); lia.
Qed.

Lemma Qltb_true x y : Qltb x y = true <-> (x < y)%Q.
Proof. unfold Qltb. destruct (Qlt_le_dec x y); split; try done. intros H. lra. Qed.

Lemma Qltb_false x y : Qltb x y = false <-> (y <= x)%Q.
Proof. unfold Qltb. destruct (Qlt_le_dec x y); split; try done. intros H. lra. Qed.

(** X10 -- without energy bands the estimate follows the tempo: of two
    tracks with a positive BPM, the faster one never gets the lower
    energy. *)
Theorem energy_follows_tempo a b bpmA bpmB :
  (t_advancedAnalysis a ≫= a_rhythm) ≫= r_energyBands = None ->
  (t_advancedAnalysis b ≫= a_rhythm) ≫= r_energyBands = None ->
  t_bpm a = Some bpmA -> t_bpm b = Some bpmB ->
  (0 < bpmA)%Q -> (bpmA <= bpmB)%Q ->
  estimateTrackEnergy a <= estimateTrackEnergy b.
Proof.
  intros Ha Hb HbpmA HbpmB Hpos Hle. unfold estimateTrackEnergy.
  rewrite Ha, Hb, HbpmA, HbpmB.
  destruct (Qeq_bool bpmA 0) eqn:E0; [apply Qeq_bool_iff in E0; lra|].
  destruct (Qeq_bool bpmB 0) eqn:E1; [apply Qeq_bool_iff in E1; lra|].
  repeat match goal with
         | |- context [Qltb ?x ?y] =>
             let E := fresh "E" in
             destruct (Qltb x y) eqn:E;
             [apply Qltb_true in E|apply Qltb_false in E]
         end; try lia; lra.
Qed.

Lemma camelotWheel_position k p : camelotWheel !! k = Some p -> 1 <= p <= 12.
Proof.
  intros H.
  assert (Hall : map_Forall (fun _ p => bool_decide (1 <= p <= 12) = true) camelotWheel).
  { refine (bool_decide_unpack _ _). vm_compute. reflexivity. }
  exact (proj1 (bool_decide_eq_true _) (Hall _ _ H)).
Qed.

(** X11 -- [scoreKeyCompatibility] is always between 0 and 10. *)
Theorem scoreKeyCompatibility_in_range key1 scale1 key2 scale2 :
  0 <= scoreKeyCompatibility key1 scale1 key2 scale2 <= 10.
Proof.
  unfold scoreKeyCompatibility.
  destruct (String.eqb key1 key2 && String.eqb scale1 scale2); [lia|].
  set (mode1 := if String.eqb (toLowerCase scale1) "minor" then "minor" else "major").
  set (mode2 := if String.eqb (toLowerCase scale2) "minor" then "minor" else "major").
  destruct (camelotWheel !! (key1 +:+ " " +:+ mode1)) as [p1|] eqn:H1; [|lia].
  destruct (camelotWheel !! (key2 +:+ " " +:+ mode2)) as [p2|] eqn:H2; [|lia].
  apply camelotWheel_position in H1. apply camelotWheel_position in H2.
  destruct ((p1 =? 0) || (p2 =? 0)); [lia|].
  cbv zeta.
  destruct (6 <? Z.abs (p1 - p2)) eqn:E6;
    [apply Z.ltb_lt in E6|apply Z.ltb_ge in E6];
    repeat match goal with
           | |- context [if ?c then _ else _] => destruct c
           end; lia.
Qed.

(** X12 -- [scoreKeyCompatibility] gives the same score when the two
    keys are exchanged. *)
Theorem scoreKeyCompatibility_symmetric key1 scale1 key2 scale2 :
  scoreKeyCompatibility key1 scale1 key2 scale2 = scoreKeyCompatibility key2 scale2 key1 scale1.
Proof.
  unfold scoreKeyCompatibility.
  rewrite (String.eqb_sym key2 key1), (String.eqb_sym scale2 scale1).
  destruct (String.eqb key1 key2 && String.eqb scale1 scale2); [reflexivity|].
  set (mode1 := if String.eqb (toLowerCase scale1) "minor" then "minor" else "major").
  set (mode2 := if String.eqb (toLowerCase scale2) "minor" then "minor" else "major").
  destruct (camelotWheel !! (key1 +:+ " " +:+ mode1)) as [p1|],
           (camelotWheel !! (key2 +:+ " " +:+ mode2)) as [p2|]; try reflexivity.
  rewrite (orb_comm (p2 =? 0)), (String.eqb_sym mode2 mode1).
  replace (Z.abs (p2 - p1)) with (Z.abs (p1 - p2)) by lia. reflexivity.
Qed.

(** ** Sorting *)

Section SortOrder.
Context {A : Type} (compare : A -> A -> Q) (le : A -> A -> Prop).
Hypothesis le_trans : forall a b c, le a b -> le b c -> le a c.
Hypothesis compare_le : forall a b, Qle_bool (compare a b) 0 = true -> le a b.
Hypothesis compare_gt : forall a b, Qle_bool (compare a b) 0 = false -> le b a.

Lemma sort_insert_sorted x l :
  StronglySorted le l -> StronglySorted le (Js.sort_insert compare x l).
Proof.
  induction 1 as [|y l Hs IH Hy]; cbn.
  - repeat constructor.
  - destruct (Qle_bool (compare x y) 0) eqn:E.
    + constructor; [by constructor|]. constructor; [by apply compare_le|].
      eapply Forall_impl; [exact Hy|]. intros z Hz. eapply le_trans; [|exact Hz].
      by apply compare_le.
    + constructor; [exact IH|]. rewrite sort_insert_perm. constructor; [|exact Hy].
      by apply compare_gt.
Qed.

Lemma sort_sorted l : StronglySorted le (Js.sort compare l).
Proof. induction l as [|x l IH]; cbn; [constructor|by apply sort_insert_sorted]. Qed.

End SortOrder.


Lemma Qle_bool_sub x y : Qle_bool (x - y) 0 = true <-> (x <= y)%Q.
Proof. rewrite Qle_bool_iff. split; intros H; lra. Qed.

Lemma sorted_by_bpm tracks :
  StronglySorted (fun a b => (bpmOf a <= bpmOf b)%Q)
    (Js.sort (fun a b => (default 0 (t_bpm a) - default 0 (t_bpm b))%Q) tracks).
Proof.
  apply sort_sorted.
  - intros a b c. apply Qle_trans.
  - intros a b H. by apply Qle_bool_sub in H.
  - intros a b H. unfold bpmOf.
    destruct (Qlt_le_dec (default 0%Q (t_bpm b)) (default 0%Q (t_bpm a))) as [Hlt|Hle]; [lra|].
    apply Qle_bool_sub in Hle. congruence.
Qed.

(** ** minimizeBpmJumps *)

Lemma closestBpm_keeps lastTrack rest : forall index d0 bestMatch,
  Forall (fun t => exists d, bpmDistance t lastTrack = Some d /\ (d0 <= d)%Q) rest ->
  closestBpm lastTrack rest index (Some d0) bestMatch = bestMatch.
Proof.
  induction rest as [|t rest IH]; intros index d0 bestMatch Hall; [reflexivity|].
  apply Forall_cons in Hall as [(d & Hd & Hle) Hall].
  cbn [closestBpm]. rewrite Hd.
  assert (Qltb d d0 = false) as -> by (by apply Qltb_false).
  by apply IH.
Qed.

Lemma bpmDistance_above t lastTrack :
  is_Some (t_bpm t) -> is_Some (t_bpm lastTrack) -> (bpmOf lastTrack <= bpmOf t)%Q ->
  exists d, bpmDistance t lastTrack = Some d /\ (d == bpmOf t - bpmOf lastTrack)%Q.
Proof.
  intros [x Hx] [y Hy] Hle. unfold bpmDistance, subQ, bpmOf in *. rewrite Hx, Hy in *.
  cbn [default] in *. exists (Qabs (x - y)). split; [reflexivity|]. apply Qabs_pos. lra.
Qed.

Lemma closestBpm_first lastTrack r0 rest :
  Forall (fun t => is_Some (t_bpm t)) (lastTrack :: r0 :: rest) ->
  StronglySorted (fun a b => (bpmOf a <= bpmOf b)%Q) (lastTrack :: r0 :: rest) ->
  closestBpm lastTrack (r0 :: rest) 0 None 0 = 0%nat.
Proof.
  intros Hsome Hsorted.
  apply Forall_cons in Hsome as [Hl Hsome]. apply Forall_cons in Hsome as [H0 Hsome].
  apply StronglySorted_inv in Hsorted as [Hsorted Hlast].
  apply StronglySorted_inv in Hsorted as [_ Hr0].
  apply Forall_cons in Hlast as [Hl0 Hlast].
  destruct (bpmDistance_above r0 lastTrack H0 Hl Hl0) as (d0 & Hd0 & Heq0).
  cbn [closestBpm]. rewrite Hd0.
  apply closestBpm_keeps.
  rewrite Forall_forall in *. intros t Ht.
  destruct (bpmDistance_above t lastTrack (Hsome t Ht) Hl (Hlast t Ht)) as (d & Hd & Heq).
  exists d. split; [exact Hd|]. specialize (Hr0 t Ht). cbv beta in Hr0. lra.
Qed.

Lemma greedy_on_sorted fuel : forall result lastTrack remaining,
  (length remaining <= fuel)%nat ->
  last result = Some lastTrack ->
  Forall (fun t => is_Some (t_bpm t)) (lastTrack :: remaining) ->
  StronglySorted (fun a b => (bpmOf a <= bpmOf b)%Q) (lastTrack :: remaining) ->
  greedyLoop (fun lastTrack remaining => closestBpm lastTrack remaining 0 None 0)
             fuel result remaining
  = Some (result ++ remaining)%list.
Proof.
  induction fuel as [|fuel IH]; intros result lastTrack remaining Hfuel Hlast Hsome Hsorted.
  - destruct remaining; [|cbn in Hfuel; lia]. cbn. by rewrite app_nil_r.
  - destruct remaining as [|r0 rest]; [cbn; by rewrite app_nil_r|].
    cbn [greedyLoop]. rewrite Hlast.
    rewrite (closestBpm_first lastTrack r0 rest Hsome Hsorted).
    unfold pushAt. change ((r0 :: rest) !! Z.to_nat (Z.of_nat 0)) with (Some r0).
    change (delete 0%nat (r0 :: rest)) with rest. change (option_list (Some r0)) with [r0].
    rewrite (IH (result ++ [r0])%list r0 rest).
    + by rewrite <- app_assoc.
    + cbn in Hfuel. lia.
    + by rewrite last_snoc.
    + by apply Forall_cons in Hsome as [_ Hsome].
    + by apply StronglySorted_inv in Hsorted as [Hsorted _].
Qed.

(** On tracks that all have a BPM the greedy walk of [minimizeBpmJumps]
    returns the BPM-sorted array itself. *)
Lemma minimizeBpmJumps_sorts tracks :
  tracks <> [] ->
  Forall (fun t => is_Some (t_bpm t)) tracks ->
  minimizeBpmJumps tracks
  = Some (Js.sort (fun a b => (default 0 (t_bpm a) - default 0 (t_bpm b))%Q) tracks).
Proof.
  intros Hne Hsome.
  set (sortedByBpm := Js.sort (fun a b => (default 0 (t_bpm a) - default 0 (t_bpm b))%Q) tracks).
  assert (Hperm : sortedByBpm ≡ₚ tracks) by apply sort_perm.
  assert (Hsorted := sorted_by_bpm tracks). fold sortedByBpm in Hsorted.
  unfold minimizeBpmJumps. fold sortedByBpm.
  assert (Hsome' : Forall (fun t => is_Some (t_bpm t)) sortedByBpm) by (by rewrite Hperm).
  destruct sortedByBpm as [|s0 rest] eqn:E.
  { apply Permutation_nil_l in Hperm. congruence. }
  unfold pushAt. change ((s0 :: rest) !! Z.to_nat 0) with (Some s0).
  change (drop 1 (s0 :: rest)) with rest. change (option_list (Some s0)) with [s0].
  cbn [app].
  rewrite (greedy_on_sorted (length tracks) [s0] s0 rest); [reflexivity| |reflexivity|done|done].
  rewrite <- Hperm. cbn. lia.
Qed.

(** X13 -- on a non-empty array of tracks that all have a BPM,
    [minimizeBpmJumps] returns the array sorted by ascending BPM: the
    greedy nearest-neighbour walk from the slowest track never reorders
    it.  The result is a permutation of the input. *)
Theorem minimizeBpmJumps_is_ascending tracks :
  tracks <> [] ->
  Forall (fun t => is_Some (t_bpm t)) tracks ->
  let sortedByBpm := Js.sort (fun a b => (default 0 (t_bpm a) - default 0 (t_bpm b))%Q) tracks in
  minimizeBpmJumps tracks = Some sortedByBpm /\
  sortedByBpm ≡ₚ tracks /\
  StronglySorted (fun a b => (bpmOf a <= bpmOf b)%Q) sortedByBpm.
Proof.
  intros Hne Hsome sortedByBpm.
  split; [by apply minimizeBpmJumps_sorts|].
  split; [apply sort_perm|apply sorted_by_bpm].
Qed.

Lemma minimizeBpmJumps_is_ascending_witness :
  let sortedByBpm :=
    Js.sort (fun a b => (default 0 (t_bpm a) - default 0 (t_bpm b))%Q)
            [mkTrack 3 180 200000; mkTrack 2 128 200000; mkTrack 1 120 200000] in
  minimizeBpmJumps [mkTrack 3 180 200000; mkTrack 2 128 200000; mkTrack 1 120 200000]
    = Some sortedByBpm /\
  sortedByBpm ≡ₚ [mkTrack 3 180 200000; mkTrack 2 128 200000; mkTrack 1 120 200000] /\
  StronglySorted (fun a b => (bpmOf a <= bpmOf b)%Q) sortedByBpm.
Proof.
  apply minimizeBpmJumps_is_ascending.
  - discriminate.
  - repeat constructor; eexists; reflexivity.
Defined.

Lemma energy_follows_tempo_witness :
  estimateTrackEnergy (mkTrack 1 120 200000) <= estimateTrackEnergy (mkTrack 2 128 200000).
Proof.
  apply (energy_follows_tempo (mkTrack 1 120 200000) (mkTrack 2 128 200000) 120 128);
    try reflexivity; unfold Qlt, Qle; simpl; lia.
Defined.

(** ** createEnergyCurve *)

Lemma pushAt_in_range result arr (i : nat) x :
  arr !! i = Some x -> pushAt result arr (Z.of_nat i) = (result ++ [x])%list.
Proof. intros H. unfold pushAt. by rewrite Nat2Z.id, H. Qed.

(** The second phase of the loop: the lower half, downwards. *)
Lemma energyLoop_down sorted : forall d fuel result goingUp,
  (d <= fuel)%nat -> (d <= length sorted)%nat ->
  (length result + d = length sorted)%nat ->
  energyLoop fuel (length sorted) sorted
             (result, Z.of_nat (length sorted), Z.of_nat d - 1, goingUp)
  = Some (result ++ reverse (take d sorted))%list.
Proof.
  induction d as [|d IH]; intros fuel result goingUp Hfuel Hd Hlen.
  - destruct fuel; cbn [energyLoop];
      (assert ((length result <? length sorted)%nat = false) as -> by (apply Nat.ltb_ge; lia));
      by rewrite take_0, reverse_nil, app_nil_r.
  - destruct fuel as [|fuel]; [lia|]. cbn [energyLoop].
    assert ((length result <? length sorted)%nat = true) as -> by (apply Nat.ltb_lt; lia).
    destruct (lookup_lt_is_Some_2 sorted d ltac:(lia)) as [x Hx].
    unfold energyStep.
    rewrite Z.ltb_irrefl, andb_false_r.
    assert ((0 <=? Z.of_nat (S d) - 1) = true) as -> by (apply Z.leb_le; lia).
    replace (Z.of_nat (S d) - 1) with (Z.of_nat d) by lia.
    rewrite (pushAt_in_range _ _ _ _ Hx).
    rewrite IH; [|lia|lia|rewrite length_app; cbn; lia].
    rewrite (take_S_r _ _ _ Hx), reverse_app, <- app_assoc. reflexivity.
Qed.

(** The first phase: from the midpoint upwards.  The direction flag cannot
    fall before the upper half is used up. *)
Lemma energyLoop_up sorted (midpoint : nat) :
  midpoint = (length sorted / 2)%nat ->
  forall k fuel result up goingUp,
    (up + k = length sorted)%nat ->
    (length result + k + midpoint = length sorted)%nat ->
    (k + midpoint <= fuel)%nat ->
    ((up < length sorted)%nat -> goingUp = true) ->
    energyLoop fuel (length sorted) sorted
               (result, Z.of_nat up, Z.of_nat midpoint - 1, goingUp)
    = Some (result ++ drop up sorted ++ reverse (take midpoint sorted))%list.
Proof.
  intros Hmid. induction k as [|k IH]; intros fuel result up goingUp Hup Hlen Hfuel Hflag.
  - assert (up = length sorted) as -> by lia.
    rewrite drop_all. cbn [app].
    apply energyLoop_down; [lia| |lia].
    subst midpoint. apply Nat.Div0.div_le_upper_bound. lia.
  - destruct fuel as [|fuel]; [lia|]. cbn [energyLoop].
    assert ((length result <? length sorted)%nat = true) as -> by (apply Nat.ltb_lt; lia).
    rewrite (Hflag ltac:(lia)).
    destruct (lookup_lt_is_Some_2 sorted up ltac:(lia)) as [x Hx].
    unfold energyStep.
    assert ((Z.of_nat up <? Z.of_nat (length sorted)) = true) as -> by (apply Z.ltb_lt; lia).
    cbn [andb]. rewrite (pushAt_in_range _ _ _ _ Hx).
    replace (Z.of_nat up + 1) with (Z.of_nat (S up)) by lia.
    rewrite IH; [|lia|rewrite length_app; cbn; lia|lia|].
    + rewrite (drop_S _ _ _ Hx), <- app_assoc. reflexivity.
    + intros Hmore.
      assert (Hno : Qltb (inject_Z (Z.of_nat (length sorted)) * (7 # 10))
                         (inject_Z (Z.of_nat (length (result ++ [x])))) = false).
      { apply Qltb_false. rewrite length_app. cbn [length].
        assert (Hhalf : (length sorted < 2 * midpoint + 2)%nat).
        { subst midpoint. pose proof (Nat.div_mod_eq (length sorted) 2) as E.
          pose proof (Nat.mod_upper_bound (length sorted) 2 ltac:(lia)). lia. }
        unfold Qle, Qmult, inject_Z. cbn [Qnum Qden]. lia. }
      by rewrite Hno.
Qed.


Lemma sorted_by_energy tracks :
  StronglySorted energyLe (Js.sort (fun a b => inject_Z (energyOf a - energyOf b)) tracks).
Proof.
  apply sort_sorted.
  - intros a b c. unfold energyLe. lia.
  - intros a b H. apply Qle_bool_iff in H. unfold energyLe.
    change 0%Q with (inject_Z 0) in H. rewrite <- Zle_Qle in H. lia.
  - intros a b H. unfold energyLe.
    destruct (Z_le_gt_dec (energyOf a - energyOf b) 0) as [Hle|Hgt]; [|lia].
    rewrite Zle_Qle in Hle. apply Qle_bool_iff in Hle. change (inject_Z 0) with 0%Q in Hle.
    congruence.
Qed.

(** X14 -- [createEnergyCurve] on a non-empty array: with the tracks
    sorted by ascending energy and [midpoint = floor(length / 2)], the
    result is the upper part of the sorted array in ascending order
    followed by the lower part in descending order.  It is a permutation
    of the input that rises to the highest energy and then falls. *)
Theorem energy_curve_rises_then_falls tracks :
  tracks <> [] ->
  let sortedByEnergy := Js.sort (fun a b => inject_Z (energyOf a - energyOf b)) tracks in
  let midpoint := (length tracks / 2)%nat in
  createEnergyCurve tracks
    = Some (drop midpoint sortedByEnergy ++ reverse (take midpoint sortedByEnergy))%list /\
  sortedByEnergy ≡ₚ tracks /\
  StronglySorted energyLe sortedByEnergy.
Proof.
  intros Hne sortedByEnergy midpoint.
  assert (Hperm : sortedByEnergy ≡ₚ tracks) by apply sort_perm.
  split; [|split; [exact Hperm|apply sorted_by_energy]].
  unfold createEnergyCurve. fold sortedByEnergy.
  assert (Hlen : length sortedByEnergy = length tracks) by (by rewrite Hperm).
  rewrite <- Hlen. subst midpoint. rewrite <- Hlen.
  set (midpoint := (length sortedByEnergy / 2)%nat).
  assert (Hpos : (0 < length sortedByEnergy)%nat).
  { rewrite Hlen. destruct tracks; [congruence|cbn; lia]. }
  assert (Hmid : (midpoint < length sortedByEnergy)%nat).
  { subst midpoint. apply Nat.Div0.div_lt_upper_bound. lia. }
  replace (Z.of_nat (length sortedByEnergy) / 2) with (Z.of_nat midpoint)
    by (subst midpoint; by rewrite Nat2Z.inj_div).
  destruct (lookup_lt_is_Some_2 sortedByEnergy midpoint Hmid) as [x Hx].
  rewrite (pushAt_in_range _ _ _ _ Hx). cbn [app].
  replace (Z.of_nat midpoint + 1) with (Z.of_nat (S midpoint)) by lia.
  rewrite (energyLoop_up sortedByEnergy midpoint eq_refl
             (length sortedByEnergy - S midpoint)); [|lia|cbn [length]; lia|lia|done].
  by rewrite (drop_S _ _ _ Hx).
Qed.

Lemma energy_curve_rises_then_falls_witness :
  let sortedByEnergy :=
    Js.sort (fun a b => inject_Z (energyOf a - energyOf b)) (scored <$> threeTracks) in
  let midpoint := (length (scored <$> threeTracks) / 2)%nat in
  createEnergyCurve (scored <$> threeTracks)
    = Some (drop midpoint sortedByEnergy ++ reverse (take midpoint sortedByEnergy))%list /\
  sortedByEnergy ≡ₚ scored <$> threeTracks /\
  StronglySorted energyLe sortedByEnergy.
Proof. apply energy_curve_rises_then_falls. discriminate. Defined.

(** ** harmonicMixing *)

Lemma greedyLoop_perm choose :
  (forall lastTrack remaining,
     remaining <> [] -> (choose lastTrack remaining < length remaining)%nat) ->
  forall fuel result remaining out,
    greedyLoop choose fuel result remaining = Some out ->
    out ≡ₚ result ++ remaining /\ result `prefix_of` out.
Proof.
  intros Hchoose. induction fuel as [|fuel IH]; intros result remaining out Hrun.
  - destruct remaining; [|discriminate]. cbn in Hrun. injection Hrun as <-.
    by rewrite app_nil_r.
  - destruct remaining as [|t rest].
    { cbn in Hrun. injection Hrun as <-. by rewrite app_nil_r. }
    cbn [greedyLoop] in Hrun.
    destruct (last result) as [lastTrack|]; [|discriminate].
    set (remaining := t :: rest) in *.
    assert (Hb : (choose lastTrack remaining < length remaining)%nat) by (by apply Hchoose).
    destruct (lookup_lt_is_Some_2 remaining _ Hb) as [x Hx].
    unfold pushAt in Hrun. rewrite Nat2Z.id, Hx in Hrun.
    change (option_list (Some x)) with [x] in Hrun.
    apply IH in Hrun as [Hperm Hpre]. split.
    + rewrite Hperm, <- app_assoc. apply Permutation_app_head. cbn [app].
      symmetry. by apply delete_Permutation.
    + etrans; [|exact Hpre]. by apply prefix_app_r.
Qed.

(** X15 -- [harmonicMixing] on a non-empty array returns a permutation
    of it: the input itself when fewer than half of the tracks have a key,
    otherwise an arrangement of the tracks with a key that starts with the
    first of them, followed by the tracks without a key in their input
    order. *)
Theorem harmonicMixing_permutes tracks :
  tracks <> [] ->
  let tracksWithKeys := filter (fun t => hasKey t = true) tracks in
  let missingTracks := filter (fun t => hasKey t = false) tracks in
  exists out,
    harmonicMixing tracks = Some out /\
    out ≡ₚ tracks /\
    ((2 * length tracksWithKeys < length tracks)%nat -> out = tracks) /\
    ((length tracks <= 2 * length tracksWithKeys)%nat ->
     exists result,
       out = (result ++ missingTracks)%list /\ result ≡ₚ tracksWithKeys /\
       head result = head tracksWithKeys).
Proof.
  intros Hne tracksWithKeys missingTracks.
  assert (Hsplit : tracksWithKeys ++ missingTracks ≡ₚ tracks).
  { subst tracksWithKeys missingTracks.
    rewrite <- (filter_app_complement (fun t => hasKey t = true) tracks) at 3.
    apply Permutation_app_head. apply reflexive_eq. apply list_filter_iff.
    intros t. destruct (hasKey t); split; congruence. }
  destruct (harmonicMixing_returns tracks Hne) as [out Hout]. exists out.
  split; [exact Hout|]. unfold harmonicMixing in Hout. fold tracksWithKeys missingTracks in Hout.
  destruct (Qltb _ _) eqn:Hfew.
  - injection Hout as <-. split; [reflexivity|]. split; [done|].
    intros Hmany. apply Qltb_true in Hfew. exfalso. revert Hfew.
    unfold Qlt, Qmult, inject_Z. cbn [Qnum Qden]. lia.
  - apply Qltb_false in Hfew.
    assert (Hmany : (length tracks <= 2 * length tracksWithKeys)%nat).
    { revert Hfew. unfold Qle, Qmult, inject_Z. cbn [Qnum Qden]. lia. }
    destruct (greedyLoop _ _ _ _) as [result|] eqn:Hloop; [|discriminate].
    injection Hout as <-.
    apply greedyLoop_perm in Hloop as [Hperm Hpre];
      [|intros lastTrack remaining; apply bestHarmonic_in_range].
    destruct tracksWithKeys as [|w0 rest] eqn:Hw.
    { destruct tracks; [congruence|cbn in Hmany; lia]. }
    unfold pushAt in Hperm, Hpre.
    change ((w0 :: rest) !! Z.to_nat 0) with (Some w0) in Hperm, Hpre.
    change (option_list (Some w0)) with [w0] in Hperm, Hpre.
    change (drop 1 (w0 :: rest)) with rest in Hperm.
    cbn [app] in Hperm, Hpre.
    split; [by rewrite Hperm|]. split; [intros; lia|].
    intros _. exists result. split; [reflexivity|]. split; [exact Hperm|].
    destruct Hpre as [tail ->]. reflexivity.
Qed.

(** ** generateTransitionPoints *)

Lemma transitionBetween_ends cur next tr :
  transitionBetween cur next = Return tr ->
  fromTrack tr = t_id cur /\ toTrack tr = t_id next.
Proof.
  unfold transitionBetween.
  destruct (match t_advancedAnalysis cur with Some _ => _ | None => _ end) as [found|];
    [|discriminate].
  cbn [bind]. intros H. injection H as <-. by split.
Qed.

(** X16 -- when [generateTransitionPoints] returns, it returns one
    transition less than there are tracks, and transition [i] leads from
    the id of track [i] to the id of track [i + 1]. *)
Theorem plan_links_consecutive_tracks ordered : forall trs,
  generateTransitionPoints ordered = Return trs ->
  length trs = (length ordered - 1)%nat /\
  forall i tr, trs !! i = Some tr ->
    t_id <$> ordered !! i = Some (fromTrack tr) /\
    t_id <$> ordered !! S i = Some (toTrack tr).
Proof.
  induction ordered as [|cur rest IH]; intros trs Hgen.
  - injection Hgen as <-. split; [reflexivity|]. intros i tr H. discriminate.
  - destruct rest as [|next rest'].
    { injection Hgen as <-. split; [reflexivity|]. intros i tr H. discriminate. }
    rewrite generateTransitionPoints_cons in Hgen.
    destruct (transitionBetween cur next) as [tr0|] eqn:Htb; [|discriminate].
    cbn [bind] in Hgen.
    destruct (generateTransitionPoints (next :: rest')) as [trs'|] eqn:Hrest; [|discriminate].
    cbn [bind] in Hgen. injection Hgen as <-.
    destruct (IH trs' eq_refl) as [Hlen Hlinks].
    apply transitionBetween_ends in Htb as [Hfrom Hto].
    split; [cbn [length] in *; lia|].
    intros [|i] tr Hi.
    + cbn in Hi. injection Hi as <-. cbn. by rewrite Hfrom, Hto.
    + cbn in Hi. cbn [lookup list_lookup]. exact (Hlinks i tr Hi).
Qed.

Lemma plan_links_consecutive_tracks_witness :
  length threeTransitions = (length threeTracks - 1)%nat /\
  forall i tr, threeTransitions !! i = Some tr ->
    t_id <$> threeTracks !! i = Some (fromTrack tr) /\
    t_id <$> threeTracks !! S i = Some (toTrack tr).
Proof. apply plan_links_consecutive_tracks. vm_compute. reflexivity. Defined.

(** X17 -- for tracks without advanced analysis
    [generateTransitionPoints] always returns, and every transition is one
    of the fallback: no key rating, and type and duration 'beatmatch' with
    6000 ms, 'fade' with 8000 ms or 'long_fade' with 12000 ms. *)
Theorem plain_tracks_always_get_a_plan ordered :
  Forall (fun t => t_advancedAnalysis t = None) ordered ->
  exists trs,
    generateTransitionPoints ordered = Return trs /\
    Forall (fun tr =>
              keyCompatibility tr = None /\
              ((transitionType tr = beatmatch /\ transitionDuration tr = 6000%Q) \/
               (transitionType tr = fade /\ transitionDuration tr = 8000%Q) \/
               (transitionType tr = long_fade /\ transitionDuration tr = 12000%Q))) trs.
Proof.
  induction ordered as [|cur rest IH]; intros Hplain.
  - exists []. by split.
  - apply Forall_cons in Hplain as [Hcur Hrest].
    destruct (IH Hrest) as (trs & Hgen & Hall).
    destruct rest as [|next rest']; [exists []; by split|].
    rewrite generateTransitionPoints_cons, Hgen.
    rewrite (transitionBetween_fallback cur next (or_introl Hcur)). cbn [bind].
    eexists. split; [reflexivity|]. constructor; [|exact Hall].
    split; [reflexivity|]. unfold pushed, fallbackTransition.
    cbn [transitionType transitionDuration ti_type ti_duration].
    destruct (Qltb (Qabs _) 5); [left; by split|].
    destruct (Qltb 15 (Qabs _)); [right; right; by split|right; left; by split].
Qed.

Lemma plain_tracks_always_get_a_plan_witness :
  exists trs,
    generateTransitionPoints threeTracks = Return trs /\
    Forall (fun tr =>
              keyCompatibility tr = None /\
              ((transitionType tr = beatmatch /\ transitionDuration tr = 6000%Q) \/
               (transitionType tr = fade /\ transitionDuration tr = 8000%Q) \/
               (transitionType tr = long_fade /\ transitionDuration tr = 12000%Q))) trs.
Proof.
  apply plain_tracks_always_get_a_plan. repeat constructor.
Defined.

Lemma harmonicMixing_permutes_witness :
  let tracksWithKeys := filter (fun t => hasKey t = true) [trackA; trackD; mkTrack 1 120 200000] in
  let missingTracks := filter (fun t => hasKey t = false) [trackA; trackD; mkTrack 1 120 200000] in
  exists out,
    harmonicMixing [trackA; trackD; mkTrack 1 120 200000] = Some out /\
    out ≡ₚ [trackA; trackD; mkTrack 1 120 200000] /\
    ((2 * length tracksWithKeys < length [trackA; trackD; mkTrack 1 120 200000])%nat ->
     out = [trackA; trackD; mkTrack 1 120 200000]) /\
    ((length [trackA; trackD; mkTrack 1 120 200000] <= 2 * length tracksWithKeys)%nat ->
     exists result,
       out = (result ++ missingTracks)%list /\ result ≡ₚ tracksWithKeys /\
       head result = head tracksWithKeys).
Proof.
  apply (harmonicMixing_permutes [trackA; trackD; mkTrack 1 120 200000]). discriminate.
Defined.

(** ** The weighted vote *)



Lemma vote_other ordered : forall idx track weight scores key,
  key <> keyOf track -> vote ordered idx track weight scores !! key = scores !! key.
Proof.
  induction ordered as [|t rest IH]; intros idx track weight scores key Hne; [reflexivity|].
  cbn [vote]. rewrite IH by exact Hne.
  case_bool_decide; [|reflexivity]. rewrite lookup_alter_ne; [reflexivity|]. 
  unfold keyOf in Hne. congruence.
Qed.

Lemma vote_row ordered : forall idx track weight scores row,
  scores !! keyOf track = Some row ->
  exists row',
    vote ordered idx track weight scores !! keyOf track = Some row' /\
    length row' = length row /\
    forall p, row' !! p
              = (fun v => if votedAt ordered idx track p then v + weight else v) <$> row !! p.
Proof.
  induction ordered as [|t rest IH]; intros idx track weight scores row Hrow.
  - exists row. split; [exact Hrow|]. split; [reflexivity|]. intros p.
    unfold votedAt. rewrite bool_decide_eq_false_2; [by destruct (row !! p)|].
    intros [_ H]. discriminate.
  - cbn [vote].
    set (row1 := if bool_decide (t_id t = t_id track)
                 then alter (fun v => v + weight) idx row else row).
    destruct (IH (S idx) track weight
                (if bool_decide (t_id t = t_id track)
                 then alter (alter (fun v => v + weight) idx) (idKey (t_id track)) scores
                 else scores) row1) as (row' & Hrow' & Hlen & Hat).
    { subst row1. case_bool_decide; [|exact Hrow].
      fold (keyOf track). by rewrite lookup_alter_eq, Hrow. }
    exists row'. split; [exact Hrow'|]. split.
    { rewrite Hlen. subst row1. case_bool_decide; [apply length_alter|reflexivity]. }
    intros p. rewrite Hat. unfold votedAt. subst row1.
    destruct (decide (p = idx)) as [->|Hp].
    + rewrite (bool_decide_eq_false_2 (S idx <= idx /\ _)%nat) by lia.
      rewrite Nat.sub_diag. cbn [lookup list_lookup fmap option_fmap option_map].
      case_bool_decide as Hid.
      * rewrite bool_decide_eq_true_2 by (split; [lia|congruence]).
        rewrite list_lookup_alter_eq. by destruct (row !! idx).
      * rewrite bool_decide_eq_false_2 by (intros [_ H]; congruence).
        by destruct (row !! idx).
    + assert (Hrow1 : (if bool_decide (t_id t = t_id track)
                       then alter (fun v => v + weight) idx row else row) !! p = row !! p).
      { case_bool_decide; [by rewrite list_lookup_alter_ne|reflexivity]. }
      rewrite Hrow1. destruct (row !! p) as [v|]; [|reflexivity]. cbn. f_equal.
      destruct (decide (idx < p)%nat) as [Hlt|Hge].
      * replace (p - idx)%nat with (S (p - S idx)) by lia. cbn [lookup list_lookup].
        destruct (decide (t_id <$> rest !! (p - S idx)%nat = Some (t_id track))).
        -- by rewrite !bool_decide_eq_true_2 by (split; [lia|done]).
        -- by rewrite !bool_decide_eq_false_2 by (intros [_ H]; done).
      * by rewrite !bool_decide_eq_false_2 by lia.
Qed.

Section Votes.
Context (total : nat) (energyOrdered bpmOrdered harmonicOrdered : list Track).


Lemma scoreOne_other scores track key :
  key <> keyOf track -> (scoreTrack total energyOrdered bpmOrdered harmonicOrdered false) scores track !! key = scores !! key.
Proof.
  intros Hne. unfold scoreTrack.
  rewrite !vote_other by exact Hne. rewrite lookup_insert_ne; [reflexivity|].
  unfold keyOf in Hne. congruence.
Qed.

Lemma scoreOne_row scores track :
  exists row,
    (scoreTrack total energyOrdered bpmOrdered harmonicOrdered false) scores track !! keyOf track = Some row /\
    forall p, (p < total)%nat ->
      row !! p = Some ((if votedAt energyOrdered 0 track p then 5 else 0)
                       + (if votedAt bpmOrdered 0 track p then 10 else 0)).
Proof.
  unfold scoreTrack.
  destruct (vote_row energyOrdered 0 track 5
              (<[idKey (t_id track) := replicate total 0]> scores) (replicate total 0))
    as (row1 & Hrow1 & Hlen1 & Hat1).
  { apply lookup_insert_eq. }
  destruct (vote_row bpmOrdered 0 track 10 _ row1 Hrow1) as (row2 & Hrow2 & Hlen2 & Hat2).
  exists row2. split; [exact Hrow2|]. intros p Hp.
  rewrite Hat2, Hat1, lookup_replicate_2 by exact Hp. cbn.
  f_equal. destruct (votedAt energyOrdered 0 track p), (votedAt bpmOrdered 0 track p); lia.
Qed.

Lemma scores_untouched tracks : forall scores key,
  key ∉ (keyOf <$> tracks) -> fold_left (scoreTrack total energyOrdered bpmOrdered harmonicOrdered false) tracks scores !! key = scores !! key.
Proof.
  induction tracks as [|t rest IH]; intros scores key Hkey; [reflexivity|].
  cbn [fold_left]. rewrite IH.
  - apply scoreOne_other. intros ->. apply Hkey. cbn. left.
  - intros H. apply Hkey. cbn. by right.
Qed.

Lemma scores_final tracks : forall scores track p,
  NoDup (keyOf <$> tracks) -> track ∈ tracks -> (p < total)%nat ->
  scoreAt (fold_left (scoreTrack total energyOrdered bpmOrdered harmonicOrdered false) tracks scores) track p
  = Some ((if votedAt energyOrdered 0 track p then 5 else 0)
          + (if votedAt bpmOrdered 0 track p then 10 else 0)).
Proof.
  induction tracks as [|t rest IH]; intros scores track p Hnd Hin Hp.
  - by apply elem_of_nil in Hin.
  - cbn [fmap list_fmap] in Hnd. apply NoDup_cons in Hnd as [Hfresh Hnd].
    cbn [fold_left]. apply elem_of_cons in Hin as [->|Hin].
    + unfold scoreAt. fold (keyOf t). rewrite scores_untouched by exact Hfresh.
      destruct (scoreOne_row scores t) as (row & -> & Hat). cbn. by apply Hat.
    + by apply IH.
Qed.

End Votes.

(** The placement loop picks the track that holds the BPM vote of the
    position: its score is at least 10, no other track has more than 5. *)
Lemma pickBest_dominant scores usedTracks position b sb :
  scoreAt scores b position = Some sb -> 10 <= sb -> t_id b ∉ usedTracks ->
  forall candidates bestScore bestTrack,
    (forall t s, t ∈ candidates -> t_id t <> t_id b -> scoreAt scores t position = Some s -> s <= 5) ->
    (forall t, t ∈ candidates -> t_id t = t_id b -> t = b) ->
    (bestTrack = Some b /\ 10 <= bestScore) \/ (b ∈ candidates /\ bestScore <= 5) ->
    pickBest scores usedTracks position candidates bestScore bestTrack = Some b.
Proof.
  intros Hsb Hten Hfresh.
  induction candidates as [|t rest IH]; intros bestScore bestTrack Hlow Huniq Hstate.
  - destruct Hstate as [[-> _]|[Hin _]]; [reflexivity|by apply elem_of_nil in Hin].
  - cbn [pickBest].
    assert (Hlow' : forall t s, t ∈ rest -> t_id t <> t_id b ->
                                scoreAt scores t position = Some s -> s <= 5).
    { intros t' s Ht'. apply Hlow. by right. }
    assert (Huniq' : forall t, t ∈ rest -> t_id t = t_id b -> t = b).
    { intros t' Ht'. apply Huniq. by right. }
    destruct (decide (t_id t = t_id b)) as [Hid|Hid].
    + assert (t = b) as -> by (apply Huniq; [left|exact Hid]).
      rewrite Hsb. rewrite bool_decide_eq_false_2 by exact Hfresh. cbn [negb andb].
      destruct (bestScore <? sb) eqn:E.
      * apply IH; [exact Hlow'|exact Huniq'|]. left. by split.
      * apply Z.ltb_ge in E. apply IH; [exact Hlow'|exact Huniq'|].
        destruct Hstate as [Hs|[_ Hs]]; [by left|lia].
    + assert (Hrest : (bestTrack = Some b /\ 10 <= bestScore) \/ (b ∈ rest /\ bestScore <= 5)).
      { destruct Hstate as [Hs|[Hin Hs]]; [by left|]. right. split; [|exact Hs].
        apply elem_of_cons in Hin as [->|Hin]; [congruence|exact Hin]. }
      destruct (scoreAt scores t position) as [s|] eqn:Hs;
        [|by apply IH].
      assert (Hs5 : s <= 5) by (apply (Hlow t s); [left|exact Hid|exact Hs]).
      destruct (negb (bool_decide (t_id t ∈ usedTracks)) && (bestScore <? s)) eqn:E;
        [|by apply IH].
      apply andb_true_iff in E as [_ E]. apply Z.ltb_lt in E.
      apply IH; [exact Hlow'|exact Huniq'|].
      destruct Hrest as [[_ Hs10]|[Hin _]]; [lia|]. right. by split.
Qed.

Lemma NoDup_ids_unique (tracks : list Track) t b :
  NoDup (t_id <$> tracks) -> t ∈ tracks -> b ∈ tracks -> t_id t = t_id b -> t = b.
Proof.
  intros Hnd Ht Hb Hid.
  apply list_elem_of_lookup in Ht as [i Hi]. apply list_elem_of_lookup in Hb as [j Hj].
  assert (i = j) as ->.
  { eapply NoDup_lookup; [exact Hnd| |].
    - rewrite list_lookup_fmap, Hi. reflexivity.
    - rewrite list_lookup_fmap, Hj. cbn. by rewrite Hid. }
  congruence.
Qed.

Lemma votedAt_here ordered track p :
  votedAt ordered 0 track p = bool_decide (t_id <$> ordered !! p = Some (t_id track)).
Proof.
  unfold votedAt. rewrite Nat.sub_0_r.
  destruct (decide (t_id <$> ordered !! p = Some (t_id track))) as [H|H].
  - rewrite !bool_decide_eq_true_2; [reflexivity|exact H|split; [lia|exact H]].
  - rewrite !bool_decide_eq_false_2; [reflexivity|exact H|intros [_ H']; contradiction].
Qed.

Section Placement.
Context (tracks energyOrdered bpmOrdered : list Track).
Hypothesis keys_distinct : NoDup (keyOf <$> tracks).
Hypothesis ids_distinct : NoDup (t_id <$> tracks).
Hypothesis bpm_perm : bpmOrdered ≡ₚ tracks.

Lemma place_follows_bpm : forall k p,
  (p + k = length tracks)%nat ->
  place (fold_left (scoreTrack (length tracks) energyOrdered bpmOrdered tracks false) tracks ∅)
        tracks p k (take p bpmOrdered) (t_id <$> take p bpmOrdered)
  = (bpmOrdered, t_id <$> bpmOrdered).
Proof.
  set (scores := fold_left _ tracks ∅).
  assert (Hlen : length bpmOrdered = length tracks) by (by rewrite bpm_perm).
  assert (Hnd : NoDup (t_id <$> bpmOrdered)) by (by rewrite bpm_perm).
  induction k as [|k IH]; intros p Hp.
  - cbn [place]. rewrite take_ge by lia. reflexivity.
  - cbn [place].
    destruct (lookup_lt_is_Some_2 bpmOrdered p ltac:(lia)) as [b Hb].
    assert (Hin : b ∈ tracks).
    { rewrite <- bpm_perm. by eapply list_elem_of_lookup_2. }
    assert (Hfresh : t_id b ∉ t_id <$> take p bpmOrdered).
    { intros Hused. apply list_elem_of_lookup in Hused as [i Hi].
      assert (Hi' := Hi). apply lookup_lt_Some in Hi'.
      rewrite length_fmap, length_take in Hi'.
      rewrite list_lookup_fmap, lookup_take_lt in Hi by lia.
      assert (i = p); [|lia].
      eapply NoDup_lookup; [exact Hnd| |].
      - rewrite list_lookup_fmap. exact Hi.
      - rewrite list_lookup_fmap, Hb. reflexivity. }
    rewrite (pickBest_dominant scores _ p b
               ((if votedAt energyOrdered 0 b p then 5 else 0) + 10)).
    + rewrite <- (take_S_r _ _ _ Hb).
      replace ((t_id <$> take p bpmOrdered) ++ [t_id b])%list with (t_id <$> take (S p) bpmOrdered)
        by (by rewrite (take_S_r _ _ _ Hb), fmap_app).
      apply IH. lia.
    + unfold scores. rewrite (scores_final _ _ _ _ _ _ _ _ keys_distinct Hin) by lia.
      rewrite (votedAt_here bpmOrdered), Hb. cbn. by rewrite bool_decide_eq_true_2.
    + destruct (votedAt energyOrdered 0 b p); lia.
    + exact Hfresh.
    + intros t s Ht Hid Hs. unfold scores in Hs.
      rewrite (scores_final _ _ _ _ _ _ _ _ keys_distinct Ht) in Hs by lia.
      injection Hs as <-. rewrite (votedAt_here bpmOrdered), Hb. cbn.
      rewrite (bool_decide_eq_false_2 (Some (t_id b) = Some (t_id t))) by congruence.
      destruct (votedAt energyOrdered 0 t p); lia.
    + intros t Ht Hid. by apply (NoDup_ids_unique tracks).
    + right. split; [exact Hin|lia].
Qed.

End Placement.

Lemma sort_insert_fmap {A B} (f : A -> B) (compare : B -> B -> Q) (compare' : A -> A -> Q) x l :
  (forall a b, compare (f a) (f b) = compare' a b) ->
  Js.sort_insert compare (f x) (f <$> l) = f <$> Js.sort_insert compare' x l.
Proof.
  intros Hcmp. induction l as [|y l IH]; [reflexivity|].
  cbn. rewrite Hcmp. destruct (Qle_bool (compare' x y) 0); [reflexivity|].
  cbn. by rewrite <- IH.
Qed.

Lemma sort_fmap {A B} (f : A -> B) (compare : B -> B -> Q) (compare' : A -> A -> Q) l :
  (forall a b, compare (f a) (f b) = compare' a b) ->
  Js.sort compare (f <$> l) = f <$> Js.sort compare' l.
Proof.
  intros Hcmp. unfold Js.sort. induction l as [|x l IH]; [reflexivity|].
  cbn [fmap list_fmap foldr]. fold (@fmap list _ _ _ f l). rewrite IH.
  by apply sort_insert_fmap.
Qed.

Lemma filter_none {A} (P : A -> Prop) `{!forall x, Decision (P x)} (l : list A) :
  (forall x, x ∈ l -> ~ P x) -> filter P l = [].
Proof.
  induction l as [|x l IH]; intros Hno; [reflexivity|].
  rewrite filter_cons_False by (apply Hno; left).
  apply IH. intros y Hy. apply Hno. by right.
Qed.

(** X18 -- tracks without advanced analysis whose ids are distinct as
    object keys: [calculateMixOrder] returns them sorted by ascending BPM
    (a missing BPM counting as 120), in the short case as in the weighted
    vote, where the BPM order outweighs the energy curve; with three or
    more tracks each track also carries its energy and an empty key and
    scale. *)
Theorem plain_mix_is_ascending_bpm analyzedTracks :
  NoDup (keyOf <$> analyzedTracks) ->
  Forall (fun t => t_advancedAnalysis t = None) analyzedTracks ->
  let byBpm := Js.sort (fun a b => (orQ (t_bpm a) 120 - orQ (t_bpm b) 120)%Q) analyzedTracks in
  calculateMixOrder analyzedTracks
  = Some (if (length analyzedTracks <? 3)%nat then byBpm else scored <$> byBpm).
Proof.
  intros Hkeys Hplain byBpm. unfold calculateMixOrder.
  destruct (length analyzedTracks <? 3)%nat eqn:Hshort; [reflexivity|].
  apply Nat.ltb_ge in Hshort.
  assert (Hno : existsb (fun t => bool_decide (is_Some (t_advancedAnalysis t))) analyzedTracks
                = false).
  { apply not_true_is_false. intros Hex. apply existsb_exists in Hex as (t & Ht & Hsome).
    apply list_elem_of_In in Ht. rewrite Forall_forall in Hplain.
    apply bool_decide_eq_true in Hsome. rewrite (Hplain t Ht) in Hsome.
    by destruct Hsome. }
  rewrite Hno.
  set (tracks := scored <$> analyzedTracks).
  assert (Hne : tracks <> []).
  { subst tracks. destruct analyzedTracks; [cbn in Hshort; lia|discriminate]. }
  assert (Hkeys' : NoDup (keyOf <$> tracks)).
  { subst tracks. by rewrite <- list_fmap_compose. }
  assert (Hids : NoDup (t_id <$> tracks)).
  { apply (NoDup_fmap_1 idKey). by rewrite <- list_fmap_compose. }
  destruct (createEnergyCurve_returns tracks Hne) as [energyOrdered ->].
  assert (Hbpm : minimizeBpmJumps tracks
                 = Some (Js.sort (fun a b => (default 0 (t_bpm a) - default 0 (t_bpm b))%Q) tracks)).
  { apply minimizeBpmJumps_sorts; [exact Hne|].
    subst tracks. apply Forall_fmap, Forall_true. intros t. cbn. eauto. }
  rewrite Hbpm.
  set (bpmOrdered := Js.sort _ tracks).
  assert (Hperm : bpmOrdered ≡ₚ tracks) by apply sort_perm.
  pose proof (place_follows_bpm tracks energyOrdered bpmOrdered Hkeys' Hids Hperm
                (length tracks) 0%nat eq_refl) as Hplace.
  change (take 0 bpmOrdered) with (@nil Track) in Hplace. cbn [fmap list_fmap] in Hplace.
  rewrite Hplace.
  rewrite filter_none, app_nil_r.
  - f_equal. subst bpmOrdered tracks byBpm. by apply sort_fmap.
  - intros t Ht Hnot. apply Hnot. apply list_elem_of_fmap_2. by rewrite Hperm.
Qed.

Lemma plain_mix_is_ascending_bpm_witness :
  let byBpm := Js.sort (fun a b => (orQ (t_bpm a) 120 - orQ (t_bpm b) 120)%Q)
                       [mkTrack 3 180 200000; mkTrack 2 128 200000; mkTrack 1 120 200000] in
  calculateMixOrder [mkTrack 3 180 200000; mkTrack 2 128 200000; mkTrack 1 120 200000]
  = Some (if (length [mkTrack 3 180 200000; mkTrack 2 128 200000; mkTrack 1 120 200000] <? 3)%nat
          then byBpm else scored <$> byBpm).
Proof.
  apply plain_mix_is_ascending_bpm.
  - refine (bool_decide_unpack _ _). vm_compute. reflexivity.
  - repeat constructor.
Defined.

(** ** generateMix *)

Lemma fetchTrackDetails_fails W trackIds :
  (exists id, id ∈ trackIds /\ forall track, SC_get W id <> ScTrack track) ->
  exists e, fetchTrackDetails W trackIds = Throw e.
Proof.
  induction trackIds as [|i rest IH]; intros (bad & Hin & Hbad).
  - by apply elem_of_nil in Hin.
  - cbn [fetchTrackDetails]. destruct (SC_get W i) as [|track|e] eqn:Hget; [eauto| |eauto].
    apply elem_of_cons in Hin as [->|Hin]; [by destruct (Hbad track)|].
    destruct IH as [e He]; [eauto|]. rewrite He. eauto.
Qed.

Lemma fetchTrackDetails_returns W trackIds (P : Track -> Prop) :
  Forall (fun id => exists track, SC_get W id = ScTrack track /\ P track) trackIds ->
  exists tracks, fetchTrackDetails W trackIds = Return tracks /\ Forall P tracks /\
                 length tracks = length trackIds.
Proof.
  induction 1 as [|i rest (track & Hget & HP) _ (tracks & Hrest & Hall & Hlen)].
  - exists []. by repeat split.
  - exists (track :: tracks). cbn [fetchTrackDetails]. rewrite Hget, Hrest.
    repeat split; [by constructor|]. cbn. by rewrite Hlen.
Qed.

(** X19 -- [generateMix] is all or nothing: when the lookup of one of the
    ids fails ([SC.get] calls back with an error or throws), the call
    throws, no mix is returned and the analysis cache is left as it
    was. *)
Theorem generateMix_is_all_or_nothing W trackIds analysisCache :
  (exists id, id ∈ trackIds /\ forall track, SC_get W id <> ScTrack track) ->
  exists e, generateMix W trackIds analysisCache = Some (Throw e, analysisCache).
Proof.
  intros Hbad. destruct (fetchTrackDetails_fails W trackIds Hbad) as [e He].
  exists e. unfold generateMix. by rewrite He.
Qed.

Lemma generateMix_is_all_or_nothing_witness :
  exists e, generateMix catalogue [NumId 1; StrId "a.mp3"; NumId 2] ∅ = Some (Throw e, ∅).
Proof.
  apply generateMix_is_all_or_nothing.
  exists (StrId "a.mp3"). split; [|discriminate].
  apply elem_of_cons. right. apply elem_of_cons. by left.
Defined.

(** A track without a file is analysed without touching the cache, and it
    stays without advanced analysis. *)
Lemma analyzeTrack_plain W track cache :
  t_filePath track = None -> plain track ->
  exists analyzed, analyzeTrack W track cache = (analyzed, cache) /\ plain analyzed.
Proof.
  intros Hfile Hplain. unfold analyzeTrack. rewrite Hfile.
  destruct (negb (truthyQ (t_bpm track)) && idTruthy (t_id track));
    [destruct (SC_get W (t_id track))|]; eexists; split; reflexivity || exact Hplain.
Qed.

Lemma analyzeTracks_plain W tracks : forall cache,
  Forall (fun t => t_filePath t = None /\ plain t) tracks ->
  exists analyzed, analyzeTracks W tracks cache = (analyzed, cache) /\ Forall plain analyzed.
Proof.
  induction tracks as [|t rest IH]; intros cache Hall.
  - exists []. by split.
  - apply Forall_cons in Hall as [[Hfile Hplain] Hrest].
    destruct (analyzeTrack_plain W t cache Hfile Hplain) as (a & Ha & Hpa).
    destruct (IH cache Hrest) as (others & Ho & Hpo).
    exists (a :: others). cbn [analyzeTracks]. rewrite Ha, Ho. split; [done|by constructor].
Qed.

(** [calculateMixOrder] returns (copies of) tracks of its input. *)
Lemma calculateMixOrder_plain analyzedTracks ordered :
  Forall plain analyzedTracks -> calculateMixOrder analyzedTracks = Some ordered ->
  Forall plain ordered.
Proof.
  intros Hplain. unfold calculateMixOrder.
  destruct (length analyzedTracks <? 3)%nat.
  - intros [= <-]. by rewrite sort_perm.
  - set (tracks := scored <$> analyzedTracks).
    assert (Htracks : Forall plain tracks).
    { subst tracks. apply Forall_fmap. rewrite Forall_forall in Hplain |- *.
      intros t Ht. exact (Hplain t Ht). }
    destruct (createEnergyCurve tracks); [|discriminate].
    destruct (minimizeBpmJumps tracks); [|discriminate].
    destruct (if existsb _ analyzedTracks then _ else _); [|discriminate].
    destruct (place _ tracks 0 (length tracks) [] []) as [result usedTracks] eqn:Hplace.
    intros [= <-].
    apply place_invariant in Hplace as (_ & _ & Hsub);
      [|reflexivity|by apply NoDup_nil|intros x Hx; by apply elem_of_nil in Hx].
    rewrite Forall_forall in Htracks.
    apply Forall_app. split.
    + apply Forall_forall. intros x Hx. apply Htracks, Hsub, Hx.
    + apply Forall_forall. intros x Hx. apply Htracks.
      by apply list_elem_of_filter in Hx as [_ Hx].
Qed.

(** Between tracks without advanced analysis the loop takes the fallback and
    never throws. *)
Lemma plain_plan_returns ordered :
  Forall plain ordered ->
  exists transitions,
    generateTransitionPoints ordered = Return transitions /\
    length transitions = (length ordered - 1)%nat.
Proof.
  induction ordered as [|cur rest IH]; intros Hplain.
  - exists []. by split.
  - apply Forall_cons in Hplain as [Hcur Hrest].
    destruct (IH Hrest) as (trs & Hgen & Hlen).
    destruct rest as [|next rest']; [exists []; by split|].
    rewrite generateTransitionPoints_cons, Hgen.
    rewrite (transitionBetween_fallback cur next (or_introl Hcur)). cbn [bind].
    eexists. split; [reflexivity|]. cbn [length] in *. lia.
Qed.

(** X20 -- when every id is found and the tracks found have no file and
    no advanced analysis, [generateMix] returns a mix and leaves the cache
    as it was: [hasAdvancedAnalysis] is false, no track of the mix has an
    advanced analysis, there is one transition less than there are tracks
    in the mix, and [totalDuration] adds up the durations of the mix's
    tracks, 180000 for a missing one. *)
Theorem generateMix_of_plain_tracks W trackIds analysisCache :
  Forall (fun id => exists track,
            SC_get W id = ScTrack track /\
            t_filePath track = None /\ t_advancedAnalysis track = None) trackIds ->
  exists mix,
    generateMix W trackIds analysisCache = Some (Return mix, analysisCache) /\
    mix_hasAdvancedAnalysis mix = false /\
    Forall (fun t => t_advancedAnalysis t = None) (mix_tracks mix) /\
    length (mix_transitions mix) = (length (mix_tracks mix) - 1)%nat /\
    mix_totalDuration mix
    = fold_left (fun total track => (total + orQ (t_duration track) 180000)%Q)
                (mix_tracks mix) 0%Q.
Proof.
  intros Hids.
  destruct (fetchTrackDetails_returns W trackIds
              (fun t => t_filePath t = None /\ plain t) Hids)
    as (trackDetails & Hfetch & Hdetails & _).
  destruct (analyzeTracks_plain W trackDetails analysisCache Hdetails)
    as (analyzedTracks & Hanalyze & Hplain).
  destruct (calculateMixOrder_returns analyzedTracks) as [orderedTracks Horder].
  pose proof (calculateMixOrder_plain analyzedTracks orderedTracks Hplain Horder) as Hordered.
  destruct (plain_plan_returns orderedTracks Hordered) as (transitions & Hplan & Hlen).
  eexists. unfold generateMix. rewrite Hfetch, Hanalyze, Horder. cbn [mbind option_bind].
  rewrite Hplan. cbn [bind]. split; [reflexivity|].
  cbn [mix_hasAdvancedAnalysis mix_tracks mix_transitions mix_totalDuration].
  split; [|by repeat split].
  apply not_true_iff_false. intros Hex. apply existsb_exists in Hex as (t & Hin & Ht).
  apply bool_decide_eq_true in Ht. apply list_elem_of_In in Hin.
  rewrite Forall_forall in Hplain. rewrite (Hplain t Hin) in Ht. by destruct Ht.
Qed.

Lemma generateMix_of_plain_tracks_witness :
  exists mix,
    generateMix catalogue [NumId 3; NumId 1; NumId 2] ∅ = Some (Return mix, ∅) /\
    mix_hasAdvancedAnalysis mix = false /\
    Forall (fun t => t_advancedAnalysis t = None) (mix_tracks mix) /\
    length (mix_transitions mix) = (length (mix_tracks mix) - 1)%nat /\
    mix_totalDuration mix
    = fold_left (fun total track => (total + orQ (t_duration track) 180000)%Q)
                (mix_tracks mix) 0%Q.
Proof.
  apply generateMix_of_plain_tracks.
  repeat constructor; eexists; (split; [reflexivity|]); by split.
Defined.

(** ** The player *)

Lemma safe_andThen n f g : safe n f -> safe n g -> safe n (f >> g).
Proof.
  intros Hf Hg s Hs. destruct (Hf s Hs) as (s1 & Hrun & Hs1).
  unfold andThen. rewrite Hrun. cbn [bind]. by apply Hg.
Qed.

Lemma safe_done n : safe n done_.
Proof. intros s Hs. exists s. by split. Qed.

Ltac unpack_inv H :=
  let Hn := fresh "Hn" in
  destruct H as (Hn & (Hg & Ha & Hl & Hm & Hh & Ht & Hholes & Hcur) & Htimers).

Ltac inv_holds :=
  unfold playerInv, wellFormed; cbn;
  rewrite ?length_alter, ?length_insert, ?length_fmap;
  repeat split; try assumption; try lia.

Lemma safe_onGain n i f : (i < n)%nat -> safe n (onGain i f).
Proof.
  intros Hi s Hs. unpack_inv Hs. rewrite onGain_in_range by lia.
  eexists. split; [reflexivity|]. inv_holds.
Qed.

Lemma safe_onLowEQ n i f : (i < n)%nat -> safe n (onLowEQ i f).
Proof.
  intros Hi s Hs. unpack_inv Hs. rewrite onLowEQ_in_range by lia.
  eexists. split; [reflexivity|]. inv_holds.
Qed.

Lemma safe_onMidEQ n i f : (i < n)%nat -> safe n (onMidEQ i f).
Proof.
  intros Hi s Hs. unpack_inv Hs. rewrite onMidEQ_in_range by lia.
  eexists. split; [reflexivity|]. inv_holds.
Qed.

Lemma safe_onHighEQ n i f : (i < n)%nat -> safe n (onHighEQ i f).
Proof.
  intros Hi s Hs. unpack_inv Hs. rewrite onHighEQ_in_range by lia.
  eexists. split; [reflexivity|]. inv_holds.
Qed.

Lemma safe_onAudio n i f : (i < n)%nat -> safe n (onAudio i f).
Proof.
  intros Hi s Hs. unpack_inv Hs. rewrite onAudio_in_range by lia.
  eexists. split; [reflexivity|]. inv_holds.
Qed.

Lemma safe_setTempoAdjustment n i q : (i < n)%nat -> safe n (setTempoAdjustment i (Some q)).
Proof.
  intros Hi s Hs. unpack_inv Hs. unfold setTempoAdjustment.
  rewrite assign_in_range by lia.
  eexists. split; [reflexivity|]. inv_holds. apply Forall_insert; eauto.
Qed.

Lemma safe_setPlaybackRate n i q : (i < n)%nat -> safe n (setPlaybackRate i (Some q)).
Proof. intros Hi. by apply safe_onAudio. Qed.

Lemma safe_setTimeout n cb ms :
  timerInRange n {| delay := ms; callback := cb |} -> safe n (setTimeout cb ms).
Proof.
  intros Hcb s Hs. unpack_inv Hs. unfold setTimeout.
  eexists. split; [reflexivity|]. inv_holds. apply Forall_app. split; [assumption|].
  by constructor.
Qed.

Lemma safe_with_isPlaying n b : safe n (fun s => Return (with_isPlaying b s)).
Proof. intros s Hs. unpack_inv Hs. eexists. split; [reflexivity|]. inv_holds. Qed.

Lemma safe_with_currentTrackIndex n i :
  (i < n)%nat -> safe n (fun s => Return (with_currentTrackIndex i s)).
Proof. intros Hi s Hs. unpack_inv Hs. eexists. split; [reflexivity|]. inv_holds. Qed.

Lemma inv_index n s : playerInv n s -> (currentTrackIndex s < n)%nat.
Proof. intros Hs. unpack_inv Hs. lia. Qed.

Lemma inv_tempo n s i :
  playerInv n s -> (i < n)%nat -> exists q, tempoAdjustmentAt s i = Some q.
Proof.
  intros Hs Hi. unpack_inv Hs. unfold tempoAdjustmentAt.
  destruct (lookup_lt_is_Some_2 (tempoAdjustments s) i ltac:(lia)) as [adj Hadj].
  rewrite Hadj. destruct (Forall_lookup_1 _ _ _ _ Hholes Hadj) as [q ->]. by exists q.
Qed.

Lemma safe_resetTrackEffects n i : (i < n)%nat -> safe n (resetTrackEffects i).
Proof.
  intros Hi. unfold resetTrackEffects.
  repeat apply safe_andThen;
    auto using safe_onLowEQ, safe_onMidEQ, safe_onHighEQ, safe_onAudio,
               safe_setTempoAdjustment, safe_onGain.
Qed.

Lemma safe_adjustTempo n q : safe n (adjustTempo (Some q)).
Proof.
  intros s Hs. pose proof (inv_index n s Hs) as Hi. unfold adjustTempo.
  apply safe_andThen; [by apply safe_setTempoAdjustment| |exact Hs].
  destruct (default false _); [apply safe_done|by apply safe_setPlaybackRate].
Qed.

(** Applying the stored tempo adjustment of track [i], as [play],
    [nextTrack] and [previousTrack] do. *)
Lemma safe_restoreTempo n i :
  (i < n)%nat ->
  safe n (fun s => if notOne (tempoAdjustmentAt s i)
                   then adjustTempo (tempoAdjustmentAt s i) s else Return s).
Proof.
  intros Hi s Hs. destruct (inv_tempo n s i Hs Hi) as [q ->].
  destruct (notOne (Some q)); [by apply safe_adjustTempo|]. exists s. by split.
Qed.

Lemma safe_play n : safe n play.
Proof.
  intros s Hs. pose proof (inv_index n s Hs) as Hi. unfold play.
  revert s Hs Hi. intros s Hs Hi.
  apply (safe_andThen n); [apply safe_andThen|by apply safe_restoreTempo|exact Hs].
  - apply safe_with_isPlaying.
  - by apply safe_onAudio.
Qed.

Lemma safe_pause n : safe n pause.
Proof.
  intros s Hs. pose proof (inv_index n s Hs) as Hi. unfold pause.
  destruct (safe_with_isPlaying n false s Hs) as (s1 & Hs1 & Hinv1).
  injection Hs1 as <-. by apply safe_onAudio.
Qed.

Lemma safe_togglePlayPause n : safe n togglePlayPause.
Proof.
  intros s Hs. unfold togglePlayPause.
  destruct (isPlaying s); [by apply safe_pause|by apply safe_play].
Qed.

Lemma safe_adjustEQ n band gain : safe n (adjustEQ band gain).
Proof.
  intros s Hs. pose proof (inv_index n s Hs) as Hi. unfold adjustEQ.
  destruct (String.eqb band "low"); [by apply safe_onLowEQ|].
  destruct (String.eqb band "mid"); [by apply safe_onMidEQ|].
  destruct (String.eqb band "high"); [by apply safe_onHighEQ|].
  exists s. by split.
Qed.

(** The body shared by [nextTrack] and [previousTrack]. *)
Lemma safe_jump n currentIndex targetIndex :
  (currentIndex < n)%nat -> (targetIndex < n)%nat ->
  safe n (onAudio currentIndex pause_element >>
          onGain currentIndex (setValue 0) >>
          resetTrackEffects currentIndex >>
          onAudio targetIndex rewind_element >>
          onGain targetIndex (setValue 1) >>
          (fun s1 => Return (with_currentTrackIndex targetIndex s1)) >>
          (fun s1 =>
             if isPlaying s1 then
               (onAudio targetIndex play_element >>
                (fun s2 =>
                   if notOne (tempoAdjustmentAt s2 targetIndex)
                   then adjustTempo (tempoAdjustmentAt s2 targetIndex) s2
                   else Return s2)) s1
             else Return s1)).
Proof.
  intros Hc Ht.
  repeat apply safe_andThen;
    auto using safe_onAudio, safe_onGain, safe_onLowEQ, safe_onMidEQ, safe_onHighEQ,
               safe_setTempoAdjustment, safe_with_currentTrackIndex.
  intros s Hs. destruct (isPlaying s); [|exists s; by split].
  apply safe_andThen; [by apply safe_onAudio|by apply safe_restoreTempo|exact Hs].
Qed.

Lemma safe_nextTrack n : safe n nextTrack.
Proof.
  intros s Hs. pose proof (inv_index n s Hs) as Hi.
  assert (Hn : length (tracks s) = n) by apply Hs.
  unfold nextTrack. destruct (length (tracks s) <=? 1)%nat; [exists s; by split|].
  rewrite Hn. apply safe_jump; [exact Hi| |exact Hs]. apply Nat.mod_upper_bound. lia.
Qed.

Lemma safe_previousTrack n : safe n previousTrack.
Proof.
  intros s Hs. pose proof (inv_index n s Hs) as Hi.
  assert (Hn : length (tracks s) = n) by apply Hs.
  unfold previousTrack. destruct (length (tracks s) <=? 1)%nat; [exists s; by split|].
  assert (Ha : (currentTrackIndex s < length (audioElements s))%nat).
  { unpack_inv Hs. lia. }
  destruct (lookup_lt_is_Some_2 _ _ Ha) as [audio ->].
  destruct (Qltb 3 (currentTime audio)); [by apply safe_onAudio|].
  rewrite Hn. apply safe_jump; [exact Hi| |exact Hs]. apply Nat.mod_upper_bound. lia.
Qed.

Lemma safe_with_isCrossfading n b : safe n (fun s => Return (with_isCrossfading b s)).
Proof. intros s Hs. unpack_inv Hs. eexists. split; [reflexivity|]. inv_holds. Qed.

Lemma safe_fold {A} n (step : A -> method) (l : list A) :
  (forall i, safe n (step i)) ->
  forall m0, safe n m0 -> safe n (fold_left (fun m i => m >> step i) l m0).
Proof.
  intros Hstep. induction l as [|x l IH]; intros m0 Hm0; [exact Hm0|].
  cbn [fold_left]. apply IH. by apply safe_andThen.
Qed.

Lemma safe_equalPowerCrossfade n fromIndex toIndex startTime endTime :
  (fromIndex < n)%nat -> (toIndex < n)%nat ->
  safe n (equalPowerCrossfade fromIndex toIndex startTime endTime).
Proof.
  intros Hf Ht. unfold equalPowerCrossfade.
  apply safe_andThen; [apply safe_andThen; by apply safe_onGain|].
  apply safe_fold; [|apply safe_done].
  intros i. unfold equalPowerStep. apply safe_andThen; by apply safe_onGain.
Qed.

Lemma safe_linearCrossfade n fromIndex toIndex startTime endTime :
  (fromIndex < n)%nat -> (toIndex < n)%nat ->
  safe n (linearCrossfade fromIndex toIndex startTime endTime).
Proof.
  intros Hf Ht. unfold linearCrossfade. repeat apply safe_andThen; by apply safe_onGain.
Qed.

Lemma safe_cutEQTransition n fromIndex toIndex startTime duration :
  (fromIndex < n)%nat -> (toIndex < n)%nat ->
  safe n (cutEQTransition fromIndex toIndex startTime duration).
Proof.
  intros Hf Ht. unfold cutEQTransition.
  repeat apply safe_andThen;
    auto using safe_onGain, safe_onLowEQ, safe_onMidEQ, safe_onHighEQ.
Qed.

Lemma safe_performVolumeTransition n type duration fromIndex toIndex :
  (fromIndex < n)%nat -> (toIndex < n)%nat ->
  safe n (performVolumeTransition type duration fromIndex toIndex).
Proof.
  intros Hf Ht s Hs. unfold performVolumeTransition.
  destruct type;
    first [by apply safe_equalPowerCrossfade
          |by apply safe_cutEQTransition
          |by apply safe_linearCrossfade].
Qed.

Lemma safe_prepareBeatsyncTransition n transition currentIndex nextIndex :
  (nextIndex < n)%nat ->
  safe n (prepareBeatsyncTransition transition currentIndex nextIndex).
Proof.
  intros Hnext s Hs. unfold prepareBeatsyncTransition.
  destruct (Qltb 2 _); [|exists s; by split].
  apply (safe_andThen n); [apply safe_andThen| |exact Hs].
  - by apply safe_setTempoAdjustment.
  - by apply safe_setPlaybackRate.
  - by apply safe_setTimeout.
Qed.

Lemma safe_prepareHarmonicTransition n transition currentIndex nextIndex :
  (nextIndex < n)%nat ->
  safe n (prepareHarmonicTransition transition currentIndex nextIndex).
Proof.
  intros Hnext. unfold prepareHarmonicTransition.
  destruct (keyCompatibility transition) as [[]|];
    first [by apply safe_onMidEQ|by apply safe_onHighEQ|apply safe_done].
Qed.

Lemma safe_startAdvancedTransition n transition : safe n (startAdvancedTransition transition).
Proof.
  intros s Hs. pose proof (inv_index n s Hs) as Hi.
  assert (Hn : length (tracks s) = n) by apply Hs.
  unfold startAdvancedTransition. rewrite Hn.
  destruct n as [|n']; [lia|].
  assert (Hnext : ((currentTrackIndex s + 1) mod S n' < S n')%nat)
    by (apply Nat.mod_upper_bound; lia).
  repeat apply (safe_andThen (S n')); try exact Hs.
  - by apply safe_onAudio.
  - destruct (_ && _); [by apply safe_prepareBeatsyncTransition|apply safe_done].
  - destruct (_ && _); [by apply safe_prepareHarmonicTransition|apply safe_done].
  - by apply safe_performVolumeTransition.
  - apply safe_setTimeout. by split.
Qed.

Lemma safe_onTimeUpdate n index : safe n (onTimeUpdate index).
Proof.
  intros s Hs. unfold onTimeUpdate.
  destruct (negb _); [exists s; by split|].
  destruct (tracks s !! index) as [track|]; [|exists s; by split].
  destruct (audioElements s !! index) as [audio|]; [|exists s; by split].
  destruct (List.find _ _) as [transition|]; [|exists s; by split].
  destruct (negb (isCrossfading s)); [|exists s; by split].
  destruct (transitionPoint transition) as [point|]; [|exists s; by split].
  destruct (_ && _); [|exists s; by split].
  apply safe_startAdvancedTransition.
  destruct (safe_with_isCrossfading n true s Hs) as (s1 & Hs1 & Hinv1).
  by injection Hs1 as <-.
Qed.

Lemma safe_onEnded n index : safe n (onEnded index).
Proof.
  intros s Hs. unfold onEnded.
  destruct (_ =? _)%nat; [by apply safe_nextTrack|exists s; by split].
Qed.

Lemma safe_run n t : timerInRange n t -> safe n (run (callback t)).
Proof.
  unfold timerInRange. destruct (callback t) as [c x|x ratio d|x start step interval]; cbn [run].
  - intros [Hc Hx]. repeat apply safe_andThen;
      auto using safe_onAudio, safe_onGain, safe_onLowEQ, safe_onMidEQ, safe_onHighEQ,
                 safe_setTempoAdjustment.
    intros s Hs. destruct (safe_with_currentTrackIndex n x Hx s Hs) as (s1 & Hs1 & Hinv1).
    injection Hs1 as <-. by apply safe_with_isCrossfading.
  - intros Hx. by apply safe_setTimeout.
  - intros Hx. destruct (10 <=? S step)%nat.
    + apply safe_andThen; [by apply safe_setPlaybackRate|by apply safe_setTempoAdjustment].
    + repeat apply safe_andThen;
        [by apply safe_setPlaybackRate|by apply safe_setTempoAdjustment|by apply safe_setTimeout].
Qed.

Lemma safe_fire n k : safe n (fire k).
Proof.
  intros s Hs. unfold fire.
  destruct (timers s !! k) as [t|] eqn:Hk; [|exists s; by split].
  apply safe_run.
  - unpack_inv Hs. by eapply Forall_lookup_1.
  - unpack_inv Hs. inv_holds. by apply Forall_delete.
Qed.

Lemma safe_perform n a : safe n (perform a).
Proof.
  destruct a; cbn [perform].
  - apply safe_togglePlayPause.
  - apply safe_nextTrack.
  - apply safe_previousTrack.
  - apply safe_adjustEQ.
  - apply safe_adjustTempo.
  - apply safe_onTimeUpdate.
  - apply safe_onEnded.
  - intros s Hs. destruct (index <? length (audioElements s))%nat eqn:E; [|exists s; by split].
    apply Nat.ltb_lt in E. apply safe_onAudio; [|exact Hs]. unpack_inv Hs. lia.
  - apply safe_fire.
Qed.

Lemma safe_performAll n actions : safe n (performAll actions).
Proof.
  induction actions as [|a rest IH]; cbn [performAll]; [apply safe_done|].
  apply safe_andThen; [apply safe_perform|exact IH].
Qed.

(** X21 -- a player built from a non-empty mix never reads a node that
    is not there: whatever sequence of button presses, slider moves,
    'timeupdate' and 'ended' events, playback positions and expiring
    timers it goes through, every method returns, and the player still has
    one node of each kind per track and a current index inside the mix. *)
Theorem player_never_reads_a_missing_node mixTracks mixTransitions time actions :
  mixTracks <> [] ->
  exists s,
    performAll actions (initialize mixTracks mixTransitions time) = Return s /\
    wellFormed s /\ length (tracks s) = length mixTracks.
Proof.
  intros Hne.
  destruct (safe_performAll (length mixTracks) actions
              (initialize mixTracks mixTransitions time)) as (s & Hrun & Hn & Hwf & _).
  { split; [reflexivity|]. split; [by apply initialize_wellFormed|constructor]. }
  exists s. by split.
Qed.

Lemma player_never_reads_a_missing_node_witness :
  exists s,
    performAll [PressPlayPause; Playback 0 160; TimeUpdate 0; PressNext; TimerExpires 0;
                PressPrevious; MoveTempo 110; MoveEQ "low" 3%R; Ended 1]
               (initialize threeTracks threeTransitions 0%R) = Return s /\
    wellFormed s /\ length (tracks s) = length threeTracks.
Proof. apply player_never_reads_a_missing_node. discriminate. Defined.

Lemma nextTrack_jumps s :
  (2 <= length (tracks s))%nat ->
  nextTrack s = jumpTo (currentTrackIndex s)
                       ((currentTrackIndex s + 1) mod length (tracks s)) s.
Proof.
  intros Hn. unfold nextTrack.
  destruct (length (tracks s) <=? 1)%nat eqn:E; [apply Nat.leb_le in E; lia|reflexivity].
Qed.

Lemma previousTrack_jumps s audio :
  (2 <= length (tracks s))%nat ->
  audioElements s !! currentTrackIndex s = Some audio ->
  Qltb 3 (currentTime audio) = false ->
  previousTrack s = jumpTo (currentTrackIndex s)
                           ((currentTrackIndex s + length (tracks s) - 1) mod length (tracks s)) s.
Proof.
  intros Hn Ha Hearly. unfold previousTrack.
  destruct (length (tracks s) <=? 1)%nat eqn:E; [apply Nat.leb_le in E; lia|].
  by rewrite Ha, Hearly.
Qed.

Lemma jumpTo_effects s cur target :
  wellFormed s -> (cur < length (tracks s))%nat -> (target < length (tracks s))%nat ->
  target <> cur ->
  exists s',
    jumpTo cur target s = Return s' /\
    tracks s' = tracks s /\ isPlaying s' = isPlaying s /\
    currentTrackIndex s' = target /\
    value <$> gainNodes s' !! cur = Some 0%R /\
    value <$> lowEQ s' !! cur = Some 0%R /\
    value <$> midEQ s' !! cur = Some 0%R /\
    value <$> highEQ s' !! cur = Some 0%R /\
    playbackRate <$> audioElements s' !! cur = Some 1%Q /\
    paused <$> audioElements s' !! cur = Some true /\
    tempoAdjustments s' !! cur = Some (Some 1%Q) /\
    value <$> gainNodes s' !! target = Some 1%R /\
    currentTime <$> audioElements s' !! target = Some 0%Q /\
    wellFormed s' /\
    (forall k, k <> cur -> k <> target -> gainNodes s' !! k = gainNodes s !! k).
Proof.
  intros (Hg & Ha & Hl & Hm & Hh & Ht & Hholes & Hcur) Hc Hnext Hne.
  destruct (lookup_lt_is_Some_2 (tempoAdjustments s) target ltac:(lia)) as [adj Hadj].
  pose proof (Forall_lookup_1 _ _ _ _ Hholes Hadj) as [q ->].
  destruct (lookup_lt_is_Some_2 (gainNodes s) cur ltac:(lia)) as [g0 Hg0].
  destruct (lookup_lt_is_Some_2 (gainNodes s) target ltac:(lia)) as [g1 Hg1].
  destruct (lookup_lt_is_Some_2 (lowEQ s) cur ltac:(lia)) as [l0 Hl0].
  destruct (lookup_lt_is_Some_2 (midEQ s) cur ltac:(lia)) as [m0 Hm0].
  destruct (lookup_lt_is_Some_2 (highEQ s) cur ltac:(lia)) as [h0 Hh0].
  destruct (lookup_lt_is_Some_2 (audioElements s) cur ltac:(lia)) as [a0 Ha0].
  destruct (lookup_lt_is_Some_2 (audioElements s) target ltac:(lia)) as [a1 Ha1].
  unfold jumpTo, andThen.
  rewrite onAudio_in_range by in_range. cbn [bind].
  rewrite onGain_in_range by in_range. cbn [bind].
  rewrite resetTrackEffects_in_range by in_range. cbn [bind].
  rewrite onAudio_in_range by in_range. cbn [bind].
  rewrite onGain_in_range by in_range. cbn [bind].
  cbn.
  destruct (isPlaying s) eqn:Hplaying.
  - rewrite onAudio_in_range by in_range. cbn [bind]. cbn.
    unfold tempoAdjustmentAt. cbn.
    rewrite list_lookup_insert_ne by congruence. rewrite Hadj. cbn.
    destruct (negb (Qeq_bool q 1)).
    + destruct (default false (soundTouchProcessors s !! target)).
      * unfold done_. eexists. split; [reflexivity|].
        rewrite assign_in_range by in_range. unfold wellFormed.
        read_back. rewrite ?Hg0, ?Hg1, ?Hl0, ?Hm0, ?Hh0, ?Ha0, ?Ha1. cbn. keeps_shape.
      * unfold setPlaybackRate. rewrite onAudio_in_range by in_range. cbn [bind].
        eexists. split; [reflexivity|].
        rewrite assign_in_range by in_range. unfold wellFormed.
        read_back. rewrite ?Hg0, ?Hg1, ?Hl0, ?Hm0, ?Hh0, ?Ha0, ?Ha1. cbn. keeps_shape.
    + eexists. split; [reflexivity|]. unfold wellFormed.
      read_back. rewrite ?Hg0, ?Hg1, ?Hl0, ?Hm0, ?Hh0, ?Ha0, ?Ha1. cbn. keeps_shape.
  - eexists. split; [reflexivity|]. unfold wellFormed.
    read_back. rewrite ?Hg0, ?Hg1, ?Hl0, ?Hm0, ?Hh0, ?Ha0, ?Ha1. cbn. keeps_shape.
Qed.

Lemma previous_index_in_range cur n :
  (2 <= n)%nat -> (cur < n)%nat ->
  ((cur + n - 1) mod n < n)%nat /\ ((cur + n - 1) mod n)%nat <> cur /\
  (cur = 0%nat -> ((cur + n - 1) mod n = n - 1)%nat) /\
  ((0 < cur)%nat -> ((cur + n - 1) mod n = cur - 1)%nat).
Proof.
  intros Hn Hc.
  destruct (decide (cur = 0%nat)) as [->|Hpos].
  - rewrite Nat.add_0_l, Nat.mod_small by lia. repeat split; lia.
  - replace (cur + n - 1)%nat with (cur - 1 + 1 * n)%nat by lia.
    rewrite Nat.Div0.mod_add, Nat.mod_small by lia. repeat split; lia.
Qed.

(** X22 -- [previousTrack]: with at most one track it does nothing; more
    than 3 seconds into the current track it only rewinds that track;
    otherwise, on a well-formed player, it moves to the previous index,
    wrapping from 0 to the last track, resets gain, EQ and tempo of the track
    it leaves, and sets the track it enters to gain 1 at time 0. *)
Theorem previousTrack_spec s :
  ((length (tracks s) <= 1)%nat -> previousTrack s = Return s) /\
  (forall audio,
     (2 <= length (tracks s))%nat ->
     audioElements s !! currentTrackIndex s = Some audio ->
     (3 < currentTime audio)%Q ->
     previousTrack s
     = Return (with_audioElements
                 (<[currentTrackIndex s := rewind_element audio]> (audioElements s)) s)) /\
  (forall audio,
     (2 <= length (tracks s))%nat -> wellFormed s ->
     audioElements s !! currentTrackIndex s = Some audio ->
     (currentTime audio <= 3)%Q ->
     exists s',
       previousTrack s = Return s' /\
       currentTrackIndex s'
         = ((currentTrackIndex s + length (tracks s) - 1) mod length (tracks s))%nat /\
       (currentTrackIndex s = 0%nat -> currentTrackIndex s' = (length (tracks s) - 1)%nat) /\
       ((0 < currentTrackIndex s)%nat -> currentTrackIndex s' = (currentTrackIndex s - 1)%nat) /\
       value <$> gainNodes s' !! currentTrackIndex s = Some 0%R /\
       value <$> lowEQ s' !! currentTrackIndex s = Some 0%R /\
       value <$> midEQ s' !! currentTrackIndex s = Some 0%R /\
       value <$> highEQ s' !! currentTrackIndex s = Some 0%R /\
       playbackRate <$> audioElements s' !! currentTrackIndex s = Some 1%Q /\
       tempoAdjustments s' !! currentTrackIndex s = Some (Some 1%Q) /\
       value <$> gainNodes s' !! currentTrackIndex s' = Some 1%R /\
       currentTime <$> audioElements s' !! currentTrackIndex s' = Some 0%Q /\
       wellFormed s').
Proof.
  split; [|split].
  - intros Hshort. unfold previousTrack. apply Nat.leb_le in Hshort. by rewrite Hshort.
  - intros audio Hn Ha Hlate. unfold previousTrack.
    destruct (length (tracks s) <=? 1)%nat eqn:E; [apply Nat.leb_le in E; lia|].
    rewrite Ha. apply Qltb_true in Hlate. rewrite Hlate.
    unfold onAudio, at_index. by rewrite Ha.
  - intros audio Hn Hwf Ha Hearly.
    assert (Hcur : (currentTrackIndex s < length (tracks s))%nat) by apply Hwf.
    destruct (previous_index_in_range _ _ Hn Hcur) as (Hprev & Hne & Hwrap & Hstep).
    rewrite (previousTrack_jumps s audio Hn Ha) by (by apply Qltb_false).
    destruct (jumpTo_effects s _ _ Hwf Hcur Hprev Hne) as (s' & Hrun & _ & _ & Hidx & Hrest).
    exists s'. split; [exact Hrun|]. rewrite Hidx.
    split; [reflexivity|]. split; [exact Hwrap|]. split; [exact Hstep|]. tauto.
Qed.

Lemma previousTrack_spec_witness :
  previousTrack single = Return single /\
  exists s',
    previousTrack loaded = Return s' /\
    currentTrackIndex s' = 2%nat /\
    value <$> gainNodes s' !! 0%nat = Some 0%R /\
    value <$> gainNodes s' !! 2%nat = Some 1%R.
Proof.
  split.
  - apply (proj1 (previousTrack_spec single)). simpl. lia.
  - destruct (proj2 (proj2 (previousTrack_spec loaded)) newAudio) as (s' & Hrun & Hidx & H).
    + simpl. lia.
    + unfold wellFormed. simpl. repeat split; try lia.
      repeat (constructor; [eexists; reflexivity|]). constructor.
    + reflexivity.
    + vm_compute. discriminate.
    + exists s'. split; [exact Hrun|]. split; [exact Hidx|].
      destruct H as (Hwrap & _ & Hg0 & _ & _ & _ & _ & _ & Hg1 & _).
      split; [exact Hg0|]. rewrite Hidx in Hg1. exact Hg1.
Defined.

(** X23 -- on a well-formed player with at least two tracks, [nextTrack]
    followed by [previousTrack] comes back to the track it started from:
    same index and play state, that track at gain 1 and time 0, the track
    visited in between at gain 0. *)
Theorem previous_undoes_next s :
  (2 <= length (tracks s))%nat -> wellFormed s ->
  exists s1 s2,
    nextTrack s = Return s1 /\ previousTrack s1 = Return s2 /\
    currentTrackIndex s2 = currentTrackIndex s /\
    isPlaying s2 = isPlaying s /\
    value <$> gainNodes s2 !! currentTrackIndex s = Some 1%R /\
    value <$> gainNodes s2 !! currentTrackIndex s1 = Some 0%R /\
    currentTime <$> audioElements s2 !! currentTrackIndex s = Some 0%Q /\
    wellFormed s2.
Proof.
  intros Hn Hwf.
  assert (Hcur : (currentTrackIndex s < length (tracks s))%nat) by apply Hwf.
  set (n := length (tracks s)) in *. set (cur := currentTrackIndex s) in *.
  assert (Hnext : ((cur + 1) mod n < n)%nat) by (apply Nat.mod_upper_bound; lia).
  assert (Hne : ((cur + 1) mod n)%nat <> cur).
  { destruct (decide (cur + 1 = n)%nat) as [e|e].
    - rewrite e, Nat.Div0.mod_same. lia.
    - rewrite Nat.mod_small by lia. lia. }
  assert (Hback : (((cur + 1) mod n + n - 1) mod n = cur)%nat).
  { destruct (decide (cur + 1 = n)%nat) as [e|e].
    - rewrite e, Nat.Div0.mod_same, Nat.add_0_l, Nat.mod_small by lia. lia.
    - rewrite (Nat.mod_small (cur + 1)) by lia.
      replace (cur + 1 + n - 1)%nat with (cur + 1 * n)%nat by lia.
      rewrite Nat.Div0.mod_add, Nat.mod_small by lia. reflexivity. }
  destruct (jumpTo_effects s cur _ Hwf Hcur Hnext Hne)
    as (s1 & Hrun1 & Htr1 & Hpl1 & Hidx1 & _ & _ & _ & _ & _ & _ & _ & _ & Htime1 & Hwf1 & _).
  exists s1. rewrite nextTrack_jumps by exact Hn. fold n cur.
  destruct (audioElements s1 !! currentTrackIndex s1) as [audio|] eqn:Ha1;
    [|rewrite Hidx1 in Ha1; by rewrite Ha1 in Htime1].
  assert (Hzero : currentTime audio = 0%Q).
  { rewrite <- Hidx1, Ha1 in Htime1. cbn in Htime1. congruence. }
  assert (Hn1 : (2 <= length (tracks s1))%nat) by (rewrite Htr1; exact Hn).
  rewrite (previousTrack_jumps s1 audio Hn1 Ha1) by (by rewrite Hzero).
  rewrite Htr1, Hidx1. fold n. rewrite Hback.
  destruct (jumpTo_effects s1 ((cur + 1) mod n)%nat cur Hwf1) as (s2 & Hrun2 & Hrest).
  { by rewrite Htr1. }
  { by rewrite Htr1. }
  { congruence. }
  exists s2. split; [exact Hrun1|]. split; [exact Hrun2|].
  destruct Hrest as (_ & Hpl2 & Hidx2 & Hg & _ & _ & _ & _ & _ & Ht & Hg' & Htime & Hwf2 & _).
  split; [exact Hidx2|]. split; [congruence|]. split; [exact Hg'|].
  split; [exact Hg|]. split; [exact Htime|exact Hwf2].
Qed.

Lemma previous_undoes_next_witness :
  exists s1 s2,
    nextTrack loaded = Return s1 /\ previousTrack s1 = Return s2 /\
    currentTrackIndex s2 = currentTrackIndex loaded /\
    isPlaying s2 = isPlaying loaded /\
    value <$> gainNodes s2 !! currentTrackIndex loaded = Some 1%R /\
    value <$> gainNodes s2 !! currentTrackIndex s1 = Some 0%R /\
    currentTime <$> audioElements s2 !! currentTrackIndex loaded = Some 0%Q /\
    wellFormed s2.
Proof.
  apply previous_undoes_next.
  - simpl. lia.
  - unfold wellFormed. simpl. repeat split; try lia.
    repeat (constructor; [eexists; reflexivity|]). constructor.
Defined.

(** ** Constant power *)

Lemma rampsOut_lookup startTime duration n k :
  (k < n)%nat ->
  rampsOut startTime duration n !! k
  = Some (linearRampToValueAtTime (cos (INR k / 100 * PI / 2))
                                  (startTime + INR k / 100 * duration)%R).
Proof.
  intros Hk. unfold rampsOut. rewrite list_lookup_fmap.
  assert (seq 0 n !! k = Some k) as -> by (by apply (lookup_seq_lt 0 n k)).
  reflexivity.
Qed.

Lemma rampsIn_lookup startTime duration n k :
  (k < n)%nat ->
  rampsIn startTime duration n !! k
  = Some (linearRampToValueAtTime (sin (INR k / 100 * PI / 2))
                                  (startTime + INR k / 100 * duration)%R).
Proof.
  intros Hk. unfold rampsIn. rewrite list_lookup_fmap.
  assert (seq 0 n !! k = Some k) as -> by (by apply (lookup_seq_lt 0 n k)).
  reflexivity.
Qed.

(** X24 -- the curve of 'beatmatch_blend' and 'beatmatch' keeps the
    power constant: [performVolumeTransition] appends to each of the two
    gains its start value and 101 ramps, and at every step the outgoing and
    the incoming ramp have the same time and target gains whose squares add
    up to 1. *)
Theorem equal_power_keeps_power type duration fromIndex toIndex s :
  type = beatmatch_blend \/ type = beatmatch ->
  fromIndex <> toIndex ->
  (fromIndex < length (gainNodes s))%nat -> (toIndex < length (gainNodes s))%nat ->
  exists s' fadeOut fadeIn,
    performVolumeTransition type duration fromIndex toIndex s = Return s' /\
    events <$> gainNodes s' !! fromIndex
      = (fun p => events p ++ setValueAtTime 1 (contextTime s) :: fadeOut)%list
          <$> gainNodes s !! fromIndex /\
    events <$> gainNodes s' !! toIndex
      = (fun p => events p ++ setValueAtTime 0 (contextTime s) :: fadeIn)%list
          <$> gainNodes s !! toIndex /\
    length fadeOut = 101%nat /\ length fadeIn = 101%nat /\
    forall k, (k < 101)%nat ->
      exists fadeOutGain fadeInGain time,
        fadeOut !! k = Some (linearRampToValueAtTime fadeOutGain time) /\
        fadeIn !! k = Some (linearRampToValueAtTime fadeInGain time) /\
        (fadeOutGain * fadeOutGain + fadeInGain * fadeInGain = 1)%R.
Proof.
  intros Htype Hne Hf Ht.
  assert (Hsame : performVolumeTransition type duration fromIndex toIndex s
                  = performVolumeTransition beatmatch_blend duration fromIndex toIndex s)
    by (destruct Htype as [-> | ->]; reflexivity).
  rewrite Hsame.
  destruct (beatmatch_blend_is_equal_power duration fromIndex toIndex s Hne Hf Ht)
    as (s' & Hrun & Hout & Hin).
  set (startTime := contextTime s) in *.
  set (d := (startTime + Q2R duration / 1000 - startTime)%R) in *.
  exists s', (rampsOut startTime d 101), (rampsIn startTime d 101).
  split; [exact Hrun|].
  split; [rewrite Hout; by destruct (gainNodes s !! fromIndex)|].
  split; [rewrite Hin; by destruct (gainNodes s !! toIndex)|].
  split; [unfold rampsOut; by rewrite length_fmap, length_seq|].
  split; [unfold rampsIn; by rewrite length_fmap, length_seq|].
  intros k Hk. eexists _, _, _.
  split; [by apply rampsOut_lookup|]. split; [by apply rampsIn_lookup|].
  pose proof (sin2_cos2 (INR k / 100 * PI / 2)) as H. unfold Rsqr in H. Lra.lra.
Qed.

Lemma equal_power_keeps_power_witness :
  exists s' fadeOut fadeIn,
    performVolumeTransition beatmatch 6000 0 1 loaded = Return s' /\
    events <$> gainNodes s' !! 0%nat
      = (fun p => events p ++ setValueAtTime 1 (contextTime loaded) :: fadeOut)%list
          <$> gainNodes loaded !! 0%nat /\
    events <$> gainNodes s' !! 1%nat
      = (fun p => events p ++ setValueAtTime 0 (contextTime loaded) :: fadeIn)%list
          <$> gainNodes loaded !! 1%nat /\
    length fadeOut = 101%nat /\ length fadeIn = 101%nat /\
    forall k, (k < 101)%nat ->
      exists fadeOutGain fadeInGain time,
        fadeOut !! k = Some (linearRampToValueAtTime fadeOutGain time) /\
        fadeIn !! k = Some (linearRampToValueAtTime fadeInGain time) /\
        (fadeOutGain * fadeOutGain + fadeInGain * fadeInGain = 1)%R.
Proof.
  apply equal_power_keeps_power.
  - by right.
  - discriminate.
  - simpl. lia.
  - simpl. lia.
Defined.

Lemma scheduledWithin_refl lo hi p : scheduledWithin lo hi p p.
Proof. split; [done|]. exists []. by rewrite app_nil_r. Qed.

Lemma scheduledWithin_trans lo hi p q r :
  scheduledWithin lo hi p q -> scheduledWithin lo hi q r -> scheduledWithin lo hi p r.
Proof.
  intros [Hv (n1 & He & Hf)] [Hv' (n2 & He' & Hf')]. split; [congruence|].
  exists (n1 ++ n2)%list. split; [by rewrite He', He, app_assoc|by apply Forall_app].
Qed.

Lemma scheduledWithin_all_refl lo hi l : Forall2 (scheduledWithin lo hi) l l.
Proof. induction l; constructor; auto using scheduledWithin_refl. Qed.

Lemma scheduledWithin_all_trans lo hi l1 l2 l3 :
  Forall2 (scheduledWithin lo hi) l1 l2 -> Forall2 (scheduledWithin lo hi) l2 l3 ->
  Forall2 (scheduledWithin lo hi) l1 l3.
Proof.
  intros H. revert l3. induction H; intros l3 H3; inversion H3; subst; constructor;
    eauto using scheduledWithin_trans.
Qed.

Lemma extendsWithin_refl lo hi s : extendsWithin lo hi s s.
Proof. repeat split; apply scheduledWithin_all_refl. Qed.

Lemma extendsWithin_trans lo hi s1 s2 s3 :
  extendsWithin lo hi s1 s2 -> extendsWithin lo hi s2 s3 -> extendsWithin lo hi s1 s3.
Proof.
  intros (A & B & C & D) (A' & B' & C' & D').
  repeat split; eapply scheduledWithin_all_trans; eauto.
Qed.

Lemma scheduledWithin_insert lo hi l i x e :
  l !! i = Some x -> (lo <= eventTime e <= hi)%R ->
  Forall2 (scheduledWithin lo hi) l (<[i := schedule e x]> l).
Proof.
  revert i. induction l as [|y l IH]; intros [|i] Hx He; try discriminate.
  - injection Hx as ->. constructor; [|apply scheduledWithin_all_refl].
    split; [done|]. exists [e]. split; [done|]. by constructor.
  - constructor; [apply scheduledWithin_refl|]. by apply IH.
Qed.

Lemma windowed_done n lo hi : windowed n lo hi done_.
Proof. intros s Hs. exists s. auto using extendsWithin_refl. Qed.

Lemma windowed_andThen n lo hi f g :
  windowed n lo hi f -> windowed n lo hi g -> windowed n lo hi (f >> g).
Proof.
  intros Hf Hg s Hs. destruct (Hf s Hs) as (s1 & H1 & Hn1 & He1).
  destruct (Hg s1 Hn1) as (s2 & H2 & Hn2 & He2).
  exists s2. unfold andThen. rewrite H1. cbn. eauto using extendsWithin_trans.
Qed.

Ltac windowed_prim field i :=
  let s := fresh "s" in let Hs := fresh "Hs" in let x := fresh "x" in
  let Hx := fresh "Hx" in
  intros ? ? s Hs;
  destruct Hs as (Hg & Hl & Hm & Hh);
  destruct (lookup_lt_is_Some_2 (field s) i ltac:(lia)) as [x Hx];
  eexists; split;
  [ unfold onGain, onLowEQ, onMidEQ, onHighEQ, at_index; rewrite Hx; reflexivity
  | split;
    [ repeat split; cbn; rewrite ?length_insert; assumption
    | repeat split; cbn;
      first [ by apply scheduledWithin_insert | apply scheduledWithin_all_refl ] ] ].

Lemma windowed_onGain n lo hi i e :
  (i < n)%nat -> (lo <= eventTime e <= hi)%R -> windowed n lo hi (onGain i (schedule e)).
Proof. windowed_prim gainNodes i. Qed.

Lemma windowed_onLowEQ n lo hi i e :
  (i < n)%nat -> (lo <= eventTime e <= hi)%R -> windowed n lo hi (onLowEQ i (schedule e)).
Proof. windowed_prim lowEQ i. Qed.

Lemma windowed_onMidEQ n lo hi i e :
  (i < n)%nat -> (lo <= eventTime e <= hi)%R -> windowed n lo hi (onMidEQ i (schedule e)).
Proof. windowed_prim midEQ i. Qed.

Lemma windowed_onHighEQ n lo hi i e :
  (i < n)%nat -> (lo <= eventTime e <= hi)%R -> windowed n lo hi (onHighEQ i (schedule e)).
Proof. windowed_prim highEQ i. Qed.

Lemma windowed_fold n lo hi (step : nat -> method) l m :
  windowed n lo hi m -> (forall i, i ∈ l -> windowed n lo hi (step i)) ->
  windowed n lo hi (fold_left (fun m i => m >> step i) l m).
Proof.
  revert m. induction l as [|i l IH]; intros m Hm Hstep; [exact Hm|].
  cbn. apply IH.
  - apply windowed_andThen; [exact Hm|]. apply Hstep. by left.
  - intros j Hj. apply Hstep. by right.
Qed.

Lemma step_fraction i : (i < 101)%nat -> (0 <= INR i / 100 <= 1)%R.
Proof.
  intros Hi. assert (0 <= INR i)%R by apply pos_INR.
  assert (INR i <= INR 100)%R as Hle by (apply le_INR; lia).
  replace (INR 100) with 100%R in Hle by (rewrite INR_IZR_INZ; reflexivity).
  Lra.lra.
Qed.

Section Window.
Variables (n fromIndex toIndex : nat) (startTime d : R).
Hypothesis Hfrom : (fromIndex < n)%nat.
Hypothesis Hto : (toIndex < n)%nat.
Hypothesis Hd : (0 <= d)%R.

Lemma windowed_equalPowerCrossfade :
  windowed n startTime (startTime + d)
    (equalPowerCrossfade fromIndex toIndex startTime (startTime + d)).
Proof.
  unfold equalPowerCrossfade.
  apply windowed_andThen;
    [apply windowed_andThen; apply windowed_onGain; try assumption; cbn; Lra.lra|].
  apply windowed_fold; [apply windowed_done|].
  intros i Hi. apply elem_of_seq in Hi.
  destruct (step_fraction i ltac:(lia)) as [H0 H1].
  unfold equalPowerStep.
  apply windowed_andThen; apply windowed_onGain; try assumption; cbn; Lra.nra.
Qed.

Lemma windowed_linearCrossfade :
  windowed n startTime (startTime + d)
    (linearCrossfade fromIndex toIndex startTime (startTime + d)).
Proof.
  unfold linearCrossfade.
  repeat apply windowed_andThen; apply windowed_onGain; try assumption; cbn; Lra.lra.
Qed.

Lemma windowed_cutEQTransition :
  windowed n startTime (startTime + d)
    (cutEQTransition fromIndex toIndex startTime d).
Proof.
  unfold cutEQTransition.
  repeat apply windowed_andThen;
    first [apply windowed_onGain | apply windowed_onLowEQ
          | apply windowed_onMidEQ | apply windowed_onHighEQ];
    try assumption; cbn; Lra.lra.
Qed.
End Window.

(** X25 -- whatever the transition type, on a well-formed player and for
    a duration that is not negative, [performVolumeTransition] returns and
    only adds automation events, all of them scheduled between the current
    time of the context and that time plus the duration: no [value] is
    written and no parameter loses an event. *)
Theorem volume_automation_stays_in_window type duration fromIndex toIndex s :
  (0 <= duration)%Q -> wellFormed s ->
  (fromIndex < length (tracks s))%nat -> (toIndex < length (tracks s))%nat ->
  exists s',
    performVolumeTransition type duration fromIndex toIndex s = Return s' /\
    extendsWithin (contextTime s) (contextTime s + Q2R duration / 1000) s s'.
Proof.
  intros Hdur Hwf Hfrom Hto.
  assert (Hd : (0 <= Q2R duration / 1000)%R).
  { apply Qreals.Qle_Rle in Hdur. rewrite RMicromega.Q2R_0 in Hdur. Lra.lra. }
  assert (Hn : nodesPerKind (length (tracks s)) s).
  { destruct Hwf as (? & ? & ? & ? & ? & _). by repeat split. }
  unfold performVolumeTransition.
  destruct (windowed_equalPowerCrossfade _ fromIndex toIndex (contextTime s)
              (Q2R duration / 1000) Hfrom Hto Hd s Hn) as (s1 & Hrun1 & _ & Hext1).
  destruct (windowed_linearCrossfade _ fromIndex toIndex (contextTime s)
              (Q2R duration / 1000) Hfrom Hto Hd s Hn) as (s2 & Hrun2 & _ & Hext2).
  destruct (windowed_cutEQTransition _ fromIndex toIndex (contextTime s)
              (Q2R duration / 1000) Hfrom Hto Hd s Hn) as (s3 & Hrun3 & _ & Hext3).
  destruct type; eauto.
Qed.

Lemma volume_automation_stays_in_window_witness :
  exists s',
    performVolumeTransition cut_eq 6000 0 1 loaded = Return s' /\
    extendsWithin (contextTime loaded) (contextTime loaded + Q2R 6000 / 1000) loaded s'.
Proof.
  apply (volume_automation_stays_in_window cut_eq 6000 0 1 loaded).
  - discriminate.
  - vm_compute. repeat split; repeat constructor; eauto.
  - simpl. lia.
  - simpl. lia.
Defined.

(** [startAdvancedTransition] ends by queueing its closing callback. *)
Lemma startAdvancedTransition_closing n transition s :
  playerInv n s ->
  let currentIndex := currentTrackIndex s in
  let nextIndex := ((currentIndex + 1) mod length (tracks s))%nat in
  let duration := orQ (Some (transitionDuration transition)) (defaultTransitionTime s) in
  exists s',
    playerInv n s' /\ (currentIndex < n)%nat /\ (nextIndex < n)%nat /\
    startAdvancedTransition transition s
    = Return (with_timers
                (timers s' ++ [{| delay := duration;
                                  callback := TransitionEnd currentIndex nextIndex |}])%list s').
Proof.
  intros Hs. pose proof (inv_index n s Hs) as Hi.
  assert (Hn : length (tracks s) = n) by apply Hs.
  cbv zeta. unfold startAdvancedTransition. rewrite Hn.
  destruct n as [|n']; [lia|].
  assert (Hnext : ((currentTrackIndex s + 1) mod S n' < S n')%nat)
    by (apply Nat.mod_upper_bound; lia).
  match goal with
  | |- exists s', _ /\ _ /\ _ /\ (?m >> setTimeout ?cb ?d) s = _ =>
      assert (Hm : safe (S n') m)
  end.
  { repeat apply (safe_andThen (S n')).
    - by apply safe_onAudio.
    - destruct (_ && _); [by apply safe_prepareBeatsyncTransition|apply safe_done].
    - destruct (_ && _); [by apply safe_prepareHarmonicTransition|apply safe_done].
    - by apply safe_performVolumeTransition. }
  destruct (Hm s Hs) as (s' & Hrun & Hs').
  exists s'. split; [exact Hs'|]. split; [exact Hi|]. split; [exact Hnext|].
  unfold andThen at 1. rewrite Hrun. reflexivity.
Qed.

Lemma delete_last {A} (l : list A) x : delete (length l) (l ++ [x])%list = l.
Proof.
  induction l as [|y l IH]; [done|].
  change (y :: delete (length l) (l ++ [x])%list = y :: l). by rewrite IH.
Qed.

(** X26 -- a started transition completes.  On a well-formed player
    [startAdvancedTransition] returns with its closing callback as the last
    pending timer, due after the transition's duration; when that timer
    expires the player is on the next track with [isCrossfading] cleared,
    the track it left is paused at rate 1 with gain 0, and the other
    pending timers are still pending. *)
Theorem transition_hands_over transition s :
  wellFormed s -> Forall (timerInRange (length (tracks s))) (timers s) ->
  let currentIndex := currentTrackIndex s in
  let nextIndex := ((currentIndex + 1) mod length (tracks s))%nat in
  exists started closing finished,
    startAdvancedTransition transition s = Return started /\
    last (timers started) = Some closing /\
    callback closing = TransitionEnd currentIndex nextIndex /\
    delay closing = orQ (Some (transitionDuration transition)) (defaultTransitionTime s) /\
    fire (length (timers started) - 1) started = Return finished /\
    currentTrackIndex finished = nextIndex /\
    isCrossfading finished = false /\
    paused <$> audioElements finished !! currentIndex = Some true /\
    playbackRate <$> audioElements finished !! currentIndex = Some 1%Q /\
    value <$> gainNodes finished !! currentIndex = Some 0%R /\
    timers finished = removelast (timers started).
Proof.
  intros Hwf Hpending currentIndex nextIndex.
  assert (Hs : playerInv (length (tracks s)) s) by (by split).
  destruct (startAdvancedTransition_closing _ transition s Hs)
    as (s' & Hs' & Hci & Hni & Hrun).
  fold currentIndex nextIndex in Hci, Hni, Hrun.
  set (closing := {| delay := orQ (Some (transitionDuration transition))
                                  (defaultTransitionTime s);
                     callback := TransitionEnd currentIndex nextIndex |}) in *.
  unpack_inv Hs'.
  assert (Hpaused : exists audio, audioElements s' !! currentIndex = Some audio).
  { apply lookup_lt_is_Some_2. lia. }
  destruct Hpaused as [audio Haudio].
  assert (Hgain : exists gain, gainNodes s' !! currentIndex = Some gain).
  { apply lookup_lt_is_Some_2. lia. }
  destruct Hgain as [gain Hgain].
  eexists _, closing, _.
  split; [exact Hrun|].
  cbn [timers with_timers].
  split; [by rewrite last_snoc|].
  split; [reflexivity|]. split; [reflexivity|].
  rewrite length_app, Nat.add_sub. cbn [length].
  split.
  { unfold fire. cbn [timers with_timers].
    rewrite lookup_app_r by lia. rewrite Nat.sub_diag.
    change ([closing] !! 0%nat) with (Some closing). unfold closing. cbn [callback run].
    unfold andThen. rewrite onAudio_in_range by (cbn; lia). cbn [bind].
    rewrite resetTrackEffects_in_range by (cbn; rewrite ?length_alter; lia).
    cbn [bind]. reflexivity. }
  cbn. rewrite !list_lookup_alter, Haudio, Hgain. cbn.
  rewrite !decide_True by reflexivity. cbn.
  repeat split.
  rewrite removelast_last. apply delete_last.
Qed.

Lemma transition_hands_over_witness :
  exists started closing finished,
    startAdvancedTransition
      (pushed (mkTrack 1 120 200000) (mkTrack 2 128 200000)
         (fallbackTransition (mkTrack 1 120 200000) (mkTrack 2 128 200000) 200000)) loaded = Return started /\
    last (timers started) = Some closing /\
    callback closing = TransitionEnd 0 1 /\
    delay closing = 8000%Q /\
    fire (length (timers started) - 1) started = Return finished /\
    currentTrackIndex finished = 1%nat /\
    isCrossfading finished = false /\
    paused <$> audioElements finished !! 0%nat = Some true /\
    playbackRate <$> audioElements finished !! 0%nat = Some 1%Q /\
    value <$> gainNodes finished !! 0%nat = Some 0%R /\
    timers finished = removelast (timers started).
Proof.
  apply (transition_hands_over
      (pushed (mkTrack 1 120 200000) (mkTrack 2 128 200000)
         (fallbackTransition (mkTrack 1 120 200000) (mkTrack 2 128 200000) 200000)) loaded).
  - vm_compute. repeat split; repeat constructor; eauto.
  - constructor.
Defined.

(** ** Formatting *)












Example formatDuration_examples :
  formatDuration (Some (200000 : Q)) = "3:20" /\
  formatDuration (Some (999 : Q)) = "0:00" /\
  formatDuration (Some (0 : Q)) = "Unknown" /\
  formatDuration None = "Unknown".
Proof. repeat split; vm_compute; reflexivity. Qed.
